(** * Snippet manager: embedding cache, ranking and search controller

    A shallow embedding of the extension's core logic:
    - [Background]: the service worker ([background.js]), which owns the
      persisted embedding cache and fills it lazily ([ensureEmbeddings]);
    - [Offscreen]: the offscreen document ([offscreen.js]), which memoizes
      the model pipeline ([getEmbedder]);
    - [Popup]: the popup script, which keeps the in-memory cache in step
      with the snippets ([pruneEmbeddingsIndex], [moveSnippet]), scores and
      orders snippets ([getCosineSimilarity], [rankSnippets]) and discards
      stale searches ([filterSnippets]).

    Conventions.  A JavaScript number is an IEEE-754 binary64 value, so it is
    a primitive [float]; a [Float32Array] is a list of floats that went
    through [fround].  [throw new Error(msg)] is [Err msg], the message being
    the one of the source.  A plain object used as a dictionary is a [gmap]
    holding its own properties, read through the prototype chain
    ([property]).  A text is a sequence of UTF-16 code units ([Text]);
    [trim] strips the white space and the line terminators of
    ECMAScript. *)

From Stdlib Require Import Floats ZArith Bool Ascii String.
From Stdlib Require Import Sorting.Sorted Sorting.Permutation.
From stdpp Require Import gmap strings list pretty.

Local Open Scope string_scope.

(** ** Results and effects *)

(** The outcome of a call that may throw: the value, or the thrown
    message. *)
Inductive result (A : Type) : Type :=
| Ok (a : A)
| Err (msg : string).
Arguments Ok {A} a.
Arguments Err {A} msg.

Definition is_ok {A} (r : result A) : bool :=
  match r with Ok _ => true | Err _ => false end.

(** A computation over a mutable world [S]: it returns or throws, and
    leaves the world as it was at that point (nothing is rolled back). *)
Definition M (S A : Type) : Type := S -> result A * S.

Global Instance M_ret {S} : MRet (M S) := fun A a s => (Ok a, s).
Global Instance M_bind {S} : MBind (M S) := fun A B k c s =>
  match c s with
  | (Ok a, s') => k a s'
  | (Err e, s') => (Err e, s')
  end.

Definition throw {S A} (msg : string) : M S A := fun s => (Err msg, s).
Definition get {S} : M S S := fun s => (Ok s, s).
Definition modify {S} (f : S -> S) : M S unit := fun s => (Ok tt, f s).
Definition lift {S A} (r : result A) : M S A := fun s => (r, s).

(** ** Strings *)

(** A JavaScript string is a sequence of UTF-16 code units (numbers below
    65536): [s.length] counts them and [s.substring] cuts between them.
    The texts the code measures, trims or cuts (snippet texts, queries,
    selections, labels) are such sequences.  Ids and messages, which the
    code only compares, concatenates or shows, are Rocq strings. *)
Definition Text : Type := list N.

(** The text of a literal, one code unit per character. *)
Definition utf16 (s : string) : Text :=
  N_of_ascii <$> list_ascii_of_string s.

(** The code units [String.prototype.trim] strips: the WhiteSpace of
    ECMAScript (TAB, VT, FF, ZWNBSP and the space separators of Unicode:
    SPACE, NO-BREAK SPACE, U+1680, U+2000 to U+200A, U+202F, U+205F,
    U+3000) and its LineTerminator (LF, CR, U+2028, U+2029). *)
Definition WhiteSpace : list N :=
  [0x0009; 0x000B; 0x000C; 0xFEFF; 0x0020; 0x00A0; 0x1680;
   0x2000; 0x2001; 0x2002; 0x2003; 0x2004; 0x2005; 0x2006; 0x2007;
   0x2008; 0x2009; 0x200A; 0x202F; 0x205F; 0x3000]%N.

Definition LineTerminator : list N := [0x000A; 0x000D; 0x2028; 0x2029]%N.

Definition is_space (c : N) : bool :=
  existsb (N.eqb c) (WhiteSpace ++ LineTerminator).

Fixpoint trimStart (s : Text) : Text :=
  match s with
  | [] => []
  | c :: s' => if is_space c then trimStart s' else s
  end.

Fixpoint trimEnd (s : Text) : Text :=
  match s with
  | [] => []
  | c :: s' =>
      match trimEnd s' with
      | [] => if is_space c then [] else [c]
      | r => c :: r
      end
  end.

Definition trim (s : Text) : Text := trimEnd (trimStart s).

(** [s.trim().length === 0] *)
Definition blank (s : Text) : bool :=
  Nat.eqb (length (trim s)) 0.

(** ** Numbers and vectors *)

(** [Number.isFinite] on a number. *)
Definition Number_isFinite (x : float) : bool :=
  negb (PrimFloat.is_nan x || PrimFloat.is_infinity x).

(** [Math.fround]: the nearest binary32 value (ties to even), which is what
    storing a number into a [Float32Array] keeps. *)
Definition fround (x : float) : float :=
  match Prim2SF x with
  | S754_finite s m e => SF2Prim (SpecFloat.binary_round 24 128 s m e)
  | _ => x
  end.

(** [Float32Array.from(xs)] for an array of numbers. *)
Definition Float32Array_from (xs : list float) : list float := map fround xs.

(** ** Vector math (popup) *)

Module VectorMath.

Definition msg_equal_length : string :=
  "Cosine similarity requires vectors of equal length.".
Definition msg_finite : string :=
  "Cosine similarity requires finite vector values.".
Definition msg_non_zero : string :=
  "Cosine similarity requires non-zero vectors.".

(** The accumulation loop of [getCosineSimilarity]: [dot], [normA] and
    [normB] after the components still to visit.  [b[i]] past the end of
    [b] is [undefined], which [Number.isFinite] rejects. *)
Fixpoint cosine_loop (a b : list float) (dot normA normB : float)
  : result (float * float * float) :=
  match a with
  | [] => Ok (dot, normA, normB)
  | ai :: a' =>
      match b with
      | [] => Err msg_finite
      | bi :: b' =>
          if negb (Number_isFinite ai) || negb (Number_isFinite bi)
          then Err msg_finite
          else cosine_loop a' b' (dot + ai * bi) (normA + ai * ai)
                 (normB + bi * bi)
      end
  end.

Definition getCosineSimilarity (a b : list float) : result float :=
  if negb (Nat.eqb (length a) (length b)) then Err msg_equal_length
  else
    match cosine_loop a b 0 0 0 with
    | Err e => Err e
    | Ok (dot, normA, normB) =>
        if (normA =? 0)%float || (normB =? 0)%float then Err msg_non_zero
        else Ok (dot / (PrimFloat.sqrt normA * PrimFloat.sqrt normB))%float
    end.

(** The three ways a pair of vectors is rejected: the spec's
    [InvalidVector]. *)
Definition InvalidVector (e : string) : Prop :=
  e = msg_equal_length \/ e = msg_finite \/ e = msg_non_zero.

(** A vector whose Euclidean norm is zero: every component is [+0] or
    [-0]. *)
Definition zero_norm (v : list float) : Prop :=
  Forall (fun x => PrimFloat.is_zero x = true) v.

Definition has_non_finite (v : list float) : Prop :=
  Exists (fun x => Number_isFinite x = false) v.

End VectorMath.

(** ** Snippets and the embedding index *)

(** A stored snippet, or the [{id, text}] item sent to the background.
    A field is [None] when it is missing or not a string (the ids the
    code writes come from [crypto.randomUUID], so an id is a string when
    there is one). *)
Record Snippet : Type := mkSnippet {
  id : option string;
  text : option Text
}.

(** [embeddingsIndex]: snippet id to vector, as a plain array of numbers.
    The map holds the object's own properties, which is what
    [Object.keys], [delete] and the storage see. *)
Abbreviation Index := (gmap string (list float)).

(** The names of the properties a plain object inherits from
    [Object.prototype].  Their values are functions and, for
    ["__proto__"], the prototype itself: all truthy, none an array. *)
Definition Object_prototype : list string :=
  ["constructor"; "__defineGetter__"; "__defineSetter__"; "hasOwnProperty";
   "__lookupGetter__"; "__lookupSetter__"; "isPrototypeOf";
   "propertyIsEnumerable"; "toString"; "valueOf"; "__proto__";
   "toLocaleString"].

Definition inherited (k : string) : bool :=
  bool_decide (k ∈ Object_prototype).

(** What [index[k]] evaluates to: the object's own entry, else what the
    prototype chain gives. *)
Inductive Property : Type :=
| Entry (v : list float)     (* an own property: the vector *)
| Inherited                  (* a property of Object.prototype *)
| Undefined.

Definition property (index : Index) (k : string) : Property :=
  match index !! k with
  | Some v => Entry v
  | None => if inherited k then Inherited else Undefined
  end.

(** [index[k]] is truthy (an array is truthy even when empty). *)
Definition truthy (p : Property) : bool :=
  match p with Undefined => false | _ => true end.

(** [index[k] = v], as far as the own properties go: a write to
    ["__proto__"] that finds no own property of that name runs the
    setter of [Object.prototype], which replaces the object's prototype
    and adds no property. *)
Definition assign (index : Index) (k : string) (v : list float) : Index :=
  if decide (k = "__proto__") then
    match index !! k with
    | Some _ => <[k := v]> index
    | None => index
    end
  else <[k := v]> index.

(** What [chrome.storage.local] holds under [snippet_embeddings_v1]. *)
Inductive Stored : Type :=
| Unset                      (* undefined: never written *)
| StoredIndex (m : Index)    (* an object *)
| StoredOther.               (* null, an array or a primitive *)

Definition msg_storage_object : string :=
  "Embeddings storage must be an object.".

(** The validation both [loadEmbeddingsIndex] functions apply to the
    stored value. *)
Definition index_of_stored (st : Stored) : result Index :=
  match st with
  | Unset => Ok ∅
  | StoredIndex m => Ok m
  | StoredOther => Err msg_storage_object
  end.

(** What a storage area holds under [snippets]. *)
Inductive StoredSnippets : Type :=
| SnippetsUnset                        (* undefined: never written *)
| SnippetsArray (l : list Snippet)     (* an array *)
| SnippetsOther.                       (* anything else *)

(** ** The background service worker *)

Module Background.

Record World : Type := mkWorld {
  local_store : Stored;          (* chrome.storage.local[EMBEDDINGS_KEY] *)
  embed_calls : list Text;       (* texts sent to the offscreen embedder *)
  store_writes : list Index      (* successful writes of the index *)
}.

Section WithEnvironment.

(** The offscreen document's answer to the [k]-th [embedText] request
    ([k] counts from 0): the vector, or the message of the rejection
    (no offscreen API, [lastError], or an [ok: false] response). *)
Variable embedder : nat -> Text -> result (list float).

(** [chrome.runtime.lastError] after reading the index, if any. *)
Variable get_error : option string.

(** [chrome.runtime.lastError] after writing this index, if any. *)
Variable set_error : Index -> option string.

Definition loadEmbeddingsIndex : M World Index :=
  fun w =>
    match get_error with
    | Some e => (Err ("Storage read failed: " ++ e), w)
    | None => (index_of_stored (local_store w), w)
    end.

Definition setStorage (idx : Index) : M World unit :=
  fun w =>
    match set_error idx with
    | Some e => (Err ("Storage write failed: " ++ e), w)
    | None =>
        (Ok tt, {| local_store := StoredIndex idx;
                   embed_calls := embed_calls w;
                   store_writes := store_writes w ++ [idx] |})
    end.

Definition embedText (t : Text) : M World (list float) :=
  if blank t then throw "Text is required for embedding."
  else fun w =>
    (embedder (length (embed_calls w)) t,
     {| local_store := local_store w;
        embed_calls := embed_calls w ++ [t];
        store_writes := store_writes w |}).

(** The [for (const item of items)] loop of [ensureEmbeddings], on the
    local object [embeddingsIndex] and the counter [updated].  The write
    is reached only where the read gave [undefined], so never at
    ["__proto__"]: the prototype of the object stays [Object.prototype]
    throughout the loop. *)
Fixpoint ensure_loop (items : list Snippet) (embeddingsIndex : Index)
    (updated : nat) : M World (Index * nat) :=
  match items with
  | [] => mret (embeddingsIndex, updated)
  | item :: rest =>
      match id item with
      | None | Some EmptyString => throw "Embedding item requires an id."
      | Some i =>
          match text item with
          | None => throw "Embedding item requires text."
          | Some t =>
              if blank t then throw "Embedding item requires text."
              else
                if truthy (property embeddingsIndex i)
                then ensure_loop rest embeddingsIndex updated
                else
                  vector ← embedText t;
                  ensure_loop rest (assign embeddingsIndex i vector)
                    (S updated)
          end
      end
  end.

Definition ensureEmbeddings (items : list Snippet) : M World nat :=
  embeddingsIndex ← loadEmbeddingsIndex;
  r ← ensure_loop items embeddingsIndex 0;
  if Nat.ltb 0 r.2 then setStorage r.1 ;; mret r.2 else mret r.2.

(** [saveEmbedding(id, vector)], called with a string and an array. *)
Definition saveEmbedding (i : string) (vector : list float) : M World unit :=
  if decide (i = "") then throw "Embedding ID is required."
  else
    match vector with
    | [] => throw "Embedding vector is required."
    | _ =>
        embeddingsIndex ← loadEmbeddingsIndex;
        setStorage (assign embeddingsIndex i vector)
    end.

(** The argument of [sendResponse]. *)
Inductive Response : Type :=
| RespondVector (vector : list float)    (* { ok: true, vector } *)
| RespondUpdated (updated : nat)         (* { ok: true, updated } *)
| RespondError (error : string).         (* { ok: false, error } *)

(** [handleEmbedQuery]; [text] is [message.text] when it is a string. *)
Definition handleEmbedQuery (text : option Text)
  : World -> Response * World :=
  fun w =>
    match text with
    | None => (RespondError "Query text is required for embedding.", w)
    | Some t =>
        if blank t
        then (RespondError "Query text is required for embedding.", w)
        else
          match embedText t w with
          | (Ok vector, w') => (RespondVector vector, w')
          | (Err e, w') => (RespondError e, w')
          end
    end.

(** [handleEnsureEmbeddings]; [items] is [message.items] when it is an
    array. *)
Definition handleEnsureEmbeddings (items : option (list Snippet))
  : World -> Response * World :=
  fun w =>
    match items with
    | None => (RespondError "Embedding items must be an array.", w)
    | Some l =>
        match ensureEmbeddings l w with
        | (Ok updated, w') => (RespondUpdated updated, w')
        | (Err e, w') => (RespondError e, w')
        end
    end.

End WithEnvironment.

(** An item [ensureEmbeddings] accepts: a non-empty id and a text that is
    not blank. *)
Definition valid_item (item : Snippet) : Prop :=
  (exists i, id item = Some i /\ i <> "") /\
  (exists t, text item = Some t /\ blank t = false).

Definition id_of (item : Snippet) : string := default "" (id item).
Definition text_of (item : Snippet) : Text := default [] (text item).

(** The items a pass embeds, in the order supplied: those whose id is not
    in [seen] (the ids found so far), an id counting once. *)
Fixpoint to_embed (seen : gset string) (items : list Snippet)
  : list Snippet :=
  match items with
  | [] => []
  | item :: rest =>
      if decide (id_of item ∈ seen) then to_embed seen rest
      else item :: to_embed ({[id_of item]} ∪ seen) rest
  end.

(** *** Saving a selection

    The service worker with everything it reaches: the local store and
    the embedder, the synced snippets, the ids drawn so far and the
    messages sent to tabs.  A handler is run to its end, no other handler
    running between its steps. *)

Record Tab : Type := mkTab {
  tab_url : option string;      (* tab.url, when it is a string *)
  tab_id : option nat           (* tab.id, when it is a number *)
}.

Record Browser : Type := mkBrowser {
  local : World;
  sync_snippets : StoredSnippets;     (* chrome.storage.sync.snippets *)
  ids_drawn : nat;                    (* calls of crypto.randomUUID *)
  animations : list (nat * Text);     (* animateSnippet messages: tab, text *)
  context_menus : list string         (* ids of the menu entries created *)
}.

Section WithBrowser.

Variable embedder : nat -> Text -> result (list float).
Variable get_error : option string.
Variable set_error : Index -> option string.

(** [chrome.runtime.lastError] after reading and after writing the synced
    snippets, if any. *)
Variable sync_get_error : option string.
Variable sync_set_error : list Snippet -> option string.

(** [crypto.randomUUID], when there is one: the id its [k]-th call
    returns. *)
Variable randomUUID : option (nat -> string).

(** A computation on the local store, within the browser. *)
Definition on_local {A} (c : M World A) : M Browser A :=
  fun b =>
    let '(r, w) := c (local b) in
    (r, mkBrowser w (sync_snippets b) (ids_drawn b) (animations b)
          (context_menus b)).

Definition generateSnippetId : M Browser string :=
  fun b =>
    match randomUUID with
    | None =>
        (Err "crypto.randomUUID is required to generate snippet IDs.", b)
    | Some uuid =>
        (Ok (uuid (ids_drawn b)),
         mkBrowser (local b) (sync_snippets b) (S (ids_drawn b))
           (animations b) (context_menus b))
    end.

(** [setStorage('sync', { snippets })] *)
Definition setSyncSnippets (snippets : list Snippet) : M Browser unit :=
  fun b =>
    match sync_set_error snippets with
    | Some e => (Err ("Storage write failed: " ++ e), b)
    | None =>
        (Ok tt,
         mkBrowser (local b) (SnippetsArray snippets) (ids_drawn b)
           (animations b) (context_menus b))
    end.

(** [saveSnippet({ id, text, url })]: the entry is pushed at the end. *)
Definition saveSnippet (i : string) (t : Text) : M Browser unit :=
  fun b =>
    match sync_get_error with
    | Some e => (Err ("Storage read failed: " ++ e), b)
    | None =>
        match sync_snippets b with
        | SnippetsArray snippets =>
            setSyncSnippets (snippets ++ [mkSnippet (Some i) (Some t)])%list b
        | _ => (Err "Snippets storage must be an array.", b)
        end
    end.

(** [sendAnimateMessage]: a failure is logged, never thrown. *)
Definition sendAnimateMessage (tabId : nat) (t : Text) : M Browser unit :=
  modify (fun b =>
    mkBrowser (local b) (sync_snippets b) (ids_drawn b)
      (animations b ++ [(tabId, t)])%list (context_menus b)).

(** [handleSaveSnippet(info, tab)]; [selectionText] is
    [info.selectionText] when it is a string. *)
Definition handleSaveSnippet (selectionText : option Text)
    (tab : option Tab) : M Browser unit :=
  match selectionText with
  | None => throw "Selected text is required to save a snippet."
  | Some selectedText =>
      if blank selectedText
      then throw "Selected text is required to save a snippet."
      else
        match tab ≫= tab_url with
        | None => throw "Tab URL is required to save a snippet."
        | Some _ =>
            match tab ≫= tab_id with
            | None => throw "Tab ID is required to save a snippet."
            | Some tabId =>
                i ← generateSnippetId;
                vector ← on_local (embedText embedder selectedText);
                saveSnippet i selectedText ;;
                on_local (saveEmbedding get_error set_error i vector) ;;
                sendAnimateMessage tabId selectedText
            end
        end
  end.

(** The [onInstalled] listener: the context menu entry, and an empty
    array of snippets where there is none. *)
Definition onInstalled : M Browser unit :=
  fun b =>
    let b1 := mkBrowser (local b) (sync_snippets b) (ids_drawn b)
                (animations b) (context_menus b ++ ["save-snippet"])%list in
    match sync_get_error with
    | Some e => (Err ("Failed to read snippets: " ++ e), b1)
    | None =>
        match sync_snippets b1 with
        | SnippetsUnset =>
            match sync_set_error [] with
            | Some e => (Err ("Failed to initialize snippets: " ++ e), b1)
            | None =>
                (Ok tt,
                 mkBrowser (local b1) (SnippetsArray []) (ids_drawn b1)
                   (animations b1) (context_menus b1))
            end
        | SnippetsArray _ => (Ok tt, b1)
        | SnippetsOther => (Err "Snippets storage must be an array.", b1)
        end
    end.

End WithBrowser.

End Background.

(** ** The offscreen document *)

Module Offscreen.

(** The promise held in [embedderPromise]: the asynchronous body of
    [getEmbedder] waiting for [ensureModelAssets], waiting for
    [pipeline(...)], or settled. *)
Inductive Promise : Type :=
| AwaitingAssets
| AwaitingPipeline
| Fulfilled
| Rejected (msg : string).

(** What [embedder(text, EMBEDDING_OPTIONS)] resolves to, as far as
    [toVector] tells outputs apart. *)
Inductive Output : Type :=
| TensorData (data : list float)   (* output.data is a Float32Array *)
| ArrayData (data : list float)    (* output.data is another list of numbers *)
| TypedArray (v : list float)      (* output is a Float32Array *)
| PlainArray (v : list float)      (* output is an array of numbers *)
| NoVector.                        (* anything else *)

Definition toVector (output : Output) : result (list float) :=
  match output with
  | TensorData data => Ok data
  | ArrayData data => Ok (Float32Array_from data)
  | TypedArray v => Ok v
  | PlainArray v => Ok (Float32Array_from v)
  | NoVector => Err "Embedding output is missing vector data."
  end.

Record State : Type := mkState {
  embedderPromise : option Promise;   (* null until the first call *)
  attempts : nat;                     (* initialisations started *)
  waiting : list Text;                (* requests at [await getEmbedder()] *)
  inferring : list Text;              (* requests at [await embedder(...)] *)
  answered : list (Text * result (list float))
                                      (* per request, what [sendResponse]
                                         was given: the vector or the error *)
}.

Definition initial : State :=
  {| embedderPromise := None; attempts := 0; waiting := []; inferring := [];
     answered := [] |}.

Inductive Event : Type :=
| Request (t : Text)                   (* an embedText message arrives *)
| AssetsChecked (missing : option string)
                                       (* ensureModelAssets settles; the
                                          asset whose HEAD request failed *)
| PipelineSettled (r : result unit)    (* pipeline(...) settles *)
| Inferred (k : nat) (r : result Output).
                                       (* the call of the embedder for the
                                          k-th request at that await ends *)

Section WithRuntime.

(** Which of the three guards at the top of the initialisation throws, if
    any (env, pipeline or the ONNX backend missing). *)
Variable runtime_error : option string.

(** [getEmbedder]: the memoized promise, created on the first call. *)
Definition getEmbedder (s : State) : Promise * State :=
  match embedderPromise s with
  | Some p => (p, s)
  | None =>
      let p := match runtime_error with
               | Some e => Rejected e
               | None => AwaitingAssets
               end in
      (p, {| embedderPromise := Some p;
             attempts := S (attempts s);
             waiting := waiting s;
             inferring := inferring s;
             answered := answered s |})
  end.

Definition respond (t : Text) (r : result (list float)) (s : State)
  : State :=
  {| embedderPromise := embedderPromise s; attempts := attempts s;
     waiting := waiting s; inferring := inferring s;
     answered := answered s ++ [(t, r)] |}.

(** [handleEmbedText], from the message to its first [await] that has to
    wait: the validation, [getEmbedder()], and the call of the embedder
    when the promise is fulfilled already. *)
Definition handleEmbedText (t : Text) (s : State) : State :=
  if blank t then respond t (Err "Embedding requires non-empty text.") s
  else
    let '(p, s1) := getEmbedder s in
    match p with
    | Fulfilled =>
        {| embedderPromise := embedderPromise s1; attempts := attempts s1;
           waiting := waiting s1; inferring := inferring s1 ++ [t];
           answered := answered s1 |}
    | Rejected e => respond t (Err e) s1
    | _ =>
        {| embedderPromise := embedderPromise s1; attempts := attempts s1;
           waiting := waiting s1 ++ [t]; inferring := inferring s1;
           answered := answered s1 |}
    end.

(** The promise settles with [r]: every request awaiting it resumes, to
    call the embedder or to answer with the rejection. *)
Definition settle (r : result unit) (s : State) : State :=
  match r with
  | Ok _ =>
      {| embedderPromise := Some Fulfilled; attempts := attempts s;
         waiting := []; inferring := inferring s ++ waiting s;
         answered := answered s |}
  | Err e =>
      {| embedderPromise := Some (Rejected e); attempts := attempts s;
         waiting := []; inferring := inferring s;
         answered := answered s ++ map (fun t => (t, Err e)) (waiting s) |}
  end.

(** The end of [handleEmbedText], once the embedder's call has ended with
    [r]: [toVector] and [sendResponse], or the [catch] block. *)
Definition answer (r : result Output) : result (list float) :=
  match r with
  | Ok output => toVector output
  | Err e => Err e
  end.

Definition step (s : State) (ev : Event) : State :=
  match ev with
  | Request t => handleEmbedText t s
  | AssetsChecked missing =>
      match embedderPromise s with
      | Some AwaitingAssets =>
          match missing with
          | Some file => settle (Err ("Missing local model asset: " ++ file)) s
          | None =>
              {| embedderPromise := Some AwaitingPipeline;
                 attempts := attempts s; waiting := waiting s;
                 inferring := inferring s; answered := answered s |}
          end
      | _ => s
      end
  | PipelineSettled r =>
      match embedderPromise s with
      | Some AwaitingPipeline => settle r s
      | _ => s
      end
  | Inferred k r =>
      match inferring s !! k with
      | Some t =>
          {| embedderPromise := embedderPromise s; attempts := attempts s;
             waiting := waiting s; inferring := delete k (inferring s);
             answered := answered s ++ [(t, answer r)] |}
      | None => s
      end
  end.

Definition run (evs : list Event) (s : State) : State := foldl step s evs.

End WithRuntime.

Definition failed (s : State) : Prop :=
  exists e, embedderPromise s = Some (Rejected e).

End Offscreen.

(** ** The popup *)

Module Popup.

Inductive Area : Type := area_local | area_sync.

Global Instance Area_eq_dec : EqDecision Area.
Proof. solve_decision. Defined.

(** [Object.keys(snippetsByArea)], in insertion order. *)
Definition areas : list Area := [area_local; area_sync].

(** [STORAGE_LABELS[area]], and the same in lower case. *)
Definition getAreaLabel (a : Area) : string :=
  match a with area_local => "Local" | area_sync => "Synced" end.
Definition lowerAreaLabel (a : Area) : string :=
  match a with area_local => "local" | area_sync => "synced" end.

(** An entry of the array [rankSnippets] builds. *)
Record Scored : Type := mkScored {
  snippet : Snippet;
  area : Area;
  score : float
}.

(** An item handed to [displaySnippets]; [row_score] is undefined for the
    unranked list. *)
Record Row : Type := mkRow {
  row_snippet : Snippet;
  row_area : Area;
  row_score : option float
}.

(** The content of the [snippets-list] element. *)
Inductive Listing : Type :=
| EmptyState (message : string)
| Rows (items : list Row).

(** A request sent to the background with [chrome.runtime.sendMessage]. *)
Inductive Message : Type :=
| EmbedQuery (t : Text)
| EnsureEmbeddings (items : list Snippet).

(** What the callback of [sendMessage] receives. *)
Inductive Reply : Type :=
| LastError (msg : string)            (* chrome.runtime.lastError is set *)
| NoResponse                          (* undefined *)
| OkVector (vector : list float)      (* { ok: true, vector } *)
| OkUpdated (updated : nat)           (* { ok: true, updated } *)
| Failure (error : option string).    (* { ok: false, error } *)

Record State : Type := mkState {
  (* module-level variables *)
  snippets_local : list Snippet;       (* snippetsByArea.local *)
  snippets_sync : list Snippet;        (* snippetsByArea.sync *)
  activeArea : Area;
  embeddingsIndex : Index;
  searchToken : nat;
  (* the document *)
  search_input : Text;                 (* search-input.value *)
  status : string * string;            (* search-status: text, data-state *)
  title : string;                      (* snippets-title *)
  listing : Listing;                   (* snippets-list *)
  (* calls into chrome.* *)
  sent : list Message;
  saved_snippets : list (Area * list Snippet);
  saved_indexes : list Index
}.

Definition snippetsByArea (s : State) (a : Area) : list Snippet :=
  match a with
  | area_local => snippets_local s
  | area_sync => snippets_sync s
  end.

Definition set_snippets (a : Area) (l : list Snippet) (s : State) : State :=
  mkState (if a is area_local then l else snippets_local s)
    (if a is area_sync then l else snippets_sync s)
    (activeArea s) (embeddingsIndex s) (searchToken s) (search_input s)
    (status s) (title s) (listing s) (sent s) (saved_snippets s)
    (saved_indexes s).
Definition set_index (m : Index) (s : State) : State :=
  mkState (snippets_local s) (snippets_sync s) (activeArea s) m
    (searchToken s) (search_input s) (status s) (title s) (listing s)
    (sent s) (saved_snippets s) (saved_indexes s).
Definition set_token (n : nat) (s : State) : State :=
  mkState (snippets_local s) (snippets_sync s) (activeArea s)
    (embeddingsIndex s) n (search_input s) (status s) (title s) (listing s)
    (sent s) (saved_snippets s) (saved_indexes s).
Definition set_input (v : Text) (s : State) : State :=
  mkState (snippets_local s) (snippets_sync s) (activeArea s)
    (embeddingsIndex s) (searchToken s) v (status s) (title s) (listing s)
    (sent s) (saved_snippets s) (saved_indexes s).
Definition setStatus (message state : string) (s : State) : State :=
  mkState (snippets_local s) (snippets_sync s) (activeArea s)
    (embeddingsIndex s) (searchToken s) (search_input s) (message, state)
    (title s) (listing s) (sent s) (saved_snippets s) (saved_indexes s).
Definition set_title (t : string) (s : State) : State :=
  mkState (snippets_local s) (snippets_sync s) (activeArea s)
    (embeddingsIndex s) (searchToken s) (search_input s) (status s) t
    (listing s) (sent s) (saved_snippets s) (saved_indexes s).
Definition set_listing (l : Listing) (s : State) : State :=
  mkState (snippets_local s) (snippets_sync s) (activeArea s)
    (embeddingsIndex s) (searchToken s) (search_input s) (status s)
    (title s) l (sent s) (saved_snippets s) (saved_indexes s).
Definition sendRuntimeMessage (m : Message) (s : State) : State :=
  mkState (snippets_local s) (snippets_sync s) (activeArea s)
    (embeddingsIndex s) (searchToken s) (search_input s) (status s)
    (title s) (listing s) (sent s ++ [m]) (saved_snippets s)
    (saved_indexes s).
Definition log_saved_snippets (a : Area) (l : list Snippet) (s : State)
  : State :=
  mkState (snippets_local s) (snippets_sync s) (activeArea s)
    (embeddingsIndex s) (searchToken s) (search_input s) (status s)
    (title s) (listing s) (sent s) (saved_snippets s ++ [(a, l)])
    (saved_indexes s).
Definition log_saved_index (m : Index) (s : State) : State :=
  mkState (snippets_local s) (snippets_sync s) (activeArea s)
    (embeddingsIndex s) (searchToken s) (search_input s) (status s)
    (title s) (listing s) (sent s) (saved_snippets s)
    (saved_indexes s ++ [m]).

(** [!snippet.id] is false: the id, a string when there is one (see
    [Snippet]), is not empty. *)
Definition truthy_id (x : Snippet) : option string :=
  match id x with
  | Some EmptyString | None => None
  | Some i => Some i
  end.

Definition getActiveSnippets (s : State) : list Snippet :=
  snippetsByArea s (activeArea s).

(** [getAllSnippetItems]: every snippet with its area, area by area. *)
Definition getAllSnippetItems (s : State) : list (Snippet * Area) :=
  a ← areas; (fun x => (x, a)) <$> snippetsByArea s a.

Definition unranked (a : Area) (l : list Snippet) : list Row :=
  (fun x => mkRow x a None) <$> l.

Definition renderEmptyState (message : string) (s : State) : State :=
  set_listing (EmptyState message) s.

Definition displaySnippets (items : list Row) (s : State) : State :=
  match items with
  | [] =>
      renderEmptyState
        ("No " ++ lowerAreaLabel (activeArea s) ++
         " snippets yet. Save a selection to start building your vault.") s
  | _ => set_listing (Rows items) s
  end.

(** [list.findIndex((snippet) => snippet && snippet.id === id)] *)
Fixpoint findIndex (i : string) (l : list Snippet) : option nat :=
  match l with
  | [] => None
  | x :: l' =>
      if decide (id x = Some i) then Some 0 else S <$> findIndex i l'
  end.

Definition getSnippetIndex (s : State) (a : Area) (i : string)
  : result nat :=
  if decide (i = "") then Err "Snippet ID is required."
  else match findIndex i (snippetsByArea s a) with
       | None => Err "Snippet not found."
       | Some n => Ok n
       end.

(** The first loop of [pruneEmbeddingsIndex] over one area's list. *)
Fixpoint collect_ids (l : list Snippet) (ids : gset string)
  : result (gset string) :=
  match l with
  | [] => Ok ids
  | x :: l' =>
      match truthy_id x with
      | None => Err "Snippet entry is invalid."
      | Some i => collect_ids l' ({[i]} ∪ ids)
      end
  end.

(** Its second loop, over [Object.keys(embeddingsIndex)]. *)
Fixpoint prune_keys (ids : gset string) (keys : list string)
    (index : Index) (changed : bool) : Index * bool :=
  match keys with
  | [] => (index, changed)
  | k :: keys' =>
      if decide (k ∈ ids) then prune_keys ids keys' index changed
      else prune_keys ids keys' (delete k index) true
  end.

Definition pruneEmbeddingsIndex : M State bool :=
  fun s =>
    match collect_ids (snippets_local s) ∅ with
    | Err e => (Err e, s)
    | Ok ids1 =>
        match collect_ids (snippets_sync s) ids1 with
        | Err e => (Err e, s)
        | Ok ids =>
            let r := prune_keys ids (map_to_list (embeddingsIndex s)).*1
                       (embeddingsIndex s) false in
            (Ok r.2, set_index r.1 s)
        end
    end.

Section WithChrome.

(** [chrome.runtime.lastError] after [chrome.storage[area].set] of the
    snippets, and after writing the index to [chrome.storage.local]. *)
Variable snippets_set_error : Area -> list Snippet -> option string.
Variable index_set_error : Index -> option string.
(** The error [updateStorageInfo] ends with, if any (no quota, a failed
    [getBytesInUse], an invalid number). *)
Variable storage_info_error : Area -> option string.

Definition saveSnippetsForArea (a : Area) (l : list Snippet)
  : M State unit :=
  fun s =>
    match snippets_set_error a l with
    | Some e => (Err ("Storage write failed: " ++ e), s)
    | None => (Ok tt, log_saved_snippets a l s)
    end.

Definition saveEmbeddingsIndex : M State unit :=
  fun s =>
    match index_set_error (embeddingsIndex s) with
    | Some e => (Err ("Storage write failed: " ++ e), s)
    | None => (Ok tt, log_saved_index (embeddingsIndex s) s)
    end.

Definition updateStorageInfo (a : Area) : M State unit :=
  match storage_info_error a with
  | Some e => throw e
  | None => mret tt
  end.

(** [updateAreaChrome] rewrites the title; the tab counts and tab state
    it and its neighbours set are not part of this model. *)
Definition updateAreaChrome (s : State) : State :=
  set_title (getAreaLabel (activeArea s) ++ " snippets") s.

Definition updateDisplay : M State unit :=
  modify updateAreaChrome ;;
  s ← get;
  updateStorageInfo (activeArea s) ;;
  modify (fun s =>
    setStatus "" "idle"
      (set_input []
         (displaySnippets
            (unranked (activeArea s) (getActiveSnippets s)) s))).

Definition moveSnippet (a : Area) (i : string) (targetArea : Area)
  : M State unit :=
  if decide (targetArea = a) then
    throw "Target storage area must be different."
  else
    s ← get;
    let sourceSnippets := snippetsByArea s a in
    index ← lift (getSnippetIndex s a i);
    match sourceSnippets !! index with
    | None => throw "Snippet not found."   (* not reached: index is in range *)
    | Some x =>
        let destinationSnippets := snippetsByArea s targetArea in
        if bool_decide (Exists (fun y => id y = id x) destinationSnippets)
        then throw "Snippet already exists in target storage."
        else
          let sourceSnippets' := delete index sourceSnippets in
          let destinationSnippets' := (destinationSnippets ++ [x])%list in
          modify (set_snippets a sourceSnippets') ;;
          modify (set_snippets targetArea destinationSnippets') ;;
          saveSnippetsForArea a sourceSnippets' ;;
          saveSnippetsForArea targetArea destinationSnippets' ;;
          updateDisplay
    end.

Definition deleteSnippet (a : Area) (i : string) : M State unit :=
  s ← get;
  index ← lift (getSnippetIndex s a i);
  let list' := delete index (snippetsByArea s a) in
  modify (set_snippets a list') ;;
  saveSnippetsForArea a list' ;;
  pruned ← pruneEmbeddingsIndex;
  (if pruned : bool then saveEmbeddingsIndex else mret tt) ;;
  updateDisplay.

End WithChrome.

(** *** Ranking *)

Definition msg_missing (i : string) : string :=
  "Missing embedding for snippet " ++ i ++ ".".

(** What [toVector] throws when handed something that is neither an array
    nor an object with [data]. *)
Definition msg_vector_data : string :=
  "Embedding output is missing vector data.".

Definition getSnippetVector (index : Index) (x : Snippet)
  : result (list float) :=
  match text x with
  | None => Err "Snippet text is required for embeddings."
  | Some t =>
      if blank t then Err "Snippet text is required for embeddings."
      else
        match truthy_id x with
        | None => Err "Snippet ID is required for embeddings."
        | Some i =>
            match property index i with
            | Undefined => Err (msg_missing i)
            | Entry cached => Ok (Float32Array_from cached)  (* toVector *)
            | Inherited => Err msg_vector_data     (* toVector throws *)
            end
        end
  end.

(** The [for (const item of allSnippets)] loop of [rankSnippets]. *)
Fixpoint score_loop (queryVector : list float) (index : Index)
    (items : list (Snippet * Area)) : result (list Scored) :=
  match items with
  | [] => Ok []
  | (x, a) :: rest =>
      match getSnippetVector index x with
      | Err e => Err e
      | Ok vector =>
          match VectorMath.getCosineSimilarity queryVector vector with
          | Err e => Err e
          | Ok sc =>
              match score_loop queryVector index rest with
              | Err e => Err e
              | Ok scored => Ok (mkScored x a sc :: scored)
              end
          end
      end
  end.

(** [Array.prototype.sort(comparefn)]: a stable sort; [y] goes before [x]
    when [comparefn(x, y) > 0], and a [NaN] result counts as [+0]. *)
Fixpoint sort_insert {A} (comparefn : A -> A -> float) (x : A)
    (sorted : list A) : list A :=
  match sorted with
  | [] => [x]
  | y :: sorted' =>
      if (0 <? comparefn x y)%float
      then y :: sort_insert comparefn x sorted'
      else x :: sorted
  end.

Definition Array_sort {A} (comparefn : A -> A -> float) (l : list A)
  : list A :=
  foldr (sort_insert comparefn) [] l.

(** [(a, b) => b.score - a.score] *)
Definition by_score_desc (a b : Scored) : float := (score b - score a)%float.

(** [response && response.error ? response.error : fallback] *)
Definition error_or (error : option string) (fallback : string) : string :=
  match error with
  | None | Some EmptyString => fallback
  | Some e => e
  end.

(** [embedQuery] once the callback of [sendMessage] has run. *)
Definition query_vector_of_reply (r : Reply) : result (list float) :=
  match r with
  | LastError m => Err ("Runtime message failed: " ++ m)
  | OkVector v => Ok (Float32Array_from v)
  | Failure error => Err (error_or error "Query embedding failed.")
  | NoResponse | OkUpdated _ => Err "Query embedding failed."
  end.

(** [rankSnippets] once [embedQuery] has settled: [allSnippets] was
    collected before the [await], the index is read after it. *)
Definition rank_with (r : result (list float)) (index : Index)
    (allSnippets : list (Snippet * Area)) : result (list Scored) :=
  match r with
  | Err e => Err e
  | Ok queryVector =>
      match score_loop queryVector index allSnippets with
      | Err e => Err e
      | Ok scored => Ok (Array_sort by_score_desc scored)
      end
  end.

Section WithBackground.

(** The background's answer to an [embedQuery] message. *)
Variable query_reply : Text -> Reply.

Definition embedQuery (t : Text) : M State (list float) :=
  if blank t then throw "Query text is required."
  else fun s =>
    (query_vector_of_reply (query_reply t),
     sendRuntimeMessage (EmbedQuery t) s).

Definition rankSnippets (query : Text) : M State (list Scored) :=
  fun s =>
    match getAllSnippetItems s with
    | [] => (Ok [], s)
    | allSnippets =>
        let '(r, s1) := embedQuery query s in
        (rank_with r (embeddingsIndex s1) allSnippets, s1)
    end.

End WithBackground.

(** *** Filling the cache from the popup *)

Definition msg_id_required : string :=
  "Snippet ID is required for embeddings.".
Definition msg_text_required : string :=
  "Snippet text is required for embeddings.".

(** The loop of [ensureMissingEmbeddings] that collects [missing]. *)
Fixpoint collect_missing (index : Index) (snippets : list Snippet)
  : result (list Snippet) :=
  match snippets with
  | [] => Ok []
  | x :: rest =>
      match truthy_id x with
      | None => Err msg_id_required
      | Some i =>
          match text x with
          | None => Err msg_text_required
          | Some t =>
              if blank t then Err msg_text_required
              else
                match collect_missing index rest with
                | Err e => Err e
                | Ok missing =>
                    Ok (if truthy (property index i) then missing
                        else mkSnippet (Some i) (Some t) :: missing)
                end
          end
      end
  end.

(** [ensureMissingEmbeddings] either returns (or throws) before its first
    [await], or waits for the background's answer. *)
Inductive EnsureStart : Type :=
| EnsureReturned (r : result unit)
| EnsureAwaiting (missing : list Snippet).

Definition ensureMissing_start (a : Area) (s : State)
  : EnsureStart * State :=
  match snippetsByArea s a with
  | [] => (EnsureReturned (Ok tt), s)
  | snippets =>
      match collect_missing (embeddingsIndex s) snippets with
      | Err e => (EnsureReturned (Err e), s)
      | Ok [] => (EnsureReturned (Ok tt), s)
      | Ok missing =>
          (EnsureAwaiting missing,
           sendRuntimeMessage (EnsureEmbeddings missing)
             (setStatus "Preparing embeddings..." "loading" s))
      end
  end.

Definition check_ensure_reply (r : Reply) : result unit :=
  match r with
  | LastError m => Err ("Runtime message failed: " ++ m)
  | NoResponse => Err "Embedding preparation failed."
  | Failure error => Err (error_or error "Embedding preparation failed.")
  | OkVector _ | OkUpdated _ => Ok tt
  end.

(** What [getStorage('local', [EMBEDDINGS_KEY])] ends with. *)
Inductive Load : Type :=
| ReadError (msg : string)
| Read (st : Stored).

Definition index_of_load (ld : Load) : result Index :=
  match ld with
  | ReadError m => Err ("Storage read failed: " ++ m)
  | Read st => index_of_stored st
  end.

(** [embeddingsIndex[item.id]] is truthy. *)
Definition has_entry (index : Index) (item : Snippet) : bool :=
  match id item with
  | Some i => truthy (property index i)
  | None => false
  end.

(** The end of [ensureMissingEmbeddings], from
    [embeddingsIndex = await loadEmbeddingsIndex()]. *)
Definition ensureMissing_loaded (missing : list Snippet) (ld : Load)
    (s : State) : result unit * State :=
  match index_of_load ld with
  | Err e => (Err e, s)
  | Ok index =>
      let s1 := set_index index s in
      match filter (fun item => has_entry index item = false) missing with
      | [] => (Ok tt, setStatus "" "idle" s1)
      | stillMissing =>
          (Err ("Missing embeddings for " ++ pretty (length stillMissing)
                ++ " snippet(s)."), s1)
      end
  end.

(** *** The search controller *)

(** How a call of [filterSnippets] with a query ends: an early [return]
    because a newer request took the token, the ranking it displayed, or
    the error it reported and rethrew. *)
Inductive Outcome : Type :=
| Superseded
| Done (ranked : list Scored)
| Failed (msg : string).

(** Where a call is suspended. *)
Inductive Pc : Type :=
| InEnsureReply (a : Area) (missing : list Snippet)
    (* ensureMissingEmbeddings: await sendRuntimeMessage(...) *)
| InEnsureLoad (a : Area) (missing : list Snippet)
    (* ensureMissingEmbeddings: await loadEmbeddingsIndex() *)
| AfterEnsure (a : Area) (r : result unit)
    (* filterSnippets: await ensureMissingEmbeddings(a), settled with r *)
| InEmbedQuery (allSnippets : list (Snippet * Area))
    (* embedQuery: await sendRuntimeMessage(...) *)
| AfterEmbedQuery (allSnippets : list (Snippet * Area))
    (r : result (list float))
    (* rankSnippets: await embedQuery(query), settled with r *)
| AfterRank (r : result (list Scored))
    (* filterSnippets: await rankSnippets(query), settled with r *)
| Settled (o : Outcome).

Record Task : Type := mkTask {
  requestId : nat;
  query : Text;
  pc : Pc
}.

(** What resumes a suspended call. *)
Inductive Event : Type :=
| Replied (r : Reply)     (* the callback of sendMessage runs *)
| Loaded (ld : Load)      (* the callback of storage.get runs *)
| Tick.                   (* the awaited promise had settled *)

Definition at_pc (t : Task) (p : Pc) : Task :=
  mkTask (requestId t) (query t) p.

Definition start_ensure (a : Area) (t : Task) (s : State) : Task * State :=
  match ensureMissing_start a s with
  | (EnsureReturned r, s') => (at_pc t (AfterEnsure a r), s')
  | (EnsureAwaiting missing, s') => (at_pc t (InEnsureReply a missing), s')
  end.

(** The [catch] block of [filterSnippets]. *)
Definition on_error (t : Task) (e : string) (s : State) : Task * State :=
  if decide (requestId t ≠ searchToken s) then (at_pc t (Settled Superseded), s)
  else (at_pc t (Settled (Failed e)), setStatus e "error" s).

(** [rankSnippets] up to its first [await]. *)
Definition start_rank (t : Task) (s : State) : Task * State :=
  match getAllSnippetItems s with
  | [] => (at_pc t (AfterRank (Ok [])), s)
  | allSnippets =>
      if blank (query t)
      then (at_pc t (AfterEmbedQuery allSnippets
                       (Err "Query text is required.")), s)
      else (at_pc t (InEmbedQuery allSnippets),
            sendRuntimeMessage (EmbedQuery (query t)) s)
  end.

Definition ranked_rows (ranked : list Scored) : list Row :=
  (fun x => mkRow (snippet x) (area x) (Some (score x))) <$> ranked.

(** The end of the [try] block, after [await rankSnippets(query)]. *)
Definition show_ranked (t : Task) (ranked : list Scored) (s : State)
  : Task * State :=
  if decide (requestId t ≠ searchToken s) then (at_pc t (Settled Superseded), s)
  else
    let s1 := set_title "Search results" (setStatus "" "idle" s) in
    (at_pc t (Settled (Done ranked)),
     match ranked with
     | [] => renderEmptyState "No matches in local or synced snippets." s1
     | _ => displaySnippets (ranked_rows ranked) s1
     end).

Definition resume (t : Task) (ev : Event) (s : State)
  : option (Task * State) :=
  match pc t, ev with
  | InEnsureReply a missing, Replied r =>
      match check_ensure_reply r with
      | Err e => Some (at_pc t (AfterEnsure a (Err e)), s)
      | Ok _ => Some (at_pc t (InEnsureLoad a missing), s)
      end
  | InEnsureLoad a missing, Loaded ld =>
      let '(r, s') := ensureMissing_loaded missing ld s in
      Some (at_pc t (AfterEnsure a r), s')
  | AfterEnsure _ (Err e), Tick => Some (on_error t e s)
  | AfterEnsure area_local (Ok _), Tick => Some (start_ensure area_sync t s)
  | AfterEnsure area_sync (Ok _), Tick =>
      if decide (requestId t ≠ searchToken s)
      then Some (at_pc t (Settled Superseded), s)
      else Some (start_rank t (setStatus "Searching..." "loading" s))
  | InEmbedQuery allSnippets, Replied r =>
      Some (at_pc t (AfterEmbedQuery allSnippets (query_vector_of_reply r)),
            s)
  | AfterEmbedQuery allSnippets r, Tick =>
      Some (at_pc t (AfterRank (rank_with r (embeddingsIndex s) allSnippets)),
            s)
  | AfterRank (Ok ranked), Tick => Some (show_ranked t ranked s)
  | AfterRank (Err e), Tick => Some (on_error t e s)
  | _, _ => None
  end.

(** [filterSnippets], from the [input] event to its first [await]. *)
Definition filterSnippets (s : State) : option Task * State :=
  let query := trim (search_input s) in
  if Nat.eqb (length query) 0 then
    (None,
     displaySnippets (unranked (activeArea s) (getActiveSnippets s))
       (set_title (getAreaLabel (activeArea s) ++ " snippets")
          (setStatus "" "idle" s)))
  else
    let requestId := S (searchToken s) in
    let '(t, s') :=
      start_ensure area_local (mkTask requestId query (AfterEnsure area_local (Ok tt)))
        (setStatus "Preparing embeddings..." "loading"
           (set_token requestId s)) in
    (Some t, s').

(** The popup with its calls in flight. *)
Inductive Action : Type :=
| Input (value : Text)              (* the user edits the search box *)
| Resume (k : nat) (ev : Event).    (* the k-th call issued resumes *)

Definition act (sys : State * list Task) (a : Action)
  : option (State * list Task) :=
  let '(s, pool) := sys in
  match a with
  | Input value =>
      match filterSnippets (set_input value s) with
      | (Some t, s') => Some (s', (pool ++ [t])%list)   (* a call in flight *)
      | (None, s') => Some (s', pool)
      end
  | Resume k ev =>
      t ← pool !! k;
      '(t', s') ← resume t ev s;
      Some (s', <[k := t']> pool)
  end.

Fixpoint run (actions : list Action) (sys : State * list Task)
  : option (State * list Task) :=
  match actions with
  | [] => Some sys
  | a :: rest => sys' ← act sys a; run rest sys'
  end.

Definition is_resume (a : Action) : bool :=
  match a with Resume _ _ => true | Input _ => false end.

Definition settled (t : Task) : bool :=
  match pc t with Settled _ => true | _ => false end.

(** *** Loading, switching areas, clearing and copying *)

(** [area] as the code spells it. *)
Definition area_key (a : Area) : string :=
  match a with area_local => "local" | area_sync => "sync" end.

Definition set_active (a : Area) (s : State) : State :=
  mkState (snippets_local s) (snippets_sync s) a (embeddingsIndex s)
    (searchToken s) (search_input s) (status s) (title s) (listing s)
    (sent s) (saved_snippets s) (saved_indexes s).

(** What [sendResponse] of the background hands to the callback of
    [sendMessage]. *)
Definition reply_of (r : Background.Response) : Reply :=
  match r with
  | Background.RespondVector vector => OkVector vector
  | Background.RespondUpdated updated => OkUpdated updated
  | Background.RespondError error => Failure (Some error)
  end.

(** What [getStorage(area, ['snippets'])] ends with. *)
Inductive SnippetsLoad : Type :=
| SnippetsReadError (msg : string)
| SnippetsRead (st : StoredSnippets).

Definition loadSnippetsForArea (a : Area) (ld : SnippetsLoad)
  : result (list Snippet) :=
  match ld with
  | SnippetsReadError m => Err ("Storage read failed: " ++ m)
  | SnippetsRead SnippetsUnset =>
      Err ("Snippets storage is missing for " ++ area_key a ++ ".")
  | SnippetsRead (SnippetsArray l) => Ok l
  | SnippetsRead SnippetsOther => Err "Snippets storage must be an array."
  end.

(** The [map] of [ensureSnippetIds], with [randomUUID] at hand: the new
    array, the number of ids drawn so far, and [updated]. *)
Fixpoint assign_ids (uuid : nat -> string) (k : nat) (l : list Snippet)
  : list Snippet * nat * bool :=
  match l with
  | [] => ([], k, false)
  | x :: l' =>
      match truthy_id x with
      | Some _ =>
          let '(next, k', updated) := assign_ids uuid k l' in
          (x :: next, k', updated)
      | None =>
          let '(next, k', _) := assign_ids uuid (S k) l' in
          (mkSnippet (Some (uuid k)) (text x) :: next, k', true)
      end
  end.

(** [copySnippet]: the text put on the clipboard. *)
Definition copySnippet (s : State) (a : Area) (i : string) : result Text :=
  match getSnippetIndex s a i with
  | Err e => Err e
  | Ok index =>
      match snippetsByArea s a !! index ≫= text with
      | Some t => Ok t
      | None => Err "Snippet text is missing."
      end
  end.

(** The area a row's move button moves its snippet to. *)
Definition targetArea (a : Area) : Area :=
  match a with area_local => area_sync | area_sync => area_local end.

Section WithBrowser.

Variable snippets_set_error : Area -> list Snippet -> option string.
Variable index_set_error : Index -> option string.
Variable storage_info_error : Area -> option string.

(** [crypto.randomUUID], when there is one: the id its [k]-th call
    returns. *)
Variable randomUUID : option (nat -> string).

(** The background's answer to an [ensureEmbeddings] message, and what
    reading the index from the store gives after it. *)
Variable ensure_reply : list Snippet -> Reply.
Variable index_load : Load.

(** [ensureSnippetIds(area)], [k] ids having been drawn before; it
    returns the number drawn after. *)
Definition ensureSnippetIds (k : nat) (a : Area) : M State nat :=
  fun s =>
    let current := snippetsByArea s a in
    match randomUUID with
    | None =>
        if bool_decide (Forall (fun x => is_Some (truthy_id x)) current)
        then (Ok k, set_snippets a current s)
        else (Err "crypto.randomUUID is required to generate snippet IDs.",
              s)
    | Some uuid =>
        let '(next, k', updated) := assign_ids uuid k current in
        let s1 := set_snippets a next s in
        if updated : bool
        then (saveSnippetsForArea snippets_set_error a next ;; mret k') s1
        else (Ok k', s1)
    end.

(** [ensureMissingEmbeddings(area)] run to its end. *)
Definition ensureMissingEmbeddings (a : Area) : M State unit :=
  fun s =>
    match ensureMissing_start a s with
    | (EnsureReturned r, s') => (r, s')
    | (EnsureAwaiting missing, s') =>
        match check_ensure_reply (ensure_reply missing) with
        | Err e => (Err e, s')
        | Ok _ => ensureMissing_loaded missing index_load s'
        end
    end.

(** [setActiveArea(area)] run to its end.  It takes the search token. *)
Definition setActiveArea (a : Area) : M State unit :=
  fun s =>
    let s1 := updateAreaChrome
                (set_token (S (searchToken s)) (set_active a s)) in
    match ensureMissingEmbeddings a s1 with
    | (Err e, s2) => (Err e, setStatus e "error" s2)
    | (Ok _, s2) => updateDisplay storage_info_error s2
    end.

(** [clearAllSnippets]; [confirmed] is the answer to [confirm(...)]. *)
Definition clearAllSnippets (confirmed : bool) : M State unit :=
  if confirmed then
    s ← get;
    modify (set_snippets (activeArea s) []) ;;
    saveSnippetsForArea snippets_set_error (activeArea s) [] ;;
    pruned ← pruneEmbeddingsIndex;
    (if pruned : bool then saveEmbeddingsIndex index_set_error
     else mret tt) ;;
    updateDisplay storage_info_error
  else mret tt.

(** What the two reads of the snippets and the first read of the index
    give when the popup opens. *)
Variable snippets_load : Area -> SnippetsLoad.
Variable initial_index_load : Load.

(** [loadAndDisplaySnippets] run to its end. *)
Definition loadAndDisplaySnippets : M State unit :=
  l ← lift (loadSnippetsForArea area_local (snippets_load area_local));
  modify (set_snippets area_local l) ;;
  l' ← lift (loadSnippetsForArea area_sync (snippets_load area_sync));
  modify (set_snippets area_sync l') ;;
  k ← ensureSnippetIds 0 area_local;
  ensureSnippetIds k area_sync ;;
  index ← lift (index_of_load initial_index_load);
  modify (set_index index) ;;
  pruned ← pruneEmbeddingsIndex;
  (if pruned : bool then saveEmbeddingsIndex index_set_error
   else mret tt) ;;
  s ← get;
  setActiveArea (activeArea s).

End WithBrowser.

End Popup.

(** ** The content script *)

Module Content.

(** What [window.getSelection()] gives, when it gives something. *)
Record Selection : Type := mkSelection {
  rangeCount : nat;
  selected : Text;            (* selection.toString() *)
  rect_left : float;          (* getRangeAt(0).getBoundingClientRect() *)
  rect_top : float
}.

Record Position : Type := mkPosition {
  pos_x : float;
  pos_y : float;
  pos_text : Text
}.

Definition getSelectionPosition (selection : option Selection)
  : option Position :=
  match selection with
  | None => None
  | Some sel =>
      if Nat.eqb (rangeCount sel) 0 then None
      else
        let selectedText := trim (selected sel) in
        if Nat.eqb (length selectedText) 0 then None
        else if negb (Number_isFinite (rect_left sel))
                || negb (Number_isFinite (rect_top sel))
        then None
        else Some (mkPosition (rect_left sel) (rect_top sel) selectedText)
  end.

(** [text.length > 20 ? text.substring(0, 20) + '...' : text] *)
Definition animationLabel (t : Text) : Text :=
  if Nat.ltb 20 (length t) then (take 20 t ++ utf16 "...")%list else t.

(** The flying label: an element with its text and where it starts. *)
Record Element : Type := mkElement {
  element_id : nat;
  label : Text;
  left : float;
  top : float
}.

Record Page : Type := mkPage {
  animationElement : option nat;          (* the element the variable holds *)
  lastSelectionPosition : option Position;
  body : list Element;       (* the animation elements in document.body *)
  head : list nat;           (* the style elements in document.head *)
  timers : list nat;         (* pending timeouts, by the style they remove *)
  created : nat              (* elements created so far *)
}.

Definition empty_page : Page := mkPage None None [] [] [] 0.

Inductive Event : Type :=
| ContextMenu (selection : option Selection)
| AnimateSnippet (t : Text) (selection : option Selection)
    (* the message, and the selection at that time *)
| Timeout (style : nat).

Section WithDocument.

(** Whether the document has a head and a body, and what stops
    [getAnimationTarget], if anything (no root element, an invalid
    viewport or window size). *)
Variable has_head has_body : bool.
Variable target_error : option string.

Definition remove_element (n : nat) (l : list Element) : list Element :=
  filter (fun e => element_id e <> n) l.

(** [createAnimationElement(text, startX, startY)] *)
Definition createAnimationElement (t : Text) (startX startY : float)
  : M Page unit :=
  if blank t then throw "Animation requires non-empty text."
  else if negb (Number_isFinite startX) || negb (Number_isFinite startY)
  then throw "Animation requires valid start coordinates."
  else if negb has_head
  then throw "Animation requires a document head for styles."
  else if negb has_body
  then throw "Animation requires a document body for the element."
  else fun p =>
    let body1 := match animationElement p with
                 | Some old => remove_element old (body p)
                 | None => body p
                 end in
    let n := created p in
    let element := mkElement n (animationLabel t) startX startY in
    match target_error with
    | Some e =>
        (Err e,
         mkPage (Some n) (lastSelectionPosition p) body1 (head p) (timers p)
           (S n))
    | None =>
        let style := S n in
        (Ok tt,
         mkPage (Some n) (lastSelectionPosition p) (body1 ++ [element])%list
           (head p ++ [style])%list (timers p ++ [style])%list (S style))
    end.

(** The callback of [setTimeout], for the animation that created
    [style]. *)
Definition onTimeout (style : nat) (p : Page) : Page :=
  mkPage None (lastSelectionPosition p)
    (match animationElement p with
     | Some n => remove_element n (body p)
     | None => body p
     end)
    (filter (fun k => k <> style) (head p))
    (filter (fun k => k <> style) (timers p))
    (created p).

Definition step (p : Page) (ev : Event) : result unit * Page :=
  match ev with
  | ContextMenu selection =>
      match getSelectionPosition selection with
      | Some position =>
          (Ok tt,
           mkPage (animationElement p) (Some position) (body p) (head p)
             (timers p) (created p))
      | None => (Ok tt, p)
      end
  | AnimateSnippet t selection =>
      match match lastSelectionPosition p with
            | Some position => Some position
            | None => getSelectionPosition selection
            end with
      | None => (Err "Animation requires a selection position.", p)
      | Some position =>
          match createAnimationElement t (pos_x position) (pos_y position) p
          with
          | (Ok _, p') =>
              (Ok tt,
               mkPage (animationElement p') None (body p') (head p')
                 (timers p') (created p'))
          | (Err e, p') => (Err e, p')
          end
      end
  | Timeout style =>
      if bool_decide (style ∈ timers p) then (Ok tt, onTimeout style p)
      else (Ok tt, p)
  end.

(** The page after the events, a listener that throws leaving the page
    as it is at that point. *)
Definition run (evs : list Event) (p : Page) : Page :=
  foldl (fun p ev => (step p ev).2) p evs.

End WithDocument.

End Content.

(** * The vocabulary of the properties *)

Local Open Scope list_scope.

(** *** Strings *)

(** A text that does not start with white space. *)
Definition starts_clean (s : Text) : Prop :=
  match s with
  | [] => True
  | c :: _ => is_space c = false
  end.

(** *** Vectors *)

(** The cosine similarity of two vectors, as the spec defines it: their
    dot product over the product of their norms.  The sums run from the
    first component on, in IEEE doubles. *)
Definition dot_product (a b : list float) : float :=
  foldl (fun acc p => acc + p.1 * p.2)%float 0%float (zip a b).

Definition norm (a : list float) : float :=
  PrimFloat.sqrt (dot_product a a).

Definition cosine_similarity (a b : list float) : float :=
  (dot_product a b / (norm a * norm b))%float.

(** The pairs of vectors that have a cosine similarity: as many
    components in one as in the other, all of them finite, and neither
    sum of squares zero. *)
Definition comparable (a b : list float) : bool :=
  Nat.eqb (length a) (length b) &&
  forallb Number_isFinite a && forallb Number_isFinite b &&
  negb (dot_product a a =? 0)%float && negb (dot_product b b =? 0)%float.

(** *** The background *)

Section BackgroundSpec.
Import Background.

Definition with_calls (w : World) (texts : list Text) : World :=
  {| local_store := local_store w;
     embed_calls := embed_calls w ++ texts;
     store_writes := store_writes w |}.

End BackgroundSpec.

(** *** The offscreen document *)

Section OffscreenSpec.
Import Offscreen.

(** The initialisation is in flight. *)
Definition pending (s : State) : Prop :=
  embedderPromise s = Some AwaitingAssets \/
  embedderPromise s = Some AwaitingPipeline.

(** No promise and nothing started, or one promise and one start. *)
Definition memo_inv (s : State) : Prop :=
  (embedderPromise s = None /\ attempts s = 0 /\ waiting s = []) \/
  (is_Some (embedderPromise s) /\ attempts s = 1).

(** The texts of the [embedText] messages among the events, in order. *)
Definition requests (evs : list Event) : list Text :=
  omap (fun ev => match ev with Request t => Some t | _ => None end) evs.

(** The initialisation has ended, well or not. *)
Definition settled_promise (s : State) : Prop :=
  embedderPromise s = Some Fulfilled \/ failed s.

(** What holds of the requests received so far: each has been answered,
    or waits for the embedder's call, or waits for the initialisation;
    none waits for the initialisation once it has ended, and none waits
    for the embedder unless the initialisation succeeded; a blank text is
    answered with the validation error and starts nothing. *)
Definition answers_inv (texts : list Text) (s : State) : Prop :=
  (answered s).*1 ++ inferring s ++ waiting s ≡ₚ texts /\
  (settled_promise s -> waiting s = []) /\
  (embedderPromise s = None -> waiting s = []) /\
  (embedderPromise s <> Some Fulfilled -> inferring s = []) /\
  (is_Some (embedderPromise s) -> Exists (fun t => blank t = false) texts) /\
  Forall (fun a => blank a.1 = true ->
                   a.2 = Err "Embedding requires non-empty text.")
    (answered s) /\
  Forall (fun t => blank t = false) (inferring s ++ waiting s).

(** Where the answer to a text that is not blank comes from: the failure
    of the initialisation, or the end of a call of the embedder, whose
    output went through [toVector]. *)
Definition answer_source (evs : list Event) (s : State)
    (a : Text * result (list float)) : Prop :=
  (exists e, embedderPromise s = Some (Rejected e) /\ a.2 = Err e) \/
  (embedderPromise s = Some Fulfilled /\
   exists k r, Inferred k r ∈ evs /\ a.2 = answer r).

Definition sources_inv (evs : list Event) (s : State) : Prop :=
  Forall (fun a => blank a.1 = false -> answer_source evs s a) (answered s).

End OffscreenSpec.

(** *** The popup *)

Section PopupSpec.
Import Popup.

(** The ids of the snippets of every area. *)
Definition live_ids (s : State) : gset string :=
  list_to_set (omap truthy_id (snippets_local s ++ snippets_sync s)).

Definition all_have_ids (s : State) : Prop :=
  Forall (fun x => is_Some (truthy_id x))
    (snippets_local s ++ snippets_sync s).

(** The error of a read that finds no entry: the spec's
    [MissingEmbedding]. *)
Definition MissingEmbedding (e : string) : Prop :=
  exists i, e = msg_missing i.

(** What a read that finds no own entry throws: the missing-embedding
    error, or the error of [toVector] where the prototype chain gave a
    value. *)
Definition no_entry_error (i : string) : string :=
  if inherited i then msg_vector_data else msg_missing i.

(** The snippet has an id under which the index has no property of its
    own and inherits none. *)
Definition id_of_item_absent (index : Index) (x : Snippet) : Prop :=
  exists i, id x = Some i /\ index !! i = None /\ inherited i = false.

(** The snippet has a text that is not blank. *)
Definition has_text (x : Snippet) : Prop :=
  exists t, text x = Some t /\ blank t = false.

(** What no step of a move touches: the index, the messages sent to the
    background, and the writes of the index. *)
Definition cache_frame (s s' : State) : Prop :=
  embeddingsIndex s' = embeddingsIndex s /\
  sent s' = sent s /\
  saved_indexes s' = saved_indexes s.

(** What [filterSnippets] puts in the list for a ranking. *)
Definition shown (ranked : list Scored) : Listing :=
  match ranked with
  | [] => EmptyState "No matches in local or synced snippets."
  | _ => Rows (ranked_rows ranked)
  end.

(** A step of a call that does not hold the token changes nothing but,
    possibly, the index and the status line. *)
Definition same_results (s s' : State) : Prop :=
  listing s' = listing s /\ title s' = title s /\
  searchToken s' = searchToken s /\
  snippets_local s' = snippets_local s /\
  snippets_sync s' = snippets_sync s.

Definition is_settled (p : Pc) : Prop := exists o, p = Settled o.

(** The calls in flight were issued under tokens up to the current
    one. *)
Definition issued (sys : State * list Task) : Prop :=
  Forall (fun t => requestId t <= searchToken sys.1) sys.2.

(** An older call next to what it was when the newer one was issued: the
    same request, without the token, and untouched or, if it settled
    since, superseded. *)
Definition outdated (token : nat) (t0 t : Task) : Prop :=
  requestId t = requestId t0 /\ requestId t <> token /\
  (t = t0 \/ forall o, pc t = Settled o -> o = Superseded).

(** The state and the newest call [t], against the state [s1] in which
    it was issued. *)
Definition newest_shows (s1 s : State) (t : Task) : Prop :=
  match pc t with
  | Settled (Done ranked) =>
      listing s = shown ranked /\ title s = "Search results"
  | _ => listing s = listing s1 /\ title s = title s1
  end.

Definition newest_reports (s : State) (t : Task) : Prop :=
  (status s).2 = "error" ->
  exists e, pc t = Settled (Failed e) /\ status s = (e, "error").

Definition overlap_inv (pool0 : list Task) (s1 : State)
    (sys : State * list Task) : Prop :=
  exists olds t,
    sys.2 = olds ++ [t] /\
    searchToken sys.1 = searchToken s1 /\
    requestId t = searchToken s1 /\
    Forall2 (outdated (searchToken s1)) pool0 olds /\
    newest_shows s1 sys.1 t /\
    newest_reports sys.1 t.

(** The cosine similarity between the query vector and the vector cached
    for the snippet (as [toVector] hands it over: a [Float32Array]), when
    there is one and the two are comparable. *)
Definition cached_score (queryVector : list float) (index : Index)
    (x : Snippet) : option float :=
  i ← truthy_id x;
  cached ← index !! i;
  if comparable queryVector (Float32Array_from cached)
  then Some (cosine_similarity queryVector (Float32Array_from cached))
  else None.

(** The items, each with its score, in the order supplied. *)
Definition scored_items (items : list (Snippet * Area))
    (scores : list float) : list Scored :=
  zip_with (fun p sc => mkScored p.1 p.2 sc) items scores.

(** None of the scores is NaN, the one number that no order relates to
    any other. *)
Definition no_NaN (scores : list float) : Prop :=
  Forall (fun sc => PrimFloat.is_nan sc = false) scores.

(** Same score: the ties of the sort. *)
Definition scores_as (v : float) (u : Scored) : Prop :=
  (score u =? v)%float = true.

Global Instance scores_as_dec v u : Decision (scores_as v u).
Proof. unfold scores_as. apply _. Defined.

(** What the list shows for the active area when no search is
    displayed. *)
Definition area_listing (s : State) : Listing :=
  match getActiveSnippets s with
  | [] =>
      EmptyState
        ("No " ++ lowerAreaLabel (activeArea s) ++
         " snippets yet. Save a selection to start building your vault.")%string
  | l => Rows (unranked (activeArea s) l)
  end.

(** The popup as [updateDisplay] leaves it: the active area's snippets
    under the area's title, an empty search box, no status. *)
Definition refreshed (s : State) : Prop :=
  listing s = area_listing s /\
  title s = (getAreaLabel (activeArea s) ++ " snippets")%string /\
  search_input s = [] /\ status s = ("", "idle").

(** [y] is the snippet [x], with an id if [x] had none. *)
Definition same_but_id (x y : Snippet) : Prop :=
  text y = text x /\ (is_Some (truthy_id x) -> y = x).

(** Same snippets in both areas. *)
Definition same_snippets (s s' : State) : Prop :=
  snippets_local s' = snippets_local s /\
  snippets_sync s' = snippets_sync s.

End PopupSpec.

(** *** A search that runs alone *)

Section SearchDriver.
Import Popup.

(** The answers of the background to the two kinds of message, and what
    reading the index from the store gives. *)
Variable ensure_reply : list Snippet -> Reply.
Variable index_load : Load.
Variable query_reply : Text -> Reply.

(** What resumes the call next, when it is suspended. *)
Definition next_event (t : Task) : option Event :=
  match pc t with
  | InEnsureReply _ missing => Some (Replied (ensure_reply missing))
  | InEnsureLoad _ _ => Some (Loaded index_load)
  | InEmbedQuery _ => Some (Replied (query_reply (query t)))
  | AfterEnsure _ _ | AfterEmbedQuery _ _ | AfterRank _ => Some Tick
  | Settled _ => None
  end.

(** The call resumed up to [fuel] times, no other call or handler
    running in between. *)
Fixpoint drive (fuel : nat) (t : Task) (s : State) : Task * State :=
  match fuel with
  | 0 => (t, s)
  | S fuel' =>
      match next_event t with
      | None => (t, s)
      | Some ev =>
          match resume t ev s with
          | Some (t', s') => drive fuel' t' s'
          | None => (t, s)
          end
      end
  end.

(** How a search issued in [s0] has ended in [s']: its ranking of all
    the snippets is displayed, or its error is in the status line and
    the list is as it was. *)
Definition search_ended (s0 : State) (t' : Task) (s' : State) : Prop :=
  match pc t' with
  | Settled (Done ranked) =>
      listing s' = shown ranked /\ title s' = "Search results" /\
      status s' = ("", "idle") /\
      (ranked = [] /\ getAllSnippetItems s0 = [] \/
       rank_with
         (query_vector_of_reply (query_reply (trim (search_input s0))))
         (embeddingsIndex s') (getAllSnippetItems s0) = Ok ranked)
  | Settled (Failed e) =>
      status s' = (e, "error") /\
      listing s' = listing s0 /\ title s' = title s0
  | _ => False
  end.

(** What holds of the call and the popup until the call ends. *)
Definition search_running (s0 : State) (t : Task) (s : State) : Prop :=
  requestId t = searchToken s /\ query t = trim (search_input s0) /\
  listing s = listing s0 /\ title s = title s0 /\
  snippets_local s = snippets_local s0 /\
  snippets_sync s = snippets_sync s0.

End SearchDriver.

(** *** The content script *)

Section ContentSpec.
Import Content.

(** At most one animation element is in the document, the one the
    variable holds; its label is short; every style element in the
    document has a timeout that will remove it. *)
Definition page_inv (p : Page) : Prop :=
  (body p = [] \/
   exists e, body p = [e] /\ animationElement p = Some (element_id e)) /\
  Forall (fun e => length (label e) <= 23) (body p) /\
  head p = timers p.

End ContentSpec.

(** *** Example states and runs *)

(** A snippet that was never embedded next to one that was. *)
Definition example_unembedded : Popup.State :=
  Popup.mkState
    [mkSnippet (Some "x") (Some (utf16 "kept"))]
    [mkSnippet (Some "y") (Some (utf16 "gone"))]
    Popup.area_sync {["y" := [1; 0]%float]} 0
    [] ("", "idle") "Synced snippets"
    (Popup.Rows [Popup.mkRow (mkSnippet (Some "y") (Some (utf16 "gone")))
                   Popup.area_sync None])
    [] [] [].

(** One local snippet that has no vector yet; nothing in flight. *)
Definition example_search : Popup.State :=
  Popup.mkState [mkSnippet (Some "x") (Some (utf16 "cats and dogs"))] []
    Popup.area_local ∅ 0 [] ("", "idle") "Local snippets"
    (Popup.Rows [Popup.mkRow (mkSnippet (Some "x") (Some (utf16 "cats and dogs")))
                   Popup.area_local None])
    [] [] [].

Definition example_index : Index := {["x" := [1; 0]%float]}.

(** The popup after the actions (unchanged if they do not apply). *)
Definition after (actions : list Popup.Action)
    (sys : Popup.State * list Popup.Task) : Popup.State * list Popup.Task :=
  default sys (Popup.run actions sys).

(** Query "b" runs to its end, then the older query "a" resumes. *)
Definition newer_first : list Popup.Action :=
  [Popup.Resume 1 (Popup.Replied (Popup.OkUpdated 1));
   Popup.Resume 1 (Popup.Loaded (Popup.Read (StoredIndex example_index)));
   Popup.Resume 1 Popup.Tick;
   Popup.Resume 1 Popup.Tick;
   Popup.Resume 1 (Popup.Replied (Popup.OkVector [1; 0]%float));
   Popup.Resume 1 Popup.Tick;
   Popup.Resume 1 Popup.Tick;
   Popup.Resume 0 (Popup.Replied (Popup.OkUpdated 0));
   Popup.Resume 0 (Popup.Loaded (Popup.Read (StoredIndex example_index)));
   Popup.Resume 0 Popup.Tick;
   Popup.Resume 0 Popup.Tick].

(** The older query's answer arrives after the newer query failed. *)
Definition newer_fails : list Popup.Action :=
  [Popup.Input (utf16 "a"); Popup.Input (utf16 "b");
   Popup.Resume 1 (Popup.Replied (Popup.Failure (Some "Embedding failed.")));
   Popup.Resume 1 Popup.Tick].

Definition older_resumes : list Popup.Action :=
  [Popup.Resume 0 (Popup.Replied (Popup.OkUpdated 1));
   Popup.Resume 0 (Popup.Loaded (Popup.Read (StoredIndex example_index)))].

(** The vectors of the spec: A = [1, 0], B = [0, 1], C = [0.9, 0.1] (the
    doubles nearest to 0.9 and 0.1), and the query Q = [1, 0]. *)
Definition example_vectors : Index :=
  {[ "A" := [1; 0]%float;
     "B" := [0; 1]%float;
     "C" := [0x1.ccccccccccccdp-1; 0x1.999999999999ap-4]%float ]}.

Definition example_items : list (Snippet * Popup.Area) :=
  [(mkSnippet (Some "A") (Some (utf16 "first")), Popup.area_local);
   (mkSnippet (Some "B") (Some (utf16 "second")), Popup.area_local);
   (mkSnippet (Some "C") (Some (utf16 "third")), Popup.area_sync)].

Definition example_query : list float := Float32Array_from [1; 0]%float.

Definition example_scores : list float :=
  omap (fun p => cached_score example_query example_vectors p.1)
    example_items.

(** *** Proof tactics *)

(** Unfolds the next action of a run, leaving the calls of
    [filterSnippets] and [resume] in place. *)
Ltac step_act :=
  cbn [Popup.act mbind option_bind app lookup list_lookup
       insert list_insert].

(** The cases of [resume]: the suspension point and the event that
    matches it. *)
Ltac resume_cases t ev H :=
  unfold Popup.resume in H;
  destruct (Popup.pc t) as [?a ?m | ?a ?m | [] [[]|?e] | ?all | ?all ?r
                     | [?ranked|?e] | ?o] eqn:?Hpc,
    ev as [?r' | ?ld | ]; try discriminate H.

(** Decide the token test of a resumption, for the call that holds the
    token and for one that does not. *)
Ltac not_stale :=
  match goal with
  | H : context [decide (Popup.requestId ?t ≠ Popup.searchToken ?s)] |- _ =>
      rewrite (decide_False (P := Popup.requestId t ≠ Popup.searchToken s))
        in H by (intros Hn; by apply Hn)
  end.

Ltac is_stale :=
  match goal with
  | H : context [decide (Popup.requestId ?t ≠ Popup.searchToken ?s)] |- _ =>
      rewrite (decide_True (P := Popup.requestId t ≠ Popup.searchToken s))
        in H by done
  end.

(** Case analysis over IEEE numbers and over the comparisons of their
    exponents and mantissas. *)
Ltac sf_cases :=
  repeat match goal with
  | x : spec_float |- _ => destruct x as [[]|[]| |[] ? ?]
  end; simpl; try done.

Ltac cmp_cases :=
  change PosDef.Pos.compare_cont with Pos.compare_cont in *;
  repeat match goal with
  | |- context [(?a ?= ?b)%Z] => destruct (Z.compare_spec a b); subst; simpl
  | |- context [Pos.compare_cont Eq ?a ?b] =>
      change (Pos.compare_cont Eq a b) with (Pos.compare a b);
      destruct (Pos.compare_spec a b); subst; simpl
  end; try done; try lia.

(** * Properties *)

(** ** Vector math *)

Section VectorMathFacts.
Import VectorMath.

Lemma is_zero_cases (x : float) :
  PrimFloat.is_zero x = true -> x = 0%float \/ x = (-0)%float.
Proof.
  unfold PrimFloat.is_zero. intros H.
  rewrite FloatAxioms.eqb_spec in H.
  rewrite <- (SF2Prim_Prim2SF x).
  destruct (Prim2SF x) as [[]| [] | |[] ? ?]; simpl in H;
    try discriminate; auto.
Qed.

Lemma zero_is_finite (x : float) :
  PrimFloat.is_zero x = true -> Number_isFinite x = true.
Proof. intros [-> | ->]%is_zero_cases; reflexivity. Qed.

Lemma zero_square (x acc : float) :
  PrimFloat.is_zero x = true -> acc = 0%float -> (acc + x * x)%float = 0%float.
Proof. intros [-> | ->]%is_zero_cases ->; reflexivity. Qed.

(** A non-finite component anywhere stops the loop. *)
Lemma cosine_loop_non_finite (a b : list float) :
  length a = length b ->
  has_non_finite a \/ has_non_finite b ->
  forall dot normA normB, cosine_loop a b dot normA normB = Err msg_finite.
Proof.
  revert b. induction a as [|ai a IH]; intros [|bi b] Hlen Hex dot nA nB;
    simpl in *; try discriminate.
  - destruct Hex as [Hex | Hex]; inversion Hex.
  - destruct (Number_isFinite ai) eqn:Ha, (Number_isFinite bi) eqn:Hb;
      simpl; try reflexivity.
    apply IH; [congruence|].
    destruct Hex as [Hex | Hex]; inversion Hex; subst; try congruence; auto.
Qed.

(** Over a zero vector the accumulated [normA] stays [0]. *)
Lemma cosine_loop_zero_left (a b : list float) :
  zero_norm a ->
  forall dot normB r,
    cosine_loop a b dot 0 normB = Ok r -> r.1.2 = 0%float.
Proof.
  intros Hz. revert b. induction Hz as [|ai a Hai Hz IH];
    intros b dot nB r; simpl.
  - intros [= <-]. reflexivity.
  - destruct b as [|bi b]; [discriminate|].
    destruct (negb (Number_isFinite ai) || negb (Number_isFinite bi));
      [discriminate|].
    rewrite (zero_square ai 0 Hai eq_refl). apply IH.
Qed.

Lemma cosine_loop_zero_right (a b : list float) :
  zero_norm b ->
  forall dot normA r,
    cosine_loop a b dot normA 0 = Ok r -> r.2 = 0%float.
Proof.
  intros Hz. revert a. induction Hz as [|bi b Hbi Hz IH];
    intros a dot nA r; simpl.
  - destruct a; simpl; [intros [= <-]; reflexivity | discriminate].
  - destruct a as [|ai a]; simpl; [intros [= <-]; reflexivity|].
    destruct (negb (Number_isFinite ai) || negb (Number_isFinite bi));
      [discriminate|].
    rewrite (zero_square bi 0 Hbi eq_refl). apply IH.
Qed.

(** The loop throws nothing but the finiteness error. *)
Lemma cosine_loop_error (a b : list float) dot normA normB e :
  cosine_loop a b dot normA normB = Err e -> e = msg_finite.
Proof.
  revert b dot normA normB.
  induction a as [|ai a IH]; intros [|bi b] dot nA nB; simpl;
    try congruence.
  destruct (negb (Number_isFinite ai) || negb (Number_isFinite bi));
    [congruence | apply IH].
Qed.

(** C7. [getCosineSimilarity] throws, with one of its three
    invalid-vector messages, whenever the two vectors differ in length,
    a component of either is not finite, or either has norm zero; it
    returns no number then. *)
Theorem getCosineSimilarity_rejects_invalid (a b : list float) :
  length a <> length b \/ has_non_finite a \/ has_non_finite b \/
    zero_norm a \/ zero_norm b ->
  exists e, getCosineSimilarity a b = Err e /\ InvalidVector e.
Proof.
  intros H. unfold getCosineSimilarity, InvalidVector.
  destruct (Nat.eqb_spec (length a) (length b)) as [Hlen | Hlen]; simpl;
    [|eauto].
  destruct H as [H | H]; [contradiction|].
  destruct (cosine_loop a b 0 0 0) as [[[dot nA] nB]|e] eqn:Hloop.
  - destruct H as [H | [H | [H | H]]].
    + rewrite cosine_loop_non_finite in Hloop by auto. discriminate.
    + rewrite cosine_loop_non_finite in Hloop by auto. discriminate.
    + apply (cosine_loop_zero_left _ _ H) in Hloop. simpl in Hloop.
      subst nA. simpl. eauto.
    + apply (cosine_loop_zero_right _ _ H) in Hloop. simpl in Hloop.
      subst nB. rewrite orb_true_r. eauto.
  - apply cosine_loop_error in Hloop as ->. eauto.
Qed.

(** The two degenerate pairs of the spec, under the theorem's
    hypotheses. *)
Lemma getCosineSimilarity_rejects_invalid_witness :
  (zero_norm [0; 0]%float /\
   exists e, getCosineSimilarity [0; 0]%float [1; 1]%float = Err e
             /\ InvalidVector e) /\
  (length [1; 2]%float <> length [1; 2; 3]%float /\
   exists e, getCosineSimilarity [1; 2]%float [1; 2; 3]%float = Err e
             /\ InvalidVector e).
Proof.
  split.
  - assert (Hz : zero_norm [0; 0]%float) by (repeat constructor).
    split; [exact Hz|].
    apply getCosineSimilarity_rejects_invalid. auto.
  - assert (Hl : length [1; 2]%float <> length [1; 2; 3]%float)
      by (simpl; lia).
    split; [exact Hl|].
    apply getCosineSimilarity_rejects_invalid. auto.
Defined.

Example cosine_zero_vector :
  getCosineSimilarity [0; 0]%float [1; 1]%float = Err msg_non_zero.
Proof. reflexivity. Qed.

Example cosine_length_mismatch :
  getCosineSimilarity [1; 2]%float [1; 2; 3]%float = Err msg_equal_length.
Proof. reflexivity. Qed.

Example cosine_negative_zero :
  getCosineSimilarity [(-0); 0]%float [1; 1]%float = Err msg_non_zero.
Proof. reflexivity. Qed.

Example cosine_infinite_component :
  getCosineSimilarity [1; infinity]%float [1; 1]%float = Err msg_finite.
Proof. reflexivity. Qed.

Example cosine_orthogonal :
  getCosineSimilarity [1; 0]%float [0; 1]%float = Ok 0%float.
Proof. reflexivity. Qed.

(** The loop computes the three sums of the definition. *)
Lemma cosine_loop_sums (a b : list float) : forall dot normA normB,
  length a = length b ->
  forallb Number_isFinite a = true -> forallb Number_isFinite b = true ->
  cosine_loop a b dot normA normB =
    Ok (foldl (fun acc p => acc + p.1 * p.2)%float dot (zip a b),
        foldl (fun acc p => acc + p.1 * p.2)%float normA (zip a a),
        foldl (fun acc p => acc + p.1 * p.2)%float normB (zip b b)).
Proof.
  revert b. induction a as [|ai a IH]; intros [|bi b] dot nA nB Hlen Ha Hb;
    try discriminate; [done|].
  cbn [forallb] in Ha, Hb.
  apply andb_true_iff in Ha as [Hai Ha]. apply andb_true_iff in Hb as [Hbi Hb].
  cbn [cosine_loop]. rewrite Hai, Hbi. cbn [negb orb].
  rewrite IH by (done || by injection Hlen). reflexivity.
Qed.

(** On comparable vectors [getCosineSimilarity] returns the cosine
    similarity. *)
Lemma getCosineSimilarity_cosine (a b : list float) :
  comparable a b = true ->
  getCosineSimilarity a b = Ok (cosine_similarity a b).
Proof.
  unfold comparable. rewrite !andb_true_iff, !negb_true_iff.
  intros ((((Hlen%Nat.eqb_eq & Ha) & Hb) & Hna) & Hnb).
  unfold getCosineSimilarity. rewrite Hlen, Nat.eqb_refl. cbn [negb].
  rewrite cosine_loop_sums by done.
  fold (dot_product a b) (dot_product a a) (dot_product b b).
  by rewrite Hna, Hnb.
Qed.

Example cosine_similarity_example :
  cosine_similarity [1; 1; 1; 1]%float [2; 0; 0; 0]%float = 0.5%float /\
  getCosineSimilarity [1; 1; 1; 1]%float [2; 0; 0; 0]%float = Ok 0.5%float /\
  dot_product [1; 1; 1; 1]%float [2; 0; 0; 0]%float = 2%float.
Proof. by vm_compute. Qed.

End VectorMathFacts.

(** ** Texts *)

Section TextFacts.

(** [trim] strips more than the ASCII white space: a text made of
    no-break spaces, of ideographic spaces or of line separators is
    blank, and a text with NEXT LINE (U+0085) or ZERO WIDTH SPACE
    (U+200B), which ECMAScript does not count as white space, is not. *)
Example blank_unicode :
  blank [0xA0]%N = true /\ blank [0x3000; 0x2028; 0xFEFF]%N = true /\
  blank [0x85]%N = false /\ blank [0x200B]%N = false /\
  trim ([0xA0; 0x20] ++ utf16 "a b" ++ [0x2029; 0x9])%N = utf16 "a b".
Proof. by vm_compute. Qed.

End TextFacts.

(** ** Reading and writing the properties of the index *)

Section ObjectFacts.

Lemma property_own (index : Index) k v :
  index !! k = Some v -> property index k = Entry v.
Proof. unfold property. by intros ->. Qed.

Lemma property_not_inherited (index : Index) k :
  inherited k = false ->
  property index k =
    match index !! k with Some v => Entry v | None => Undefined end.
Proof. unfold property. by intros ->. Qed.

Lemma truthy_property (index : Index) k :
  truthy (property index k) = true <->
  k ∈ dom index \/ inherited k = true.
Proof.
  unfold property. rewrite elem_of_dom.
  destruct (index !! k) as [v|]; cbn.
  - split; [eauto | done].
  - destruct (inherited k); cbn; split; try done; auto.
    intros [[? [=]] | [=]].
Qed.

Lemma truthy_property_mono (index index' : Index) k :
  index ⊆ index' ->
  truthy (property index k) = true -> truthy (property index' k) = true.
Proof.
  intros Hsub. rewrite !truthy_property. intros [Hin | ?]; [left|by right].
  apply elem_of_dom in Hin as [v Hv]. apply elem_of_dom. exists v.
  by eapply lookup_weaken.
Qed.

Lemma inherited_proto k : inherited k = false -> k <> "__proto__".
Proof. by intros H ->. Qed.

(** Where the read gave [undefined], the write adds an entry. *)
Lemma assign_undefined (index : Index) k v :
  truthy (property index k) = false -> assign index k v = <[k := v]> index.
Proof.
  intros H. unfold assign. destruct (decide (k = "__proto__")) as [-> | ];
    [|done].
  unfold property in H. by destruct (index !! "__proto__").
Qed.

Lemma assign_other (index : Index) k v :
  k <> "__proto__" -> assign index k v = <[k := v]> index.
Proof. intros H. unfold assign. by rewrite decide_False. Qed.

End ObjectFacts.

(** ** The background's cache fill *)

Section BackgroundFacts.
Import Background.

Variable embedder : nat -> Text -> result (list float).
Variable get_error : option string.
Variable set_error : Index -> option string.

Local Abbreviation ensure_loop := (Background.ensure_loop embedder).
Local Abbreviation ensureEmbeddings :=
  (Background.ensureEmbeddings embedder get_error set_error).

Lemma with_calls_nil w : with_calls w [] = w.
Proof. destruct w. unfold with_calls. simpl. by rewrite app_nil_r. Qed.

Lemma valid_item_inv item :
  valid_item item ->
  exists c i t, id item = Some (String c i) /\ text item = Some t /\
                blank t = false /\ id_of item = String c i /\
                text_of item = t.
Proof.
  intros [(i & Hi & Hne) (t & Ht & Hb)].
  destruct i as [|c i]; [done|].
  exists c, i, t. unfold id_of, text_of. rewrite Hi, Ht. done.
Qed.

(** The loop on valid items whose ids name no inherited property, as
    long as the embedder answers: it embeds exactly [to_embed], in order,
    and extends the index with the answers. *)
Lemma ensure_loop_fills items : forall index updated w,
  Forall valid_item items ->
  Forall (fun item => inherited (id_of item) = false) items ->
  (forall k item, to_embed (dom index) items !! k = Some item ->
     is_ok (embedder (length (embed_calls w) + k) (text_of item)) = true) ->
  exists index',
    ensure_loop items index updated w =
      (Ok (index', updated + length (to_embed (dom index) items)),
       with_calls w (text_of <$> to_embed (dom index) items)) /\
    index ⊆ index' /\
    (forall k item, to_embed (dom index) items !! k = Some item ->
       exists v, embedder (length (embed_calls w) + k) (text_of item) = Ok v
                 /\ index' !! id_of item = Some v) /\
    dom index' = dom index ∪ list_to_set (id_of <$> items) /\
    size index' = size index + length (to_embed (dom index) items).
Proof.
  induction items as [|item items IH];
    intros index updated w Hvalid Hown Hemb.
  - exists index. simpl. rewrite with_calls_nil, Nat.add_0_r.
    repeat split; try done. clear. set_solver.
  - apply Forall_cons_1 in Hvalid as [Hitem Hvalid].
    apply Forall_cons_1 in Hown as [Hinh Hown].
    destruct (valid_item_inv _ Hitem)
      as (c & i & t & Hid & Ht & Hb & Hio & Hto).
    cbn [Background.ensure_loop to_embed] in *.
    rewrite Hid, Ht, Hb, Hio. rewrite Hio in Hemb, Hinh.
    rewrite (property_not_inherited _ _ Hinh).
    destruct (index !! String c i) as [cached|] eqn:Hlook; cbn [truthy].
    + (* already cached: skipped *)
      assert (Hin : String c i ∈ dom index) by (apply elem_of_dom; eauto).
      rewrite decide_True by done.
      rewrite decide_True in Hemb by done.
      destruct (IH index updated w Hvalid Hown Hemb)
        as (index' & Hrun & Hsub & Hvec & Hdom & Hsize).
      exists index'. repeat split; try done.
      rewrite Hdom, fmap_cons, list_to_set_cons, Hio.
      clear -Hin. set_solver.
    + (* absent: embedded once, inserted *)
      assert (Hnin : String c i ∉ dom index) by (by apply not_elem_of_dom).
      rewrite decide_False by done.
      rewrite decide_False in Hemb by done.
      pose proof (Hemb 0 item eq_refl) as Hfirst.
      rewrite Nat.add_0_r, Hto in Hfirst.
      destruct (embedder (length (embed_calls w)) t) as [v|] eqn:Hv;
        [clear Hfirst | discriminate].
      set (w1 := with_calls w [t]).
      destruct (IH (<[String c i := v]> index) (S updated) w1 Hvalid Hown)
        as (index' & Hrun & Hsub & Hvec & Hdom & Hsize).
      { intros k it Hk. rewrite dom_insert_L in Hk.
        specialize (Hemb (S k) it Hk).
        unfold w1, with_calls. simpl. rewrite length_app. simpl.
        by replace (length (embed_calls w) + 1 + k)
          with (length (embed_calls w) + S k) by lia. }
      exists index'. rewrite dom_insert_L in Hrun, Hvec, Hdom, Hsize.
      assert (Hv' : index' !! String c i = Some v).
      { eapply lookup_weaken; [|exact Hsub]. apply lookup_insert_eq. }
      split; [|repeat split].
      * unfold mbind, M_bind, embedText. rewrite Hb. simpl. rewrite Hv.
        rewrite (assign_other _ _ _ (inherited_proto _ Hinh)).
        etrans; [exact Hrun|]. f_equal.
        -- do 2 f_equal. simpl. lia.
        -- unfold w1, with_calls. simpl. rewrite Hto.
           by rewrite <- app_assoc.
      * etrans; [|exact Hsub]. by apply insert_subseteq.
      * intros [|k] it Hk; simpl in Hk.
        -- injection Hk as <-. exists v. rewrite Nat.add_0_r, Hto, Hio. done.
        -- destruct (Hvec k it Hk) as (v' & Hv1 & Hv2). exists v'.
           split; [|done]. rewrite <- Hv1. unfold w1, with_calls. simpl.
           rewrite length_app. simpl. f_equal. lia.
      * rewrite Hdom, fmap_cons, list_to_set_cons, Hio.
        clear. set_solver.
      * rewrite Hsize, map_size_insert_None by done. simpl. lia.
Qed.

(** [to_embed] keeps an item exactly when its id is new. *)
Lemma to_embed_ids seen items i :
  i ∈ id_of <$> to_embed seen items <-> i ∈ id_of <$> items /\ i ∉ seen.
Proof.
  revert seen. induction items as [|item items IH]; intros seen;
    cbn [to_embed].
  - rewrite fmap_nil. set_solver.
  - rewrite (fmap_cons id_of item items).
    destruct (decide (id_of item ∈ seen)) as [Hin | Hnin].
    + rewrite IH, elem_of_cons. set_solver.
    + rewrite fmap_cons, !elem_of_cons, IH.
      destruct (decide (i = id_of item)) as [-> | Hne]; [by intuition|].
      rewrite not_elem_of_union, not_elem_of_singleton. by intuition.
Qed.

Lemma to_embed_NoDup seen items : NoDup (id_of <$> to_embed seen items).
Proof.
  revert seen. induction items as [|item items IH]; intros seen;
    cbn [to_embed].
  - constructor.
  - destruct (decide (id_of item ∈ seen)); [apply IH|].
    rewrite fmap_cons. constructor; [|apply IH].
    rewrite to_embed_ids. set_solver.
Qed.

Lemma to_embed_sublist seen items : to_embed seen items `sublist_of` items.
Proof.
  revert seen. induction items as [|item items IH]; intros seen;
    cbn [to_embed].
  - constructor.
  - destruct (decide (id_of item ∈ seen)).
    + by apply sublist_cons.
    + by apply sublist_skip.
Qed.

Lemma filter_ext_elem {A} (P Q : A -> Prop) `{!forall x, Decision (P x)}
    `{!forall x, Decision (Q x)} (l : list A) :
  (forall x, x ∈ l -> P x <-> Q x) -> filter P l = filter Q l.
Proof.
  induction l as [|x l IH]; intros HPQ; [done|].
  rewrite !filter_cons.
  rewrite IH by (intros y Hy; apply HPQ; by right).
  destruct (decide (P x)) as [HP | HP], (decide (Q x)) as [HQ | HQ];
    try done; exfalso; apply (HPQ x) in HP || apply (HPQ x) in HQ;
    try done; by left.
Qed.

(** Without repeated ids it is the plain filter. *)
Lemma to_embed_filter seen items :
  NoDup (id_of <$> items) ->
  to_embed seen items = filter (fun item => id_of item ∉ seen) items.
Proof.
  revert seen. induction items as [|item items IH]; intros seen Hnd;
    cbn [to_embed]; [done|].
  rewrite fmap_cons in Hnd. apply NoDup_cons in Hnd as [Hfresh Hnd].
  rewrite filter_cons.
  destruct (decide (id_of item ∈ seen)) as [Hin | Hnin].
  - rewrite decide_False by (intros ?; contradiction). by apply IH.
  - rewrite decide_True by done. f_equal.
    rewrite IH by done. apply filter_ext_elem. intros x Hx.
    assert (id_of x ≠ id_of item).
    { intros Heq. apply Hfresh. rewrite <- Heq. by apply list_elem_of_fmap_2. }
    rewrite not_elem_of_union, not_elem_of_singleton. by intuition.
Qed.

(** C1, as the code has it.  On valid items whose ids name no property
    that objects inherit, with the embedder answering and the store
    accepting the read and the write, [ensureEmbeddings] asks the
    embedder once for each id that has no entry (in the order the items
    came, an id that occurs twice counting at its first item), stores
    each answer under that id, leaves the entries it found alone, and
    returns the number of entries it added. *)
Theorem ensureEmbeddings_fills_absent_ids
    (items : list Snippet) (w : World) (cache : Index) :
  get_error = None ->
  index_of_stored (local_store w) = Ok cache ->
  Forall valid_item items ->
  Forall (fun item => inherited (id_of item) = false) items ->
  (forall index, set_error index = None) ->
  (forall k item, to_embed (dom cache) items !! k = Some item ->
     is_ok (embedder (length (embed_calls w) + k) (text_of item)) = true) ->
  exists cache' w',
    ensureEmbeddings items w = (Ok (length (to_embed (dom cache) items)), w')
    /\ index_of_stored (local_store w') = Ok cache'
    /\ embed_calls w' =
         embed_calls w ++ (text_of <$> to_embed (dom cache) items)
    /\ (forall k item, to_embed (dom cache) items !! k = Some item ->
          exists v,
            embedder (length (embed_calls w) + k) (text_of item) = Ok v
            /\ cache' !! id_of item = Some v)
    /\ cache ⊆ cache'
    /\ dom cache' = dom cache ∪ list_to_set (id_of <$> items)
    /\ size cache' = size cache + length (to_embed (dom cache) items)
    /\ to_embed (dom cache) items `sublist_of` items
    /\ NoDup (id_of <$> to_embed (dom cache) items)
    /\ (forall i, i ∈ id_of <$> to_embed (dom cache) items <->
                  i ∈ id_of <$> items /\ i ∉ dom cache)
    /\ (NoDup (id_of <$> items) ->
        to_embed (dom cache) items =
          filter (fun item => id_of item ∉ dom cache) items).
Proof.
  intros Hget Hload Hvalid Hown Hset Hemb.
  destruct (ensure_loop_fills items cache 0 w Hvalid Hown Hemb)
    as (cache' & Hrun & Hsub & Hvec & Hdom & Hsize).
  unfold Background.ensureEmbeddings, mbind, M_bind, loadEmbeddingsIndex.
  rewrite Hget, Hload, Hrun. cbn [fst snd].
  set (missing := to_embed (dom cache) items) in *.
  assert (Hfacts :
    missing `sublist_of` items /\ NoDup (id_of <$> missing) /\
    (forall i, i ∈ id_of <$> missing <->
               i ∈ id_of <$> items /\ i ∉ dom cache) /\
    (NoDup (id_of <$> items) ->
     missing = filter (fun item => id_of item ∉ dom cache) items)).
  { unfold missing. split_and!;
      auto using to_embed_sublist, to_embed_NoDup, to_embed_filter.
    intros i. apply to_embed_ids. }
  destruct (Nat.ltb_spec 0 (0 + length missing)) as [Hpos | Hzero].
  - unfold setStorage. rewrite Hset. unfold mret, M_ret.
    eexists cache', _. split; [reflexivity|]. simpl.
    split_and!; try done; apply Hfacts.
  - assert (Hnil : missing = []) by (destruct missing; [done | simpl in *; lia]).
    assert (cache' = cache) as ->.
    { symmetry. apply map_subseteq_size_eq; [done|].
      rewrite Hsize, Hnil. simpl. lia. }
    unfold mret, M_ret. eexists cache, _. split; [reflexivity|].
    destruct Hfacts as (Hf1 & Hf2 & Hf3 & Hf4).
    rewrite Hnil in *. simpl. rewrite app_nil_r.
    split_and!; try done.
Qed.

(** What a pass that returned tells about its items and its index. *)
Lemma ensure_loop_inv items : forall index updated w index' updated' w',
  ensure_loop items index updated w = (Ok (index', updated'), w') ->
  index ⊆ index' /\ updated <= updated' /\
  (updated' = updated -> index' = index /\ w' = w) /\
  Forall (fun item => valid_item item /\
                      truthy (property index' (id_of item)) = true) items /\
  local_store w' = local_store w /\ store_writes w' = store_writes w.
Proof.
  induction items as [|item items IH];
    intros index updated w index' updated' w' Hrun;
    cbn [Background.ensure_loop] in Hrun.
  - injection Hrun as <- <- <-. split_and!; auto.
  - destruct (id item) as [[|c i]|] eqn:Hid; try discriminate.
    destruct (text item) as [t|] eqn:Ht; try discriminate.
    destruct (blank t) eqn:Hb; try discriminate.
    assert (Hitem : valid_item item).
    { split; [exists (String c i) | exists t]; done. }
    assert (Hio : id_of item = String c i) by (unfold id_of; by rewrite Hid).
    destruct (truthy (property index (String c i))) eqn:Hlook.
    + apply IH in Hrun as (Hsub & Hle & Hsame & Hall & Hst & Hwr).
      split_and!; try done. constructor; [|done]. split; [done|].
      rewrite Hio. by eapply truthy_property_mono.
    + unfold mbind, M_bind, embedText in Hrun. rewrite Hb in Hrun.
      destruct (embedder (length (embed_calls w)) t) as [v|] eqn:Hv;
        try discriminate.
      rewrite (assign_undefined _ _ _ Hlook) in Hrun.
      assert (Hnone : index !! String c i = None).
      { apply not_elem_of_dom. intros Hin.
        assert (truthy (property index (String c i)) = true)
          by (apply truthy_property; by left).
        congruence. }
      apply IH in Hrun as (Hsub & Hle & Hsame & Hall & Hst & Hwr).
      split_and!; try done; try lia.
      * etrans; [|exact Hsub]. by apply insert_subseteq.
      * constructor; [|done]. split; [done|].
        rewrite Hio. apply truthy_property. left. apply elem_of_dom.
        exists v. eapply lookup_weaken; [|exact Hsub]. apply lookup_insert_eq.
Qed.

(** A pass over items that are all found asks nothing and changes
    nothing. *)
Lemma ensure_loop_all_present items index updated w :
  Forall (fun item => valid_item item /\
                      truthy (property index (id_of item)) = true) items ->
  ensure_loop items index updated w = (Ok (index, updated), w).
Proof.
  induction 1 as [|item items [Hitem Hin] _ IH]; [done|].
  destruct (valid_item_inv _ Hitem)
    as (c & i & t & Hid & Ht & Hb & Hio & Hto).
  cbn [Background.ensure_loop]. rewrite Hid, Ht, Hb.
  rewrite Hio in Hin. rewrite Hin. exact IH.
Qed.

(** C2. After a call of [ensureEmbeddings] that returned, the same call
    again returns 0 and leaves the world as it is: no embedder call is
    added, nothing is written, the stored mapping is the same. *)
Theorem ensureEmbeddings_idempotent (items : list Snippet) (w w' : World)
    (n : nat) :
  ensureEmbeddings items w = (Ok n, w') ->
  ensureEmbeddings items w' = (Ok 0, w').
Proof.
  unfold Background.ensureEmbeddings, mbind, M_bind, loadEmbeddingsIndex.
  destruct get_error as [e|] eqn:Hget; [discriminate|].
  destruct (index_of_stored (local_store w)) as [cache|] eqn:Hload;
    [|discriminate].
  destruct (ensure_loop items cache 0 w) as [[[cache' updated]|] w1] eqn:Hrun;
    [|discriminate].
  cbn [fst snd].
  pose proof (ensure_loop_inv _ _ _ _ _ _ _ Hrun)
    as (Hsub & Hle & Hsame & Hall & Hst & Hwr).
  destruct (Nat.ltb_spec 0 updated) as [Hpos | Hzero].
  - unfold setStorage.
    destruct (set_error cache') eqn:Hset; [discriminate|].
    unfold mret, M_ret. intros [= <- <-]. simpl.
    rewrite ensure_loop_all_present by done. reflexivity.
  - unfold mret, M_ret. intros [= <- <-].
    assert (updated = 0) as -> by lia.
    destruct (Hsame eq_refl) as [-> ->].
    rewrite Hload, Hrun. reflexivity.
Qed.

End BackgroundFacts.

(** A cache holding ["a"], two items, an embedder that always answers. *)
Lemma ensureEmbeddings_fills_absent_ids_witness :
  let embedder := fun (_ : nat) (_ : Text) => Ok [1; 0]%float in
  let get_error := @None string in
  let set_error := fun _ : Index => @None string in
  let items := [mkSnippet (Some "a") (Some (utf16 "alpha"));
                mkSnippet (Some "b") (Some (utf16 "beta"))] in
  let cache : Index := {["a" := [0; 1]%float]} in
  let w := Background.mkWorld (StoredIndex cache) [] [] in
  (Forall Background.valid_item items /\
   Forall (fun item => inherited (Background.id_of item) = false) items) /\
  exists cache' w',
    Background.ensureEmbeddings embedder get_error set_error items w
      = (Ok 1, w')
    /\ index_of_stored (Background.local_store w') = Ok cache'
    /\ Background.embed_calls w' = [utf16 "beta"]
    /\ cache' !! "b" = Some [1; 0]%float
    /\ cache' !! "a" = Some [0; 1]%float.
Proof.
  intros embedder get_error set_error items cache w.
  assert (Hvalid : Forall Background.valid_item items).
  { repeat constructor; eexists; split; done. }
  assert (Hown : Forall (fun item =>
                   inherited (Background.id_of item) = false) items).
  { by repeat constructor. }
  split; [by split|].
  destruct (ensureEmbeddings_fills_absent_ids embedder get_error set_error
              items w cache eq_refl eq_refl Hvalid Hown (fun _ => eq_refl)
              (fun _ _ _ => eq_refl))
    as (cache' & w' & Hrun & Hstore & Hcalls & Hvec & Hsub & _).
  exists cache', w'. split; [exact Hrun|]. split; [exact Hstore|].
  split; [exact Hcalls|]. split.
  - destruct (Hvec 0 (mkSnippet (Some "b") (Some (utf16 "beta"))) eq_refl)
      as (v & Hv & Hb). injection Hv as <-. exact Hb.
  - eapply lookup_weaken; [|exact Hsub]. reflexivity.
Defined.

(** C1 as stated fails where an id names a property that every object
    inherits.  The item is valid and its id has no entry in the (empty)
    cache, yet the pass finds [embeddingsIndex["constructor"]] truthy:
    it asks the embedder nothing, inserts nothing and returns 0, where
    the claim has one call, one insertion and 1. *)
Lemma ensureEmbeddings_skips_inherited_name :
  let embedder := fun (_ : nat) (_ : Text) => Ok [1; 0]%float in
  let item := mkSnippet (Some "constructor") (Some (utf16 "hello")) in
  let w := Background.mkWorld Unset [] [] in
  Background.valid_item item /\
  index_of_stored (Background.local_store w) = Ok ∅ /\
  (∅ : Index) !! "constructor" = None /\
  Background.ensureEmbeddings embedder None (fun _ => None) [item] w
    = (Ok 0, w) /\
  Background.embed_calls w = [] /\ Background.store_writes w = [].
Proof.
  intros embedder item w. split_and!; try done.
  split; eexists; split; done.
Qed.

(** The same world: the second call is a no-op. *)
Lemma ensureEmbeddings_idempotent_witness :
  let embedder := fun (_ : nat) (_ : Text) => Ok [1; 0]%float in
  let get_error := @None string in
  let set_error := fun _ : Index => @None string in
  let items := [mkSnippet (Some "a") (Some (utf16 "alpha"));
                mkSnippet (Some "b") (Some (utf16 "beta"))] in
  let w := Background.mkWorld Unset [] [] in
  exists w',
    Background.ensureEmbeddings embedder get_error set_error items w
      = (Ok 2, w') /\
    Background.ensureEmbeddings embedder get_error set_error items w'
      = (Ok 0, w').
Proof.
  intros embedder get_error set_error items w. eexists. split.
  - reflexivity.
  - eapply (ensureEmbeddings_idempotent embedder get_error set_error
              items w _ 2).
    reflexivity.
Defined.

(** A failed read of the store ends the call before any item is looked
    at. *)
Example ensureEmbeddings_read_failure :
  Background.ensureEmbeddings (fun _ _ => Ok [1; 0]%float) (Some "gone")
    (fun _ => None) [mkSnippet (Some "a") (Some (utf16 "alpha"))]
    (Background.mkWorld Unset [] [])
  = (Err "Storage read failed: gone", Background.mkWorld Unset [] []).
Proof. reflexivity. Qed.

(** An item whose text is a no-break space is refused like an empty
    one, before anything is embedded. *)
Example ensureEmbeddings_blank_text :
  Background.ensureEmbeddings (fun _ _ => Ok [1; 0]%float) None
    (fun _ => None) [mkSnippet (Some "a") (Some [0xA0]%N)]
    (Background.mkWorld Unset [] [])
  = (Err "Embedding item requires text.", Background.mkWorld Unset [] []).
Proof. reflexivity. Qed.

(** ** Pruning the popup's index *)

Section PruneFacts.
Import Popup.

Lemma collect_ids_ok l : forall ids0,
  Forall (fun x => is_Some (truthy_id x)) l ->
  collect_ids l ids0 = Ok (list_to_set (omap truthy_id l) ∪ ids0).
Proof.
  induction l as [|x l IH]; intros ids0 Hall; simpl.
  - f_equal. set_solver.
  - apply Forall_cons_1 in Hall as [[i Hi] Hall]. rewrite Hi.
    rewrite IH by done. f_equal. set_solver.
Qed.

Lemma collect_ids_inv l : forall ids0 ids,
  collect_ids l ids0 = Ok ids ->
  Forall (fun x => is_Some (truthy_id x)) l /\
  ids = list_to_set (omap truthy_id l) ∪ ids0.
Proof.
  induction l as [|x l IH]; intros ids0 ids; simpl.
  - intros [= <-]. split; [constructor | set_solver].
  - destruct (truthy_id x) as [i|] eqn:Hi; [|discriminate].
    intros [Hall ->]%IH. split; [constructor; eauto | set_solver].
Qed.

Lemma prune_keys_lookup ids keys : forall index changed k,
  (prune_keys ids keys index changed).1 !! k =
    if decide (k ∈ keys /\ k ∉ ids) then None else index !! k.
Proof.
  induction keys as [|k0 keys IH]; intros index changed k;
    cbn [prune_keys].
  - rewrite decide_False; [done|]. intros [[]%elem_of_nil _].
  - destruct (decide (k0 ∈ ids)) as [Hin | Hnin]; rewrite IH.
    + destruct (decide (k ∈ keys /\ k ∉ ids)) as [[H1 H2] | Hn].
      * rewrite decide_True; [done|]. split; [by right | done].
      * rewrite decide_False; [done|].
        intros [[-> | H1]%elem_of_cons H2]; [done|]. by apply Hn.
    + destruct (decide (k ∈ keys /\ k ∉ ids)) as [[H1 H2] | Hn].
      * rewrite decide_True; [done|]. split; [by right | done].
      * destruct (decide (k = k0)) as [-> | Hne].
        -- rewrite lookup_delete_eq, decide_True; [done|].
           split; [by left | done].
        -- rewrite lookup_delete_ne by done.
           rewrite decide_False; [done|].
           intros [[-> | H1]%elem_of_cons H2]; [done|]. by apply Hn.
Qed.

Lemma prune_keys_changed ids keys : forall index changed,
  (prune_keys ids keys index changed).2 = true <->
  changed = true \/ exists k, k ∈ keys /\ k ∉ ids.
Proof.
  induction keys as [|k0 keys IH]; intros index changed; cbn [prune_keys].
  - simpl. split; [auto|]. intros [H | (k & []%elem_of_nil & _)]. done.
  - destruct (decide (k0 ∈ ids)) as [Hin | Hnin]; rewrite IH.
    + split; intros [H | (k & H1 & H2)]; auto.
      * right. exists k. split; [by right | done].
      * apply elem_of_cons in H1 as [-> | H1]; [done|]. eauto.
    + split; [|auto]. intros _. right. exists k0. split; [by left | done].
Qed.

Lemma elem_of_keys (index : Index) k :
  k ∈ (map_to_list index).*1 <-> k ∈ dom index.
Proof.
  rewrite elem_of_dom, list_elem_of_fmap. split.
  - intros ([k' v] & -> & Hkv%elem_of_map_to_list). eauto.
  - intros [v Hv]. exists (k, v). split; [done|].
    by apply elem_of_map_to_list.
Qed.

(** The function, on a state whose snippets all have ids: it returns, and
    keeps exactly the entries of live ids. *)
Lemma pruneEmbeddingsIndex_spec (s : State) :
  all_have_ids s ->
  exists changed index',
    pruneEmbeddingsIndex s = (Ok changed, set_index index' s) /\
    (forall k, index' !! k =
       if decide (k ∈ live_ids s) then embeddingsIndex s !! k else None) /\
    (changed = true <->
     exists k, k ∈ dom (embeddingsIndex s) /\ k ∉ live_ids s).
Proof.
  intros Hall. unfold all_have_ids in Hall.
  apply Forall_app in Hall as [Hl Hs].
  unfold pruneEmbeddingsIndex.
  rewrite (collect_ids_ok _ _ Hl), (collect_ids_ok _ _ Hs).
  set (ids := list_to_set (omap truthy_id (snippets_sync s))
              ∪ (list_to_set (omap truthy_id (snippets_local s)) ∪ ∅)).
  assert (Hids : ids = live_ids s).
  { unfold ids, live_ids. rewrite omap_app, list_to_set_app_L. set_solver. }
  rewrite <- Hids. eexists _, _. split; [reflexivity|]. split.
  - intros k. rewrite prune_keys_lookup.
    destruct (decide (k ∈ ids)) as [Hin | Hnin].
    + rewrite decide_False; [done|]. by intros [_ ?].
    + destruct (decide (k ∈ (map_to_list (embeddingsIndex s)).*1 /\ k ∉ ids))
        as [_ | Hn]; [done|].
      apply not_elem_of_dom. rewrite <- elem_of_keys. intros ?. by apply Hn.
  - rewrite prune_keys_changed. split.
    + intros [? | (k & H1 & H2)]; [done|]. exists k.
      by rewrite <- elem_of_keys.
    + intros (k & H1 & H2). right. exists k. by rewrite elem_of_keys.
Qed.

(** C3, as the code has it.  On a state whose snippets all have ids, a
    prune pass returns, leaves as the cache's id set its previous id set
    intersected with the live ids (entries kept keep their vectors), and
    returns true exactly when it deleted an entry.  So after the pass the
    cache's id set is included in the union of ids across all domains; it
    is that union exactly when every live id had an entry before. *)
Theorem pruneEmbeddingsIndex_keeps_live_entries (s : State) :
  all_have_ids s ->
  exists changed s',
    pruneEmbeddingsIndex s = (Ok changed, s') /\
    dom (embeddingsIndex s') = dom (embeddingsIndex s) ∩ live_ids s /\
    embeddingsIndex s' ⊆ embeddingsIndex s /\
    live_ids s' = live_ids s /\
    dom (embeddingsIndex s') ⊆ live_ids s' /\
    (dom (embeddingsIndex s') = live_ids s' <->
     live_ids s ⊆ dom (embeddingsIndex s)) /\
    (changed = true <->
     exists k, k ∈ dom (embeddingsIndex s) /\
               k ∉ dom (embeddingsIndex s')).
Proof.
  intros Hall.
  destruct (pruneEmbeddingsIndex_spec s Hall)
    as (changed & index' & Hrun & Hlook & Hchanged).
  exists changed, (set_index index' s). split; [exact Hrun|].
  assert (Hdom : dom index' = dom (embeddingsIndex s) ∩ live_ids s).
  { apply set_eq. intros k.
    rewrite elem_of_intersection, !elem_of_dom, Hlook.
    destruct (decide (k ∈ live_ids s)); [by intuition|].
    split; [by intros [? ?] | by intros [_ ?]]. }
  cbn [set_index embeddingsIndex]. split_and!.
  - exact Hdom.
  - apply map_subseteq_spec. intros k v. rewrite Hlook.
    by destruct (decide (k ∈ live_ids s)).
  - reflexivity.
  - unfold live_ids at 1. cbn [set_index snippets_local snippets_sync].
    fold (live_ids s). rewrite Hdom. set_solver.
  - unfold live_ids at 1 2. cbn [set_index snippets_local snippets_sync].
    fold (live_ids s). rewrite Hdom. set_solver.
  - rewrite Hchanged, Hdom. split; intros (k & H1 & H2); exists k;
      set_solver.
Qed.

End PruneFacts.

Lemma pruneEmbeddingsIndex_keeps_live_entries_witness :
  all_have_ids example_unembedded /\
  exists changed s',
    Popup.pruneEmbeddingsIndex example_unembedded = (Ok changed, s') /\
    dom (Popup.embeddingsIndex s') =
      dom (Popup.embeddingsIndex example_unembedded)
      ∩ live_ids example_unembedded.
Proof.
  assert (Hall : all_have_ids example_unembedded).
  { repeat constructor; eexists; reflexivity. }
  split; [exact Hall|].
  destruct (pruneEmbeddingsIndex_keeps_live_entries example_unembedded Hall)
    as (changed & s' & Hrun & Hdom & _).
  exists changed, s'. split; [exact Hrun | exact Hdom].
Defined.

(** C3 as stated fails: a prune pass only deletes.  With snippet ["x"]
    never embedded, the pass at load time returns false and leaves the
    cache's id set empty, and the pass that follows the deletion of ["y"]
    leaves it empty as well, while the union of ids across the domains is
    [{"x"}]. *)
Lemma prune_checkpoint_is_not_the_union :
  (let s' := Popup.set_index ∅ example_unembedded in
   Popup.pruneEmbeddingsIndex (Popup.set_index ∅ example_unembedded)
     = (Ok false, s') /\
   dom (Popup.embeddingsIndex s') <> live_ids s') /\
  (let s' :=
     Popup.mkState [mkSnippet (Some "x") (Some (utf16 "kept"))] []
       Popup.area_sync ∅ 0 [] ("", "idle") "Synced snippets"
       (Popup.EmptyState
          "No synced snippets yet. Save a selection to start building your vault.")
       [] [(Popup.area_sync, [])] [∅] in
   Popup.deleteSnippet (fun _ _ => None) (fun _ => None) (fun _ => None)
     Popup.area_sync "y" example_unembedded = (Ok tt, s') /\
   dom (Popup.embeddingsIndex s') <> live_ids s').
Proof.
  assert (Hne : forall s : Popup.State,
            Popup.embeddingsIndex s = ∅ -> "x" ∈ live_ids s ->
            dom (Popup.embeddingsIndex s) <> live_ids s).
  { intros s -> Hx H. rewrite <- H, dom_empty_L in Hx. set_solver. }
  split; intros s'; (split; [vm_compute; reflexivity|]);
    (apply Hne; [reflexivity|]); unfold live_ids; cbn; set_solver.
Qed.

(** ** Reading vectors, ranking, moving *)

Section PopupFacts.
Import Popup.

Lemma getSnippetVector_absent index x i :
  has_text x -> truthy_id x = Some i -> index !! i = None ->
  getSnippetVector index x = Err (no_entry_error i).
Proof.
  intros (t & Ht & Hb) Hi Hnone. unfold getSnippetVector, no_entry_error.
  rewrite Ht, Hb, Hi. unfold property. rewrite Hnone.
  by destruct (inherited i).
Qed.

Lemma score_loop_app queryVector index before after :
  score_loop queryVector index (before ++ after) =
    match score_loop queryVector index before with
    | Err e => Err e
    | Ok l1 =>
        match score_loop queryVector index after with
        | Err e => Err e
        | Ok l2 => Ok (l1 ++ l2)
        end
    end.
Proof.
  induction before as [|[x a] before IH]; simpl.
  - by destruct (score_loop queryVector index after).
  - destruct (getSnippetVector index x); [|done].
    destruct (VectorMath.getCosineSimilarity queryVector a0); [|done].
    rewrite IH. destruct (score_loop queryVector index before); [|done].
    by destruct (score_loop queryVector index after).
Qed.

Lemma score_loop_fails_on queryVector index items x a e :
  (x, a) ∈ items -> getSnippetVector index x = Err e ->
  is_ok (score_loop queryVector index items) = false.
Proof.
  intros Hin Hx. induction items as [|[y b] items IH];
    [by apply elem_of_nil in Hin|]. simpl.
  apply elem_of_cons in Hin as [[= <- <-] | Hin].
  - by rewrite Hx.
  - destruct (getSnippetVector index y); [|done].
    destruct (VectorMath.getCosineSimilarity queryVector a0); [|done].
    specialize (IH Hin).
    by destruct (score_loop queryVector index items).
Qed.

(** C6, as the code has it.  A snippet (with an id and a text) whose id
    has no entry makes [getSnippetVector] throw: the missing-embedding
    error when the id names no property that objects inherit, the error
    of [toVector] when it does.  The read depends on nothing but that
    entry of the in-memory index; the scoring loop throws on reaching
    the snippet instead of passing over it, so ranking a set that
    contains it never returns; and a whole [rankSnippets] call leaves
    the index as it is and sends at most the query's own embedding
    request. *)
Theorem getSnippetVector_missing_entry
    (index : Index) (x : Snippet) (i : string) :
  has_text x -> truthy_id x = Some i -> index !! i = None ->
  (exists e, getSnippetVector index x = Err e) /\
  (inherited i = false ->
   getSnippetVector index x = Err (msg_missing i) /\
   MissingEmbedding (msg_missing i)) /\
  (inherited i = true -> getSnippetVector index x = Err msg_vector_data) /\
  (forall index2 : Index,
     index2 !! i = index !! i ->
     getSnippetVector index2 x = getSnippetVector index x) /\
  (forall queryVector before a after,
     is_ok (score_loop queryVector index before) = true ->
     score_loop queryVector index (before ++ (x, a) :: after)
       = Err (no_entry_error i)) /\
  (forall queryVector items a,
     (x, a) ∈ items -> is_ok (score_loop queryVector index items) = false) /\
  (forall query_reply q s a,
     embeddingsIndex s = index -> (x, a) ∈ getAllSnippetItems s ->
     is_ok (rankSnippets query_reply q s).1 = false /\
     embeddingsIndex (rankSnippets query_reply q s).2 = index /\
     (sent (rankSnippets query_reply q s).2 = sent s \/
      sent (rankSnippets query_reply q s).2 = sent s ++ [EmbedQuery q])).
Proof.
  intros Htext Hid Hnone.
  pose proof (getSnippetVector_absent _ _ _ Htext Hid Hnone) as Hget.
  split_and!.
  - eauto.
  - intros Hinh. unfold no_entry_error in Hget. rewrite Hinh in Hget.
    split; [done | by exists i].
  - intros Hinh. unfold no_entry_error in Hget. by rewrite Hinh in Hget.
  - intros index2 Heq. rewrite Hget. apply getSnippetVector_absent; try done.
    by rewrite Heq.
  - intros qv before a after Hok. rewrite score_loop_app.
    destruct (score_loop qv index before); [|done]. simpl. by rewrite Hget.
  - intros qv items a Hin. by eapply score_loop_fails_on.
  - intros query_reply q s a <- Hin. unfold rankSnippets.
    destruct (getAllSnippetItems s) as [|p items] eqn:Hall;
      [by apply elem_of_nil in Hin|].
    unfold embedQuery. destruct (blank q); unfold throw; cbn [fst snd].
    + auto.
    + split_and!; [|done|by right]. unfold rank_with.
      destruct (query_vector_of_reply (query_reply q)) as [qv|]; [|done].
      cbn [sendRuntimeMessage embeddingsIndex].
      pose proof (score_loop_fails_on qv _ _ _ _ _ Hin Hget) as Hfail.
      by destruct (score_loop qv (embeddingsIndex s) (p :: items)).
Qed.

Lemma getSnippetVector_missing_entry_witness :
  let x := mkSnippet (Some "x") (Some (utf16 "kept")) in
  has_text x /\
  (exists e, getSnippetVector ∅ x = Err e /\ MissingEmbedding e) /\
  getSnippetVector ∅ x = Err "Missing embedding for snippet x.".
Proof.
  intros x.
  assert (Htext : has_text x) by (by exists (utf16 "kept")).
  split; [exact Htext|].
  destruct (getSnippetVector_missing_entry ∅ x "x" Htext eq_refl
              (lookup_empty "x"))
    as (_ & H2 & _).
  destruct (H2 eq_refl) as [H3 H4].
  split; [by exists (msg_missing "x") | exact H3].
Defined.

(** C6 as stated fails where the id names a property that every object
    inherits: the cache has no entry for ["constructor"], yet the read
    finds the inherited function and throws the error of [toVector],
    which is not the missing-embedding error. *)
Lemma getSnippetVector_inherited_name :
  let x := mkSnippet (Some "constructor") (Some (utf16 "kept")) in
  has_text x /\ truthy_id x = Some "constructor" /\
  (∅ : Index) !! "constructor" = None /\
  getSnippetVector ∅ x = Err "Embedding output is missing vector data." /\
  ~ MissingEmbedding "Embedding output is missing vector data.".
Proof.
  intros x. split_and!; try done.
  - by exists (utf16 "kept").
  - intros [i Hi]. discriminate Hi.
Qed.

(** The text is checked before the index is read: a snippet whose text
    is a no-break space has no vector, entry or not. *)
Example getSnippetVector_blank_text :
  getSnippetVector {["a" := [1; 0]%float]}
    (mkSnippet (Some "a") (Some [0xA0]%N))
  = Err "Snippet text is required for embeddings.".
Proof. reflexivity. Qed.

(** The steps of a search over areas that hold no snippet. *)
Lemma filterSnippets_no_local (s : State) :
  blank (search_input s) = false -> snippets_local s = [] ->
  filterSnippets s =
    (Some (mkTask (S (searchToken s)) (trim (search_input s))
             (AfterEnsure area_local (Ok tt))),
     setStatus "Preparing embeddings..." "loading"
       (set_token (S (searchToken s)) s)).
Proof.
  intros Hq Hl. unfold blank in Hq. unfold filterSnippets. rewrite Hq.
  unfold start_ensure, ensureMissing_start.
  cbn [snippetsByArea setStatus set_token snippets_local]. by rewrite Hl.
Qed.

Lemma resume_no_sync (t : Task) (s : State) :
  pc t = AfterEnsure area_local (Ok tt) -> snippets_sync s = [] ->
  resume t Tick s = Some (at_pc t (AfterEnsure area_sync (Ok tt)), s).
Proof.
  intros Hpc Hs. unfold resume. rewrite Hpc.
  unfold start_ensure, ensureMissing_start. cbn [snippetsByArea].
  by rewrite Hs.
Qed.

Lemma resume_rank_nothing (t : Task) (s : State) :
  pc t = AfterEnsure area_sync (Ok tt) -> requestId t = searchToken s ->
  snippets_local s = [] -> snippets_sync s = [] ->
  resume t Tick s =
    Some (at_pc t (AfterRank (Ok [])), setStatus "Searching..." "loading" s).
Proof.
  intros Hpc Htok Hl Hs. unfold resume. rewrite Hpc.
  rewrite decide_False by (intros H; by apply H).
  unfold start_rank, getAllSnippetItems, areas.
  cbn. by rewrite Hl, Hs.
Qed.

Lemma resume_show_nothing (t : Task) (s : State) :
  pc t = AfterRank (Ok []) -> requestId t = searchToken s ->
  resume t Tick s =
    Some (at_pc t (Settled (Done [])),
          renderEmptyState "No matches in local or synced snippets."
            (set_title "Search results" (setStatus "" "idle" s))).
Proof.
  intros Hpc Htok. unfold resume. rewrite Hpc. unfold show_ranked.
  by rewrite decide_False by (intros H; by apply H).
Qed.

(** C10. With no snippet in any area, [rankSnippets] returns the empty
    list at once: the state is unchanged, so no message was sent and the
    query was not embedded.  The same holds for a whole search: typing a
    query that is not blank ends, after the three resumptions of
    [filterSnippets], with the empty ranking displayed and nothing
    sent. *)
Theorem rankSnippets_no_snippets_no_embedding
    (query_reply : Text -> Reply) (q : Text) (s : State) :
  snippets_local s = [] -> snippets_sync s = [] ->
  rankSnippets query_reply q s = (Ok [], s) /\
  (blank q = false ->
   exists s' t,
     run [Input q; Resume 0 Tick; Resume 0 Tick; Resume 0 Tick] (s, [])
       = Some (s', [t]) /\
     pc t = Settled (Done []) /\
     sent s' = sent s /\
     embeddingsIndex s' = embeddingsIndex s /\
     listing s' = EmptyState "No matches in local or synced snippets.").
Proof.
  intros Hl Hs. split.
  - unfold rankSnippets, getAllSnippetItems, areas. cbn. by rewrite Hl, Hs.
  - intros Hq. cbn [run]. step_act.
    rewrite filterSnippets_no_local by done. step_act.
    rewrite resume_no_sync by done. step_act.
    rewrite resume_rank_nothing by done. step_act.
    rewrite resume_show_nothing by done. step_act.
    eexists _, _. split; [reflexivity|]. done.
Qed.

Lemma rankSnippets_no_snippets_no_embedding_witness :
  let s := mkState [] [] area_local ∅ 0 [] ("", "idle") "Local snippets"
             (EmptyState "") [] [] [] in
  rankSnippets (fun _ => NoResponse) (utf16 "cats") s = (Ok [], s) /\
  exists s' t,
    run [Input (utf16 "cats"); Resume 0 Tick; Resume 0 Tick; Resume 0 Tick] (s, [])
      = Some (s', [t]) /\
    pc t = Settled (Done []) /\
    sent s' = [] /\
    listing s' = EmptyState "No matches in local or synced snippets.".
Proof.
  intros s.
  destruct (rankSnippets_no_snippets_no_embedding (fun _ => NoResponse)
              (utf16 "cats") s eq_refl eq_refl) as [Hrank Hrun].
  split; [exact Hrank|].
  destruct (Hrun eq_refl) as (s' & t & H1 & H2 & H3 & _ & H5).
  exists s', t. split; [exact H1|]. split; [exact H2|].
  split; [exact H3 | exact H5].
Defined.

(** *** Moving a snippet *)

Lemma findIndex_lookup i l n :
  findIndex i l = Some n -> exists x, l !! n = Some x /\ id x = Some i.
Proof.
  revert n. induction l as [|y l IH]; intros n; simpl; [done|].
  destruct (decide (id y = Some i)) as [Hy | Hy].
  - intros [= <-]. eauto.
  - destruct (findIndex i l) as [m|]; [|done].
    intros [= <-]. by apply IH.
Qed.

Lemma findIndex_found i l x :
  x ∈ l -> id x = Some i -> is_Some (findIndex i l).
Proof.
  intros Hin Hx. induction l as [|y l IH]; [by apply elem_of_nil in Hin|].
  simpl. destruct (decide (id y = Some i)); [eauto|].
  apply elem_of_cons in Hin as [-> | Hin]; [done|].
  destruct (IH Hin) as [m ->]. eauto.
Qed.

Section Move.

Variable snippets_set_error : Area -> list Snippet -> option string.
Variable storage_info_error : Area -> option string.

Local Abbreviation updateDisplay :=
  (Popup.updateDisplay storage_info_error).
Local Abbreviation moveSnippet :=
  (Popup.moveSnippet snippets_set_error storage_info_error).

Lemma updateDisplay_frame s :
  cache_frame s (updateDisplay s).2 /\
  snippets_local (updateDisplay s).2 = snippets_local s /\
  snippets_sync (updateDisplay s).2 = snippets_sync s.
Proof.
  unfold Popup.updateDisplay, cache_frame, mbind, M_bind, modify, get,
    updateStorageInfo, throw, mret, M_ret.
  cbn. destruct (storage_info_error (activeArea s)); cbn; [done|].
  unfold displaySnippets.
  by destruct (unranked (activeArea s) _).
Qed.

Lemma saveSnippetsForArea_frame a l s :
  cache_frame s (saveSnippetsForArea snippets_set_error a l s).2 /\
  snippets_local (saveSnippetsForArea snippets_set_error a l s).2
    = snippets_local s /\
  snippets_sync (saveSnippetsForArea snippets_set_error a l s).2
    = snippets_sync s /\
  activeArea (saveSnippetsForArea snippets_set_error a l s).2
    = activeArea s.
Proof.
  unfold saveSnippetsForArea, cache_frame.
  by destruct (snippets_set_error a l).
Qed.

(** Whatever its outcome, a move leaves the cache alone. *)
Lemma moveSnippet_frame a i targetArea s :
  cache_frame s (moveSnippet a i targetArea s).2.
Proof.
  unfold Popup.moveSnippet.
  destruct (decide (targetArea = a)); [done|].
  unfold mbind, M_bind, get, lift, throw, modify. cbn [fst snd].
  destruct (getSnippetIndex s a i) as [index|]; [|done].
  destruct (snippetsByArea s a !! index) as [x|]; [|done].
  destruct (bool_decide _); [done|].
  set (s1 := set_snippets targetArea _ (set_snippets a _ s)).
  assert (H1 : cache_frame s s1) by done.
  destruct (saveSnippetsForArea_frame a
              (delete index (snippetsByArea s a)) s1) as (H2 & _).
  destruct (saveSnippetsForArea snippets_set_error a _ s1)
    as [[[]|] s2]; [|unfold cache_frame in *; cbn in *; by intuition congruence].
  destruct (saveSnippetsForArea_frame targetArea
              (snippetsByArea s targetArea ++ [x]) s2) as (H3 & _).
  destruct (saveSnippetsForArea snippets_set_error targetArea _ s2)
    as [[[]|] s3]; [|unfold cache_frame in *; cbn in *; by intuition congruence].
  destruct (updateDisplay_frame s3) as (H4 & _).
  unfold cache_frame in *; cbn in *. by intuition congruence.
Qed.

(** C8. Moving a snippet that is in the source area and not in the
    (different) target area, with the storage accepting the writes,
    succeeds: the snippet leaves the source list and is appended to the
    target list, the index is the same mapping (so reading the snippet's
    vector gives the same result before and after), and no message is
    sent to the background, hence no embedder call. *)
Theorem moveSnippet_keeps_embedding
    (a targetArea : Area) (i : string) (x : Snippet) (s : State) :
  targetArea <> a -> i <> "" ->
  x ∈ snippetsByArea s a -> id x = Some i ->
  (forall y, y ∈ snippetsByArea s targetArea -> id y <> Some i) ->
  (forall a' l, snippets_set_error a' l = None) ->
  storage_info_error (activeArea s) = None ->
  exists s' index x',
    moveSnippet a i targetArea s = (Ok tt, s') /\
    findIndex i (snippetsByArea s a) = Some index /\
    snippetsByArea s a !! index = Some x' /\ id x' = Some i /\
    snippetsByArea s' a = delete index (snippetsByArea s a) /\
    snippetsByArea s' targetArea = snippetsByArea s targetArea ++ [x'] /\
    embeddingsIndex s' = embeddingsIndex s /\
    (forall y, getSnippetVector (embeddingsIndex s') y
               = getSnippetVector (embeddingsIndex s) y) /\
    sent s' = sent s.
Proof.
  intros Hne Hi Hin Hx Habsent Hset Hinfo.
  destruct (findIndex_found i _ x Hin Hx) as [index Hfind].
  destruct (findIndex_lookup _ _ _ Hfind) as (x' & Hlook & Hx').
  pose proof (moveSnippet_frame a i targetArea s) as (Hf1 & Hf2 & _).
  assert (Hrun : exists s',
    moveSnippet a i targetArea s = (Ok tt, s') /\
    snippetsByArea s' a = delete index (snippetsByArea s a) /\
    snippetsByArea s' targetArea = snippetsByArea s targetArea ++ [x']).
  { unfold Popup.moveSnippet. rewrite decide_False by done.
    unfold mbind, M_bind, get, lift, throw, modify, getSnippetIndex.
    rewrite decide_False by done. rewrite Hfind. cbn [fst snd].
    rewrite Hlook. rewrite bool_decide_eq_false_2.
    2:{ rewrite Exists_exists. intros (y & Hy & Hyx).
        apply (Habsent y Hy). by rewrite Hyx. }
    unfold saveSnippetsForArea. rewrite !Hset.
    unfold Popup.updateDisplay, mbind, M_bind, modify, get,
      updateStorageInfo, mret, M_ret.
    cbn [fst snd]. 
    replace (activeArea _) with (activeArea s) by (by destruct a, targetArea).
    rewrite Hinfo. eexists. split; [reflexivity|].
    destruct a, targetArea; try done; cbn;
      by destruct (unranked _ _). }
  destruct Hrun as (s' & Hrun & Hsrc & Hdst).
  rewrite Hrun in Hf1, Hf2. cbn in Hf1, Hf2.
  exists s', index, x'. split_and!; try done.
  intros y. by rewrite Hf1.
Qed.

End Move.

End PopupFacts.

(** Snippet ["y"] of [example_unembedded] moves from synced to local. *)
Lemma moveSnippet_keeps_embedding_witness :
  let s := example_unembedded in
  let y := mkSnippet (Some "y") (Some (utf16 "gone")) in
  y ∈ Popup.snippetsByArea s Popup.area_sync /\
  exists s',
    Popup.moveSnippet (fun _ _ => None) (fun _ => None)
      Popup.area_sync "y" Popup.area_local s = (Ok tt, s') /\
    Popup.snippetsByArea s' Popup.area_local
      = [mkSnippet (Some "x") (Some (utf16 "kept")); y] /\
    Popup.snippetsByArea s' Popup.area_sync = [] /\
    Popup.embeddingsIndex s' = Popup.embeddingsIndex s /\
    Popup.getSnippetVector (Popup.embeddingsIndex s') y
      = Popup.getSnippetVector (Popup.embeddingsIndex s) y /\
    Popup.sent s' = [].
Proof.
  intros s y.
  assert (Hin : y ∈ Popup.snippetsByArea s Popup.area_sync)
    by (by apply list_elem_of_singleton).
  split; [exact Hin|].
  destruct (moveSnippet_keeps_embedding (fun _ _ => None) (fun _ => None)
              Popup.area_sync Popup.area_local "y" y s)
    as (s' & index & x' & Hrun & Hfind & Hlook & _ & Hsrc & Hdst & Hidx
        & Hvec & Hsent); try done.
  { intros z [->|[]%elem_of_nil]%elem_of_cons. done. }
  exists s'. injection Hfind as <-. injection Hlook as <-.
  split; [exact Hrun|]. split; [exact Hdst|]. split; [exact Hsrc|].
  split; [exact Hidx|]. split; [apply Hvec | exact Hsent].
Defined.

(** ** The offscreen embedder *)

Section OffscreenFacts.
Import Offscreen.

Variable runtime_error : option string.

Local Abbreviation step := (Offscreen.step runtime_error).
Local Abbreviation run := (Offscreen.run runtime_error).

Lemma run_app evs1 evs2 s : run (evs1 ++ evs2) s = run evs2 (run evs1 s).
Proof. unfold Offscreen.run. apply foldl_app. Qed.

(** The end of an embedder's call touches neither the promise nor the
    awaiters of the initialisation. *)
Lemma inferred_step s k r :
  embedderPromise (step s (Inferred k r)) = embedderPromise s /\
  attempts (step s (Inferred k r)) = attempts s /\
  waiting (step s (Inferred k r)) = waiting s.
Proof. cbn. by destruct (inferring s !! k). Qed.

(** Once the promise exists, a call reuses it. *)
Lemma request_reuses_promise s t :
  is_Some (embedderPromise s) ->
  attempts (step s (Request t)) = attempts s /\
  embedderPromise (step s (Request t)) = embedderPromise s.
Proof.
  intros [p Hp]. cbn. unfold handleEmbedText, getEmbedder.
  destruct (blank t); [done|]. rewrite Hp. by destruct p.
Qed.

Lemma step_memo_inv s ev : memo_inv s -> memo_inv (step s ev).
Proof.
  intros [(Hnone & Hzero & Hw) | (Hsome & Hone)].
  - destruct ev as [t | missing | r | k r]; cbn.
    + unfold handleEmbedText, getEmbedder. rewrite Hnone.
      destruct (blank t); [by left|].
      right. destruct runtime_error; cbn; rewrite Hzero; eauto.
    + rewrite Hnone. by left.
    + rewrite Hnone. by left.
    + destruct (inferring s !! k); by left.
  - right. destruct ev as [t | missing | r | k r].
    + destruct (request_reuses_promise s t Hsome) as [-> ->]. done.
    + cbn. destruct Hsome as [p Hp]. rewrite Hp.
      destruct p; try (split; [eauto | done]).
      destruct missing; cbn; eauto.
    + cbn. destruct Hsome as [p Hp]. rewrite Hp.
      destruct p; try (split; [eauto | done]).
      destruct r; cbn; eauto.
    + destruct (inferred_step s k r) as (-> & -> & _). done.
Qed.

Lemma run_memo_inv evs : forall s, memo_inv s -> memo_inv (run evs s).
Proof.
  induction evs as [|ev evs IH]; intros s Hs; [done|].
  cbn. apply IH. by apply step_memo_inv.
Qed.

(** A rejected promise stays: no event changes it or starts anything. *)
Lemma rejected_step s ev e :
  embedderPromise s = Some (Rejected e) ->
  embedderPromise (step s ev) = Some (Rejected e) /\
  attempts (step s ev) = attempts s.
Proof.
  intros Hp. destruct ev as [t | missing | r | k r]; cbn.
  - unfold handleEmbedText, getEmbedder. destruct (blank t); [done|].
    by rewrite Hp.
  - by rewrite Hp.
  - by rewrite Hp.
  - by destruct (inferring s !! k).
Qed.

Lemma rejected_run evs : forall s e,
  embedderPromise s = Some (Rejected e) ->
  embedderPromise (run evs s) = Some (Rejected e) /\
  attempts (run evs s) = attempts s.
Proof.
  induction evs as [|ev evs IH]; intros s e Hp; [done|].
  destruct (rejected_step s ev e Hp) as [Hp' Ha].
  destruct (IH _ _ Hp') as [H1 H2].
  split; [exact H1 | rewrite <- Ha; exact H2].
Qed.

Lemma request_while_pending s t :
  blank t = false -> pending s ->
  step s (Request t) =
    mkState (embedderPromise s) (attempts s) (waiting s ++ [t])
      (inferring s) (answered s).
Proof.
  intros Hb Hp. cbn [Offscreen.step]. unfold handleEmbedText, getEmbedder.
  rewrite Hb. destruct Hp as [Hp | Hp]; rewrite Hp; cbn; by rewrite Hp.
Qed.

Lemma request_after_rejection s t e :
  blank t = false -> embedderPromise s = Some (Rejected e) ->
  step s (Request t) =
    mkState (Some (Rejected e)) (attempts s) (waiting s) (inferring s)
      (answered s ++ [(t, Err e)]).
Proof.
  intros Hb Hp. cbn [Offscreen.step]. unfold handleEmbedText, getEmbedder.
  rewrite Hb, Hp. unfold respond. cbn. by rewrite Hp.
Qed.

Lemma rejection_reaches_awaiters s ev e :
  pending s -> embedderPromise (step s ev) = Some (Rejected e) ->
  answered (step s ev) = answered s ++ ((fun t => (t, Err e)) <$> waiting s)
  /\ waiting (step s ev) = [].
Proof.
  intros Hpend. destruct ev as [t | missing | r | k r].
  - destruct (request_reuses_promise s t) as [_ ->].
    { destruct Hpend as [-> | ->]; eauto. }
    destruct Hpend as [-> | ->]; done.
  - cbn [Offscreen.step].
    destruct Hpend as [Hp | Hp]; rewrite Hp; [|by rewrite Hp].
    destruct missing as [file|]; [|done]. cbn. by intros [= <-].
  - cbn [Offscreen.step].
    destruct Hpend as [Hp | Hp]; rewrite Hp; [by rewrite Hp|].
    destruct r as [[]|e']; [done|]. cbn. by intros [= <-].
  - destruct (inferred_step s k r) as (-> & _ & _).
    destruct Hpend as [-> | ->]; done.
Qed.

(** C9, as the code has it.  Along any sequence of requests and
    settlements from the start: one initialisation at most is ever
    started; while it is in flight a further request joins its awaiters
    and starts nothing; when it fails, every awaiter is answered with
    that failure; and the failure stays memoized, so every later request
    is answered with the same failure and still nothing is started. *)
Theorem getEmbedder_memoizes_initialization (evs : list Event) :
  attempts (run evs initial) <= 1 /\
  (forall t, blank t = false -> pending (run evs initial) ->
     step (run evs initial) (Request t) =
       mkState (embedderPromise (run evs initial))
         (attempts (run evs initial))
         (waiting (run evs initial) ++ [t])
         (inferring (run evs initial))
         (answered (run evs initial))) /\
  (forall ev e, pending (run evs initial) ->
     embedderPromise (step (run evs initial) ev) = Some (Rejected e) ->
     answered (step (run evs initial) ev)
       = answered (run evs initial)
         ++ ((fun t => (t, Err e)) <$> waiting (run evs initial)) /\
     waiting (step (run evs initial) ev) = []) /\
  (forall e later t, embedderPromise (run evs initial) = Some (Rejected e) ->
     blank t = false ->
     attempts (run (later ++ [Request t]) (run evs initial))
       = attempts (run evs initial) /\
     embedderPromise (run (later ++ [Request t]) (run evs initial))
       = Some (Rejected e) /\
     answered (run (later ++ [Request t]) (run evs initial))
       = answered (run later (run evs initial)) ++ [(t, Err e)]).
Proof.
  assert (Hinv : memo_inv (run evs initial)).
  { apply run_memo_inv. left. done. }
  split_and!.
  - destruct Hinv as [(_ & -> & _) | (_ & ->)]; lia.
  - intros t Hb Hpend. by apply request_while_pending.
  - intros ev e Hpend Hrej. by apply rejection_reaches_awaiters.
  - intros e later t Hrej Hb. rewrite run_app.
    destruct (rejected_run later _ e Hrej) as [Hp Ha].
    change (run [Request t] ?s) with (step s (Request t)).
    rewrite (request_after_rejection _ t e Hb Hp). done.
Qed.

End OffscreenFacts.

(** C9 as stated fails on its last clause: nothing resets
    [embedderPromise], so after a failed initialisation the next call
    starts no fresh attempt.  A model asset is missing at the first
    request; the second request is answered with the same error and the
    number of initialisations started is still one.  No state with a
    rejected promise lets a request start one. *)
Lemma failed_initialization_is_never_retried :
  (let s := Offscreen.run None
              [Offscreen.Request (utf16 "first");
               Offscreen.AssetsChecked (Some "onnx/model.onnx");
               Offscreen.Request (utf16 "second")] Offscreen.initial in
   Offscreen.attempts s = 1 /\
   Offscreen.embedderPromise s
     = Some (Offscreen.Rejected "Missing local model asset: onnx/model.onnx") /\
   Offscreen.answered s =
     [(utf16 "first", Err "Missing local model asset: onnx/model.onnx");
      (utf16 "second", Err "Missing local model asset: onnx/model.onnx")]) /\
  ~ (exists runtime_error s t,
       Offscreen.failed s /\
       Offscreen.attempts (Offscreen.step runtime_error s (Offscreen.Request t))
         <> Offscreen.attempts s).
Proof.
  split; [by vm_compute|].
  intros (runtime_error & s & t & [e He] & Hne). apply Hne.
  by apply rejected_step with (e := e).
Qed.

(** Three requests share one initialisation; once it has succeeded each
    calls the embedder, and each is answered with its own vector when
    that call ends. *)
Example embedder_shared_while_loading :
  let s := Offscreen.run None
             [Offscreen.Request (utf16 "first");
              Offscreen.Request (utf16 "second");
              Offscreen.AssetsChecked None;
              Offscreen.Request (utf16 "third");
              Offscreen.PipelineSettled (Ok tt)] Offscreen.initial in
  let s' := Offscreen.run None
              [Offscreen.Inferred 1 (Ok (Offscreen.TensorData [0; 1]%float));
               Offscreen.Inferred 0 (Ok (Offscreen.TensorData [1; 0]%float))]
              s in
  Offscreen.attempts s = 1 /\
  Offscreen.inferring s = [utf16 "first"; utf16 "second"; utf16 "third"] /\
  Offscreen.answered s = [] /\
  Offscreen.inferring s' = [utf16 "third"] /\
  Offscreen.answered s' =
    [(utf16 "second", Ok [0; 1]%float); (utf16 "first", Ok [1; 0]%float)].
Proof. by vm_compute. Qed.

(** ** The search controller *)

Section SearchFacts.
Import Popup.

Lemma start_ensure_spec a t s :
  same_results s (start_ensure a t s).2 /\
  requestId (start_ensure a t s).1 = requestId t /\
  ~ is_settled (pc (start_ensure a t s).1) /\
  (status (start_ensure a t s).2 = status s \/
   status (start_ensure a t s).2 = ("Preparing embeddings...", "loading")).
Proof.
  unfold start_ensure, ensureMissing_start, same_results.
  destruct (snippetsByArea s a) as [|x l];
    [split_and!; auto; by intros [o Ho]|].
  destruct (collect_missing (embeddingsIndex s) (x :: l)) as [[|y m]|e];
    cbn; split_and!; auto; by intros [o Ho].
Qed.

Lemma start_rank_spec t s :
  same_results s (start_rank t s).2 /\
  requestId (start_rank t s).1 = requestId t /\
  ~ is_settled (pc (start_rank t s).1) /\
  status (start_rank t s).2 = status s.
Proof.
  unfold start_rank, same_results.
  destruct (getAllSnippetItems s) as [|x l];
    [split_and!; auto; by intros [o Ho]|].
  destruct (blank (query t)); cbn; split_and!; auto; by intros [o Ho].
Qed.

Lemma ensureMissing_loaded_spec missing ld s :
  same_results s (ensureMissing_loaded missing ld s).2 /\
  (status (ensureMissing_loaded missing ld s).2 = status s \/
   status (ensureMissing_loaded missing ld s).2 = ("", "idle")).
Proof.
  unfold ensureMissing_loaded, same_results.
  destruct (index_of_load ld) as [index|e]; [|by split_and!; auto].
  destruct (filter _ missing); cbn; split_and!; auto.
Qed.

(** Every resumption keeps the token, the request's id and the
    snippets, and only an unsettled call resumes. *)
Lemma resume_keeps t ev s t' s' :
  resume t ev s = Some (t', s') ->
  searchToken s' = searchToken s /\ requestId t' = requestId t /\
  snippets_local s' = snippets_local s /\
  snippets_sync s' = snippets_sync s /\
  ~ is_settled (pc t).
Proof.
  intros H.
  assert (Hns : ~ is_settled (pc t)).
  { intros [o Ho]. unfold resume in H. rewrite Ho in H. by destruct ev. }
  split_and!; try done; clear Hns; resume_cases t ev H.
  all: try (destruct (check_ensure_reply r'); by injection H as <- <-).
  all: try (destruct (ensureMissing_loaded_spec m ld s)
              as ((_ & _ & ? & ? & ?) & _);
            destruct (ensureMissing_loaded m ld s);
            by injection H as <- <-).
  all: try (destruct (start_ensure_spec area_sync t s)
              as ((_ & _ & ? & ? & ?) & ? & _);
            injection H as H; by rewrite H in * ).
  all: try (unfold on_error in H;
            destruct (decide (requestId t ≠ searchToken s));
            by injection H as <- <-).
  all: try (by injection H as <- <-).
  all: try (unfold show_ranked in H;
            destruct (decide (requestId t ≠ searchToken s));
            injection H as <- <-; [done | by destruct ranked]).
  all: destruct (decide (requestId t ≠ searchToken s));
         [by injection H as <- <-|];
       destruct (start_rank_spec t (setStatus "Searching..." "loading" s))
         as ((_ & _ & ? & ? & ?) & ? & _);
       injection H as H; by rewrite H in *.
Qed.

(** A resumption of a call that lost the token: the results shown and the
    title stay, the call can only end superseded, and the status line is
    never turned into an error. *)
Lemma resume_stale t ev s t' s' :
  requestId t <> searchToken s ->
  resume t ev s = Some (t', s') ->
  listing s' = listing s /\ title s' = title s /\
  (forall o, pc t' = Settled o -> o = Superseded) /\
  ((status s').2 = "error" -> status s' = status s).
Proof.
  intros Hstale H. resume_cases t ev H.
  - destruct (check_ensure_reply r'); injection H as <- <-; done.
  - destruct (ensureMissing_loaded_spec m ld s)
      as ((? & ? & _) & [Hst | Hst]);
    destruct (ensureMissing_loaded m ld s); injection H as <- <-;
      cbn in *; split_and!; try done; rewrite Hst; done.
  - destruct (start_ensure_spec area_sync t s)
      as ((? & ? & _) & _ & Hns & [Hst | Hst]);
    injection H as H; rewrite H in *; cbn in *;
      split_and!; try done;
      try (intros o Ho; exfalso; apply Hns; by exists o);
      rewrite Hst; done.
  - unfold on_error in H. is_stale. injection H as <- <-.
    split_and!; try done. by intros o [= <-].
  - is_stale. injection H as <- <-.
    split_and!; try done. by intros o [= <-].
  - unfold on_error in H. is_stale. injection H as <- <-.
    split_and!; try done. by intros o [= <-].
  - injection H as <- <-. done.
  - injection H as <- <-. done.
  - unfold show_ranked in H. is_stale.
    injection H as <- <-. split_and!; try done. by intros o [= <-].
  - unfold on_error in H. is_stale.
    injection H as <- <-. split_and!; try done. by intros o [= <-].
Qed.

(** A resumption of the call that holds the token: it alone shows a
    ranking, and it alone reports an error, both as it settles. *)
Lemma resume_current t ev s t' s' :
  requestId t = searchToken s ->
  resume t ev s = Some (t', s') ->
  match pc t' with
  | Settled (Done ranked) =>
      listing s' = shown ranked /\ title s' = "Search results"
  | _ => listing s' = listing s /\ title s' = title s
  end /\
  ((status s').2 = "error" ->
   (exists e, pc t' = Settled (Failed e) /\ status s' = (e, "error")) \/
   status s' = status s).
Proof.
  intros Hcur H. resume_cases t ev H.
  - destruct (check_ensure_reply r'); injection H as <- <-; cbn; auto.
  - destruct (ensureMissing_loaded_spec m ld s)
      as ((? & ? & _) & [Hst | Hst]);
    destruct (ensureMissing_loaded m ld s); injection H as <- <-;
      cbn in *; (split; [done|]); rewrite Hst; intros Herr;
      (discriminate Herr || auto).
  - destruct (start_ensure_spec area_sync t s)
      as ((? & ? & _) & _ & Hns & [Hst | Hst]);
    injection H as H; rewrite H in *; cbn in *;
      (split; [|rewrite Hst; intros Herr; (discriminate Herr || auto)]);
      destruct (pc t') as [| | | | | |o']; try done;
      exfalso; apply Hns; by exists o'.
  - unfold on_error in H. not_stale. injection H as <- <-. cbn.
    split; [done|]. intros _. left. by exists e.
  - not_stale.
    destruct (start_rank_spec t (setStatus "Searching..." "loading" s))
      as ((? & ? & _) & _ & Hns & Hst).
    injection H as H; rewrite H in *; cbn in *. split.
    + destruct (pc t') as [| | | | | |o']; try done.
      exfalso. apply Hns. by exists o'.
    + rewrite Hst. done.
  - unfold on_error in H. not_stale. injection H as <- <-. cbn.
    split; [done|]. intros _. left. by exists e.
  - injection H as <- <-. cbn. auto.
  - injection H as <- <-. cbn. auto.
  - unfold show_ranked in H. not_stale.
    injection H as <- <-. destruct ranked; cbn; (split; [done|]);
      intros Herr; discriminate Herr.
  - unfold on_error in H. not_stale. injection H as <- <-. cbn.
    split; [done|]. intros _. left. by exists e.
Qed.

(** [filterSnippets] on a query that is not blank: it takes the next
    token and leaves the results as they are. *)
Lemma filterSnippets_issues s :
  blank (search_input s) = false ->
  exists t s',
    filterSnippets s = (Some t, s') /\
    requestId t = S (searchToken s) /\
    searchToken s' = S (searchToken s) /\
    ~ is_settled (pc t) /\
    status s' = ("Preparing embeddings...", "loading") /\
    listing s' = listing s /\ title s' = title s.
Proof.
  intros Hq. unfold blank in Hq. unfold filterSnippets. rewrite Hq.
  set (t0 := mkTask _ _ _). set (s0 := setStatus _ _ _).
  destruct (start_ensure_spec area_local t0 s0)
    as ((H1 & H2 & H3 & _) & H4 & H5 & H6).
  destruct (start_ensure area_local t0 s0) as [t s'] eqn:Hstart.
  exists t, s'. cbn in *. split_and!; try done.
  by destruct H6 as [-> | ->].
Qed.

Lemma filterSnippets_blank s :
  blank (search_input s) = true ->
  (filterSnippets s).1 = None /\
  searchToken (filterSnippets s).2 = searchToken s.
Proof.
  intros Hq. unfold blank in Hq. unfold filterSnippets. rewrite Hq.
  cbn. unfold displaySnippets. by destruct (unranked _ _).
Qed.

Lemma act_issued sys a sys' :
  act sys a = Some sys' -> issued sys -> issued sys'.
Proof.
  destruct sys as [s pool]. unfold issued. cbn [fst snd].
  destruct a as [value | k ev]; cbn [act].
  - destruct (blank value) eqn:Hq.
    + destruct (filterSnippets_blank (set_input value s) Hq) as [H1 H2].
      destruct (filterSnippets (set_input value s)) as [[t|] s1];
        [done|]. intros [= <-] Hall. cbn in *. by rewrite H2.
    + destruct (filterSnippets_issues (set_input value s) Hq)
        as (t & s1 & -> & H1 & H2 & _).
      intros [= <-] Hall. cbn in *. apply Forall_app. split.
      * eapply Forall_impl; [exact Hall|]. intros t0 Ht0. cbn in *. lia.
      * repeat constructor. cbn. lia.
  - destruct (pool !! k) as [t|] eqn:Hk; [|done]. cbn.
    destruct (resume t ev s) as [[t' s1]|] eqn:Hres; [|done]. cbn.
    intros [= <-] Hall. cbn.
    destruct (resume_keeps _ _ _ _ _ Hres) as (H1 & H2 & _).
    rewrite H1. apply Forall_insert; [done|].
    rewrite H2. by eapply (Forall_lookup_1 _ _ _ _ Hall).
Qed.

Lemma run_issued actions : forall sys sys',
  run actions sys = Some sys' -> issued sys -> issued sys'.
Proof.
  induction actions as [|a actions IH]; intros sys sys'; cbn [run].
  - by intros [= <-].
  - destruct (act sys a) as [sys1|] eqn:Hact; [|done]. cbn.
    intros Hrun Hi. eapply IH; [exact Hrun|]. by eapply act_issued.
Qed.

Lemma resume_overlap_inv pool0 s1 sys k ev sys' :
  act sys (Resume k ev) = Some sys' ->
  overlap_inv pool0 s1 sys -> overlap_inv pool0 s1 sys'.
Proof.
  destruct sys as [s pool]. cbn [act].
  destruct (pool !! k) as [tk|] eqn:Hk; [|done]. cbn.
  destruct (resume tk ev s) as [[tk' s']|] eqn:Hres; [|done]. cbn.
  intros [= <-] (olds & t & Hpool & Htok & Hid & Hold & Hshow & Hrep).
  cbn [fst snd] in *. subst pool.
  destruct (resume_keeps _ _ _ _ _ Hres) as (Htok' & Hid' & _ & _ & Hns).
  destruct (decide (k < length olds)) as [Hlt | Hge].
  - (* an older call resumes *)
    rewrite lookup_app_l in Hk by done.
    destruct (Forall2_lookup_r _ _ _ _ _ Hold Hk)
      as (t0 & Hk0 & Hid0 & Hstale & _).
    rewrite <- Htok in Hstale.
    destruct (resume_stale _ _ _ _ _ Hstale Hres)
      as (Hl & Hti & Hsup & Hst).
    exists (<[k := tk']> olds), t. cbn [fst snd]. split_and!.
    + by rewrite insert_app_l.
    + congruence.
    + done.
    + rewrite <- (list_insert_id pool0 k t0) by done.
      apply Forall2_insert; [done|].
      split_and!; [congruence | rewrite Hid', <- Htok; done | by right].
    + unfold newest_shows in *. destruct (pc t) as [| | | | | |[]];
        rewrite ?Hl, ?Hti; done.
    + intros Herr. rewrite (Hst Herr). apply Hrep. by rewrite <- (Hst Herr).
  - (* the newest call resumes *)
    assert (k = length olds) as ->.
    { apply lookup_lt_Some in Hk. rewrite length_app in Hk. simpl in Hk.
      lia. }
    rewrite list_lookup_middle in Hk by done. injection Hk as <-.
    assert (Hcur : requestId t = searchToken s) by congruence.
    destruct (resume_current _ _ _ _ _ Hcur Hres) as (Hshow' & Hrep').
    exists olds, tk'. cbn [fst snd]. split_and!.
    + rewrite insert_app_r_alt by lia. by rewrite Nat.sub_diag.
    + congruence.
    + congruence.
    + done.
    + unfold newest_shows in *.
      destruct (pc t) as [| | | | | |o] eqn:Hpct;
        try (destruct (pc tk') as [| | | | | |[]];
             destruct Hshow, Hshow'; split; congruence).
      exfalso. apply Hns. by exists o.
    + intros Herr. destruct (Hrep' Herr) as [? | Hsame]; [done|].
      exfalso. rewrite Hsame in Herr.
      destruct (Hrep Herr) as (e & He & _). apply Hns. by exists (Failed e).
Qed.

Lemma run_overlap_inv pool0 s1 actions : forall sys sys',
  Forall (fun a => is_resume a = true) actions ->
  run actions sys = Some sys' ->
  overlap_inv pool0 s1 sys -> overlap_inv pool0 s1 sys'.
Proof.
  induction actions as [|a actions IH]; intros sys sys' Hres; cbn [run].
  - by intros [= <-].
  - apply Forall_cons_1 in Hres as [Ha Hres].
    destruct (act sys a) as [sys1|] eqn:Hact; [|done]. cbn.
    intros Hrun Hinv. eapply IH; [done | exact Hrun |].
    destruct a as [v | k ev]; [done|]. by eapply resume_overlap_inv.
Qed.

(** C5, as the code has it.  After any history, let a query that is not
    blank be typed while older calls are in flight, and let the calls
    then resume in any order with any answers.  Every older call keeps a
    token that is no longer the current one and, if it settles, settles
    as superseded: its ranking is never shown and its failure never
    reported.  The list and the title are those of the moment the new
    query was typed until the new call shows its own ranking, and that
    ranking then stays; and the status line reads an error only if the
    new call reported it. *)
Theorem superseded_search_is_discarded
    (history resumes : list Action) (s_init s0 s1 s2 : State)
    (pool0 pool1 pool2 : list Task) (q : Text) :
  run history (s_init, []) = Some (s0, pool0) ->
  blank q = false ->
  act (s0, pool0) (Input q) = Some (s1, pool1) ->
  Forall (fun a => is_resume a = true) resumes ->
  run resumes (s1, pool1) = Some (s2, pool2) ->
  exists olds t,
    pool2 = olds ++ [t] /\
    requestId t = searchToken s2 /\
    Forall2 (outdated (searchToken s2)) pool0 olds /\
    newest_shows s1 s2 t /\
    newest_reports s2 t.
Proof.
  intros Hhist Hq Hact Hres Hrun.
  assert (Hissued : issued (s0, pool0)).
  { eapply run_issued; [exact Hhist|]. constructor. }
  cbn [act] in Hact.
  destruct (filterSnippets_issues (set_input q s0) Hq)
    as (t1 & s1' & Hf & Hid & Htok & Hns & Hst & Hl & Hti).
  rewrite Hf in Hact. injection Hact as <- <-.
  assert (Hinv : overlap_inv pool0 s1' (s1', pool0 ++ [t1])).
  { exists pool0, t1. cbn [fst snd]. split_and!; try done.
    - congruence.
    - apply Forall2_same_length_lookup. split; [done|].
      intros k t0 t0' Hk Hk'. assert (t0' = t0) as -> by congruence.
      split_and!; [done | | by left].
      unfold issued in Hissued. cbn in Hissued.
      pose proof (Forall_lookup_1 _ _ _ _ Hissued Hk) as Hle.
      cbn in Hle, Htok. lia.
    - unfold newest_shows. destruct (pc t1) as [| | | | | |o]; try done.
      exfalso. apply Hns. by exists o.
    - intros Herr. rewrite Hst in Herr. discriminate Herr. }
  pose proof (run_overlap_inv _ _ _ _ _ Hres Hrun Hinv)
    as (olds & t & Hpool & Htok2 & Hid2 & Hold & Hshow & Hrep).
  cbn [fst snd] in *. exists olds, t. rewrite Htok2. done.
Qed.

End SearchFacts.

Lemma superseded_search_is_discarded_witness :
  let sys0 := after [Popup.Input (utf16 "a")] (example_search, []) in
  let sys1 := after [Popup.Input (utf16 "b")] sys0 in
  let sys2 := after newer_first sys1 in
  (Popup.run [Popup.Input (utf16 "a")] (example_search, []) = Some (sys0.1, sys0.2)
   /\ Popup.act (sys0.1, sys0.2) (Popup.Input (utf16 "b")) = Some (sys1.1, sys1.2)
   /\ Popup.run newer_first (sys1.1, sys1.2) = Some (sys2.1, sys2.2)) /\
  exists olds t,
    sys2.2 = olds ++ [t] /\
    Popup.requestId t = Popup.searchToken sys2.1 /\
    Forall2 (outdated (Popup.searchToken sys2.1)) sys0.2 olds /\
    newest_shows sys1.1 sys2.1 t /\
    newest_reports sys2.1 t.
Proof.
  intros sys0 sys1 sys2.
  assert (H0 : Popup.run [Popup.Input (utf16 "a")] (example_search, [])
               = Some (sys0.1, sys0.2)) by (vm_compute; reflexivity).
  assert (H1 : Popup.act (sys0.1, sys0.2) (Popup.Input (utf16 "b"))
               = Some (sys1.1, sys1.2)) by (vm_compute; reflexivity).
  assert (H2 : Popup.run newer_first (sys1.1, sys1.2)
               = Some (sys2.1, sys2.2)) by (vm_compute; reflexivity).
  split; [by split_and!|].
  apply (superseded_search_is_discarded [Popup.Input (utf16 "a")] newer_first
           example_search sys0.1 sys1.1 sys2.1 sys0.2 sys1.2 sys2.2
           (utf16 "b")
           H0 eq_refl H1 ltac:(by repeat constructor) H2).
Defined.

(** How that run ends: "a" superseded, the ranking of "b" on display. *)
Example newer_first_ends :
  let sys2 := after (Popup.Input (utf16 "a") :: Popup.Input (utf16 "b") :: newer_first)
                (example_search, []) in
  Popup.pc <$> sys2.2 =
    [Popup.Settled Popup.Superseded;
     Popup.Settled
       (Popup.Done
          [Popup.mkScored (mkSnippet (Some "x") (Some (utf16 "cats and dogs")))
             Popup.area_local 1])] /\
  Popup.requestId <$> sys2.2 = [1; 2] /\
  Popup.searchToken sys2.1 = 2 /\
  Popup.title sys2.1 = "Search results" /\
  Popup.status sys2.1 = ("", "idle") /\
  Popup.listing sys2.1 =
    Popup.Rows [Popup.mkRow (mkSnippet (Some "x") (Some (utf16 "cats and dogs")))
                  Popup.area_local (Some 1%float)].
Proof. vm_compute. done. Qed.

(** C5 as stated fails on "without causing any state transition": the
    embedding-preparation step of a superseded call is not guarded by the
    token.  Query "b" fails and reports its error; then the answer to the
    superseded query "a" arrives, and "a" replaces the index and resets
    the status line to idle, so the state observed at the end is not the
    one "b" left. *)
Lemma superseded_search_changes_state :
  let sys_b := after newer_fails (example_search, []) in
  let sys_a := after older_resumes sys_b in
  Popup.run newer_fails (example_search, []) = Some sys_b /\
  Popup.run older_resumes sys_b = Some sys_a /\
  Popup.requestId <$> sys_b.2 = [1; 2] /\
  Popup.searchToken sys_b.1 = 2 /\
  (Popup.pc <$> sys_b.2) !! 1
    = Some (Popup.Settled (Popup.Failed "Embedding failed.")) /\
  Popup.status sys_b.1 = ("Embedding failed.", "error") /\
  Popup.embeddingsIndex sys_b.1 !! "x" = None /\
  Popup.status sys_a.1 = ("", "idle") /\
  Popup.status sys_a.1 <> Popup.status sys_b.1 /\
  Popup.embeddingsIndex sys_a.1 !! "x" = Some [1; 0]%float.
Proof. vm_compute. split_and!; done. Qed.

(** ** Ranking *)

(** *** The order of IEEE numbers *)

Lemma SFleb_trans x y z :
  SFleb x y = true -> SFleb y z = true -> SFleb x z = true.
Proof. unfold SFleb, SFcompare. sf_cases; cmp_cases. Qed.

Lemma SFleb_total x y :
  x <> S754_nan -> y <> S754_nan -> SFltb x y = false -> SFleb y x = true.
Proof. unfold SFleb, SFltb, SFcompare. sf_cases; cmp_cases. Qed.

Lemma SFltb_leb x y : SFltb x y = true -> SFleb x y = true.
Proof. unfold SFleb, SFltb. by destruct (SFcompare x y) as [[]|]. Qed.

Lemma SFeqb_not_ltb x y v :
  SFeqb x v = true -> SFeqb y v = true -> SFltb x y = false.
Proof. unfold SFeqb, SFltb, SFcompare. sf_cases; cmp_cases. Qed.

Lemma not_nan_spec (x : float) :
  PrimFloat.is_nan x = false -> Prim2SF x <> S754_nan.
Proof.
  unfold PrimFloat.is_nan. rewrite FloatAxioms.eqb_spec. intros H Hn.
  rewrite Hn in H. discriminate H.
Qed.

Lemma float_leb_trans (x y z : float) :
  (x <=? y)%float = true -> (y <=? z)%float = true -> (x <=? z)%float = true.
Proof. rewrite !FloatAxioms.leb_spec. apply SFleb_trans. Qed.

Lemma float_leb_total (x y : float) :
  PrimFloat.is_nan x = false -> PrimFloat.is_nan y = false ->
  (x <? y)%float = false -> (y <=? x)%float = true.
Proof.
  intros Hx%not_nan_spec Hy%not_nan_spec.
  rewrite FloatAxioms.leb_spec, FloatAxioms.ltb_spec. by apply SFleb_total.
Qed.

Lemma float_ltb_leb (x y : float) :
  (x <? y)%float = true -> (x <=? y)%float = true.
Proof.
  rewrite FloatAxioms.leb_spec, FloatAxioms.ltb_spec. apply SFltb_leb.
Qed.

Lemma float_eqb_not_ltb (x y v : float) :
  (x =? v)%float = true -> (y =? v)%float = true -> (x <? y)%float = false.
Proof.
  rewrite !FloatAxioms.eqb_spec, FloatAxioms.ltb_spec. apply SFeqb_not_ltb.
Qed.

(** *** The sign of a difference

    The comparator of the ranking is a subtraction, and the sort looks
    at its sign.  For all IEEE numbers but NaN the difference [y - x]
    is positive exactly when [x < y]: rounding never turns a nonzero
    difference into zero, nor changes its sign. *)

Section SubSign.
Local Open Scope Z_scope.

Local Abbreviation emin := (-1074).


(** [digits2_pos] counts the binary digits. *)
Lemma digits2_bounds m :
  2 ^ (Zpos (digits2_pos m) - 1) <= Zpos m < 2 ^ Zpos (digits2_pos m).
Proof.
  induction m as [m IH | m IH |]; cbn [digits2_pos].
  - rewrite Pos2Z.inj_succ.
    replace (Z.succ (Zpos (digits2_pos m)) - 1) with (Z.succ (Zpos (digits2_pos m) - 1)) by lia.
    rewrite !Z.pow_succ_r by lia. lia.
  - rewrite Pos2Z.inj_succ.
    replace (Z.succ (Zpos (digits2_pos m)) - 1) with (Z.succ (Zpos (digits2_pos m) - 1)) by lia.
    rewrite !Z.pow_succ_r by lia. lia.
  - simpl. lia.
Qed.

Lemma iter_xO m d : Zpos (Pos.iter xO m d) = Zpos m * 2 ^ Zpos d.
Proof.
  induction d as [|d IH] using Pos.peano_ind.
  - simpl. lia.
  - rewrite Pos.iter_succ, Pos2Z.inj_succ, Z.pow_succ_r by lia.
    rewrite Pos2Z.inj_xO, IH. lia.
Qed.

(** Aligning a mantissa on a smaller exponent is exact. *)
Lemma shl_align_value mx ex ez :
  ez <= ex ->
  Zpos (shl_align mx ex ez).1 = Zpos mx * 2 ^ (ex - ez).
Proof.
  intros Hle. unfold shl_align.
  destruct (ez - ex) as [|d|d] eqn:Hd; cbn [fst].
  - replace (ex - ez) with 0 by lia. simpl. lia.
  - lia.
  - rewrite iter_xO. f_equal. f_equal. lia.
Qed.

Lemma shl_align_exp mx ex ez :
  (shl_align mx ex ez).2 = Z.min ex ez.
Proof.
  unfold shl_align. destruct (ez - ex) as [|d|d] eqn:Hd; cbn [snd]; lia.
Qed.

Lemma shr_1_m r : 0 <= shr_m r -> shr_m (shr_1 r) = shr_m r / 2.
Proof.
  destruct r as [m r s]. cbn [shr_m]. intros Hm.
  rewrite <- Z.div2_div. by destruct m as [|[p|p|]|].
Qed.

Lemma iter_shr_1_m p : forall r,
  0 <= shr_m r -> shr_m (SpecFloat.iter_pos shr_1 p r) = shr_m r / 2 ^ Zpos p.
Proof.
  assert (Hpow : forall q, 0 < 2 ^ Zpos q) by (intros; by apply Z.pow_pos_nonneg).
  induction p as [p IH | p IH |]; intros r Hr; cbn [SpecFloat.iter_pos].
  - assert (H1 : 0 <= shr_m (shr_1 r)).
    { rewrite shr_1_m by done. apply Z.div_pos; lia. }
    assert (H2 : 0 <= shr_m (SpecFloat.iter_pos shr_1 p (shr_1 r))).
    { rewrite IH by done. apply Z.div_pos; [done | apply Hpow]. }
    rewrite IH, IH, shr_1_m by done.
    pose proof (Hpow p).
    rewrite !Z.div_div by lia. f_equal.
    replace (Zpos p~1) with (1 + Zpos p + Zpos p) by lia.
    rewrite !Z.pow_add_r by lia. lia.
  - assert (H2 : 0 <= shr_m (SpecFloat.iter_pos shr_1 p r)).
    { rewrite IH by done. apply Z.div_pos; [done | apply Hpow]. }
    rewrite IH, IH by done.
    pose proof (Hpow p).
    rewrite !Z.div_div by lia. f_equal.
    replace (Zpos p~0) with (Zpos p + Zpos p) by lia.
    by rewrite Z.pow_add_r by lia.
  - rewrite shr_1_m by done. by rewrite Z.pow_1_r.
Qed.

(** Shifting a positive mantissa to its canonical exponent leaves it
    positive, as long as the exponent is not below the smallest one. *)
Lemma shr_fexp_pos m e l :
  0 < m -> emin <= e ->
  0 < shr_m (shr_fexp prec emax m e l).1 /\ emin <= (shr_fexp prec emax m e l).2.
Proof.
  intros Hm He. unfold shr_fexp, shr, fexp, SpecFloat.emin, prec, emax.
  destruct m as [|m|m]; try lia. cbn [Zdigits2].
  assert (Hl : shr_m (shr_record_of_loc (Zpos m) l) = Zpos m)
    by (by destruct l as [|[]]).
  pose proof (digits2_bounds m) as [Hlo Hhi].
  set (d := Zpos (digits2_pos m)) in *.
  destruct (Z.max (d + e - 53) (3 - 1024 - 53) - e) as [|n|n] eqn:Hn;
    cbn [fst snd]; rewrite ?Hl; try lia.
  rewrite iter_shr_1_m by (rewrite Hl; lia). rewrite Hl. split; [|lia].
  assert (Hnd : Zpos n = d - 53) by lia.
  apply Z.div_str_pos. split; [by apply Z.pow_pos_nonneg|].
  etrans; [|exact Hlo]. apply Z.pow_le_mono_r; lia.
Qed.

Lemma round_nearest_even_pos m l : 0 < m -> 0 < round_nearest_even m l.
Proof.
  intros Hm. unfold round_nearest_even.
  destruct l as [|[]]; try lia. destruct (Z.even m); lia.
Qed.

Lemma binary_round_aux_sign sx m e l :
  0 < m -> emin <= e ->
  (exists m' e', binary_round_aux prec emax sx m e l = S754_finite sx m' e') \/
  binary_round_aux prec emax sx m e l = S754_infinity sx.
Proof.
  intros Hm He. unfold binary_round_aux.
  destruct (shr_fexp_pos m e l Hm He) as [H1 H2].
  destruct (shr_fexp prec emax m e l) as [mrs' e'] eqn:Hs1. cbn [fst snd] in *.
  pose proof (round_nearest_even_pos _ (loc_of_shr_record mrs') H1) as H3.
  destruct (shr_fexp_pos _ e' loc_Exact H3 H2) as [H4 _].
  destruct (shr_fexp prec emax _ e' loc_Exact) as [mrs'' e''] eqn:Hs2.
  cbn [fst snd] in *.
  destruct (shr_m mrs'') as [|m''|m'']; try lia.
  destruct (e'' <=? emax - prec); eauto.
Qed.

Lemma binary_round_sign sx m e :
  emin <= e ->
  (exists m' e', binary_round prec emax sx m e = S754_finite sx m' e') \/
  binary_round prec emax sx m e = S754_infinity sx.
Proof.
  intros He. unfold binary_round.
  pose proof (shl_align_exp m e (fexp prec emax (Zpos (digits2_pos m) + e))) as Hexp.
  destruct (shl_align m e _) as [mz ez] eqn:Hal. cbn [snd] in Hexp.
  apply binary_round_aux_sign; [lia|].
  subst ez. unfold fexp, SpecFloat.emin, prec, emax. lia.
Qed.

(** A valid finite number has an exponent from [emin] on and at most 53
    digits, exactly 53 above [emin]. *)
Lemma bounded_canonical m e :
  bounded prec emax m e = true ->
  emin <= e /\ Zpos (digits2_pos m) <= 53 /\
  (emin < e -> Zpos (digits2_pos m) = 53).
Proof.
  unfold bounded, canonical_mantissa, fexp, SpecFloat.emin, prec, emax.
  intros [H1 _]%andb_prop. apply Z.eqb_eq in H1. lia.
Qed.

(** On valid numbers the comparison of exponents, then mantissas, is the
    comparison of the aligned mantissas. *)
Lemma compare_aligned mx ex my ey :
  bounded prec emax mx ex = true -> bounded prec emax my ey = true ->
  match ex ?= ey with
  | Eq => Pos.compare_cont Eq mx my
  | c => c
  end =
  (Zpos (shl_align mx ex (Z.min ex ey)).1 ?= Zpos (shl_align my ey (Z.min ex ey)).1).
Proof.
  intros (Hex & Hdx & Hnx)%bounded_canonical (Hey & Hdy & Hny)%bounded_canonical.
  rewrite !shl_align_value by lia.
  pose proof (digits2_bounds mx) as [Hlx Hhx].
  pose proof (digits2_bounds my) as [Hly Hhy].
  destruct (Z.compare_spec ex ey) as [-> | Hlt | Hgt].
  - rewrite Z.min_id, Z.sub_diag, !Z.mul_1_r. done.
  - symmetry. apply Z.compare_lt_iff.
    replace (Z.min ex ey) with ex by lia. rewrite Z.sub_diag, Z.mul_1_r.
    rewrite (Hny ltac:(lia)) in Hly.
    assert (2 ^ 1 <= 2 ^ (ey - ex)) by (apply Z.pow_le_mono_r; lia).
    assert (Zpos mx < 2 ^ 53).
    { eapply Z.lt_le_trans; [exact Hhx|]. apply Z.pow_le_mono_r; lia. }
    change (2 ^ (53 - 1)) with (2 ^ 52) in Hly. change (2 ^ 1) with 2 in *.
    nia.
  - symmetry. apply Z.compare_gt_iff.
    replace (Z.min ex ey) with ey by lia. rewrite Z.sub_diag, Z.mul_1_r.
    rewrite (Hnx ltac:(lia)) in Hlx.
    assert (2 ^ 1 <= 2 ^ (ex - ey)) by (apply Z.pow_le_mono_r; lia).
    assert (Zpos my < 2 ^ 53).
    { eapply Z.lt_le_trans; [exact Hhy|]. apply Z.pow_le_mono_r; lia. }
    change (2 ^ (53 - 1)) with (2 ^ 52) in Hlx. change (2 ^ 1) with 2 in *.
    nia.
Qed.

Lemma binary_normalize_sign d e :
  emin <= e ->
  SFltb (S754_zero false) (binary_normalize prec emax d e false) = (0 <? d).
Proof.
  intros He. destruct d as [|m|m]; cbn [binary_normalize]; [done|..].
  - by destruct (binary_round_sign false m e He) as [(m' & e' & ->) | ->].
  - by destruct (binary_round_sign true m e He) as [(m' & e' & ->) | ->].
Qed.

(** The difference [y - x] is positive exactly when [x < y], for all
    numbers but NaN. *)
Lemma SFsub_sign x y :
  valid_binary x = true -> valid_binary y = true ->
  x <> S754_nan -> y <> S754_nan ->
  SFltb (S754_zero false) (SFsub prec emax y x) = SFltb x y.
Proof.
  intros Hx Hy Hnx Hny.
  destruct x as [sx|sx| |sx mx ex]; [| |done|];
    (destruct y as [sy|sy| |sy my ey]; [| |done|]);
    try (by destruct sx, sy).
  unfold valid_binary in Hx, Hy. cbn [SpecFloat.valid_binary] in Hx, Hy. cbn [SFsub].
  pose proof (bounded_canonical _ _ Hx) as (Hex & _).
  pose proof (bounded_canonical _ _ Hy) as (Hey & _).
  rewrite binary_normalize_sign by lia.
  pose proof (compare_aligned mx ex my ey Hx Hy) as Hc.
  rewrite (Z.min_comm ey ex).
  set (ax := Zpos (shl_align mx ex (Z.min ex ey)).1) in *.
  set (ay := Zpos (shl_align my ey (Z.min ex ey)).1) in *.
  assert (0 < ax /\ 0 < ay) as [Hax Hay] by (subst ax ay; lia).
  clearbody ax ay. unfold SFltb, SFcompare.
  change PosDef.Pos.compare_cont with Pos.compare_cont in *.
  destruct (Z.ltb_spec 0 (cond_Zopp sy ay - cond_Zopp sx ax)) as [Hd | Hd];
    destruct sx, sy; cbn [cond_Zopp] in Hd; try done; try lia;
    destruct (ex ?= ey), (Pos.compare_cont Eq mx my);
    cbn [CompOpp]; try done; symmetry in Hc;
    pose proof (Z.compare_spec ax ay) as Hs; rewrite Hc in Hs;
    inversion Hs; lia.
Qed.

Lemma float_sub_sign (x y : float) :
  PrimFloat.is_nan x = false -> PrimFloat.is_nan y = false ->
  (0 <? y - x)%float = (x <? y)%float.
Proof.
  unfold PrimFloat.is_nan. rewrite !FloatAxioms.eqb_spec.
  intros Hx Hy.
  rewrite !FloatAxioms.ltb_spec, FloatAxioms.sub_spec.
  change (Prim2SF 0) with (S754_zero false).
  apply SFsub_sign; try apply FloatAxioms.Prim2SF_valid.
  - intros Hn. by rewrite Hn in Hx.
  - intros Hn. by rewrite Hn in Hy.
Qed.

End SubSign.

(** *** The stable sort *)

Section StableSort.
Import Popup.

Context {A : Type} (comparefn : A -> A -> float).

Local Abbreviation moves_behind x y := (0 <? comparefn x y)%float.

Lemma sort_insert_perm x l : sort_insert comparefn x l ≡ₚ x :: l.
Proof.
  induction l as [|y l IH]; simpl; [done|].
  destruct (moves_behind x y); [|done].
  rewrite IH. apply Permutation_swap.
Qed.

Lemma Array_sort_perm l : Array_sort comparefn l ≡ₚ l.
Proof.
  induction l as [|x l IH]; simpl; [done|].
  rewrite sort_insert_perm. by constructor.
Qed.

Section Sorted.

Variable R : A -> A -> Prop.

Lemma sort_insert_sorted x l :
  (forall y, y ∈ l -> moves_behind x y = true -> R y x) ->
  (forall y, y ∈ l -> moves_behind x y = false -> R x y) ->
  (forall y z, y ∈ l -> z ∈ l -> R x y -> R y z -> R x z) ->
  StronglySorted R l -> StronglySorted R (sort_insert comparefn x l).
Proof.
  intros Hgt Hngt Htrans Hs.
  induction Hs as [|y l Hs IH Hy]; simpl; [by repeat constructor|].
  destruct (moves_behind x y) eqn:Hxy.
  - constructor.
    + apply IH.
      * intros z Hz. apply Hgt. by right.
      * intros z Hz. apply Hngt. by right.
      * intros z1 z2 H1 H2. apply Htrans; by right.
    + apply Forall_forall. intros z Hz.
      rewrite sort_insert_perm in Hz.
      apply elem_of_cons in Hz as [-> | Hz].
      * apply Hgt; [by left | done].
      * by eapply (proj1 (Forall_forall _ _) Hy).
  - constructor; [by constructor|].
    assert (Hxy' : R x y) by (apply Hngt; [by left | done]).
    constructor; [done|].
    apply Forall_forall. intros z Hz.
    apply Htrans with y; [by left | by right | done |].
    by eapply (proj1 (Forall_forall _ _) Hy).
Qed.

Lemma Array_sort_sorted l :
  (forall x y, x ∈ l -> y ∈ l -> moves_behind x y = true -> R y x) ->
  (forall x y, x ∈ l -> y ∈ l -> moves_behind x y = false -> R x y) ->
  (forall x y z, x ∈ l -> y ∈ l -> z ∈ l -> R x y -> R y z -> R x z) ->
  StronglySorted R (Array_sort comparefn l).
Proof.
  induction l as [|x l IH]; intros Hgt Hngt Htrans; simpl; [constructor|].
  apply sort_insert_sorted.
  - intros y Hy. rewrite Array_sort_perm in Hy.
    apply Hgt; [by left | by right].
  - intros y Hy. rewrite Array_sort_perm in Hy.
    apply Hngt; [by left | by right].
  - intros y z Hy Hz. rewrite Array_sort_perm in Hy, Hz.
    apply Htrans; [by left | by right | by right].
  - apply IH.
    + intros y z Hy Hz. apply Hgt; by right.
    + intros y z Hy Hz. apply Hngt; by right.
    + intros y z w Hy Hz Hw. apply Htrans; by right.
Qed.

End Sorted.

Section Stable.

Variable C : A -> Prop.
Context `{!forall x, Decision (C x)}.

Lemma sort_insert_filter x l :
  (forall y, y ∈ l -> C x -> C y -> moves_behind x y = false) ->
  filter C (sort_insert comparefn x l) = filter C (x :: l).
Proof.
  induction l as [|y l IH]; intros Hties; simpl; [done|].
  destruct (moves_behind x y) eqn:Hxy; [|done].
  rewrite (filter_cons C y), IH by (intros z Hz; apply Hties; by right).
  rewrite !(filter_cons C x), (filter_cons C y).
  destruct (decide (C x)) as [Hx | Hx], (decide (C y)) as [Hy | Hy];
    try done.
  rewrite Hties in Hxy by (done || by left). discriminate Hxy.
Qed.

Lemma Array_sort_stable l :
  (forall x y, x ∈ l -> y ∈ l -> C x -> C y -> moves_behind x y = false) ->
  filter C (Array_sort comparefn l) = filter C l.
Proof.
  induction l as [|x l IH]; intros Hties; simpl; [done|].
  rewrite sort_insert_filter.
  - rewrite !filter_cons, IH; [done|].
    intros y z Hy Hz. apply Hties; by right.
  - intros y Hy. rewrite Array_sort_perm in Hy.
    apply Hties; [by left | by right].
Qed.

End Stable.

End StableSort.

(** *** [rankSnippets] *)

Section RankFacts.
Import Popup.

Lemma score_loop_scores queryVector index items scores :
  Forall2 (fun p sc => has_text p.1 /\
                       cached_score queryVector index p.1 = Some sc)
    items scores ->
  score_loop queryVector index items = Ok (scored_items items scores).
Proof.
  induction 1 as [|[x a] sc items scores [(t & Ht & Hb) Hsc] _ IH];
    [done|].
  cbn [score_loop scored_items zip_with fst snd] in *.
  unfold getSnippetVector. rewrite Ht, Hb.
  unfold cached_score in Hsc.
  destruct (truthy_id x) as [i|]; [|done]. cbn [mbind option_bind] in Hsc.
  destruct (index !! i) as [cached|] eqn:Hi; [|done].
  cbn [mbind option_bind] in Hsc.
  rewrite (property_own _ _ _ Hi).
  destruct (comparable _ _) eqn:Hcmp; [|done].
  rewrite (getCosineSimilarity_cosine _ _ Hcmp).
  injection Hsc as ->. by rewrite IH.
Qed.

(** The scores are the cosine similarities of the definition. *)
Lemma scored_items_cosine queryVector index items scores :
  Forall2 (fun p sc => has_text p.1 /\
                       cached_score queryVector index p.1 = Some sc)
    items scores ->
  Forall (fun u =>
            exists i cached,
              truthy_id (snippet u) = Some i /\ index !! i = Some cached /\
              comparable queryVector (Float32Array_from cached) = true /\
              score u =
                cosine_similarity queryVector (Float32Array_from cached))
    (scored_items items scores).
Proof.
  induction 1 as [|[x a] sc items scores [_ Hsc] _ IH]; [constructor|].
  cbn [scored_items zip_with fst snd]. constructor; [|exact IH].
  cbn [snippet score]. unfold cached_score in Hsc. cbn [fst] in Hsc.
  destruct (truthy_id x) as [i|]; [|done]. cbn [mbind option_bind] in Hsc.
  destruct (index !! i) as [cached|] eqn:Hi; [|done].
  cbn [mbind option_bind] in Hsc.
  destruct (comparable _ _) eqn:Hcmp; [|done].
  injection Hsc as <-. by exists i, cached.
Qed.

Lemma elem_of_scored_items u items scores :
  u ∈ scored_items items scores -> score u ∈ scores.
Proof.
  unfold scored_items. intros (p & sc & -> & _ & Hsc)%elem_of_zip_with.
  done.
Qed.

(** C4. When every item has a cached vector whose cosine similarity with
    the query vector is defined and is not NaN, [rankSnippets] returns
    the items, each with its score, the cosine similarity between the
    query vector and the item's cached vector: the same multiset, sorted
    by score descending, items of equal score in the order supplied. *)
Theorem rankSnippets_orders_by_score
    (queryVector : list float) (index : Index)
    (items : list (Snippet * Area)) (scores : list float) :
  Forall2 (fun p sc => has_text p.1 /\
                       cached_score queryVector index p.1 = Some sc)
    items scores ->
  no_NaN scores ->
  exists ranked,
    rank_with (Ok queryVector) index items = Ok ranked /\
    ranked ≡ₚ scored_items items scores /\
    Forall (fun u =>
              exists i cached,
                truthy_id (snippet u) = Some i /\
                index !! i = Some cached /\
                comparable queryVector (Float32Array_from cached) = true /\
                score u =
                  cosine_similarity queryVector (Float32Array_from cached))
      ranked /\
    StronglySorted (fun u v => (score v <=? score u)%float = true) ranked /\
    (forall v, filter (scores_as v) ranked
               = filter (scores_as v) (scored_items items scores)) /\
    (forall query_reply q s,
       blank q = false ->
       query_vector_of_reply (query_reply q) = Ok queryVector ->
       embeddingsIndex s = index ->
       getAllSnippetItems s = items -> items <> [] ->
       rankSnippets query_reply q s
         = (Ok ranked, sendRuntimeMessage (EmbedQuery q) s)).
Proof.
  intros Hscores Hord.
  pose proof (score_loop_scores _ _ _ _ Hscores) as Hloop.
  exists (Array_sort by_score_desc (scored_items items scores)).
  assert (Hcmp : forall u v,
            u ∈ scored_items items scores -> v ∈ scored_items items scores ->
            PrimFloat.is_nan (score u) = false /\
            PrimFloat.is_nan (score v) = false /\
            (0 <? by_score_desc u v)%float = (score u <? score v)%float).
  { intros u v Hu%elem_of_scored_items Hv%elem_of_scored_items.
    unfold no_NaN in Hord. rewrite Forall_forall in Hord.
    pose proof (Hord _ Hu) as Hnu. pose proof (Hord _ Hv) as Hnv.
    split_and!; [done..|]. by apply float_sub_sign. }
  split_and!.
  - unfold rank_with. by rewrite Hloop.
  - apply Array_sort_perm.
  - pose proof (scored_items_cosine _ _ _ _ Hscores) as Hcos.
    rewrite Forall_forall in Hcos |- *. intros u Hu. apply Hcos.
    by rewrite Array_sort_perm in Hu.
  - apply Array_sort_sorted.
    + intros u v Hu Hv. destruct (Hcmp u v Hu Hv) as (_ & _ & ->).
      apply float_ltb_leb.
    + intros u v Hu Hv. destruct (Hcmp u v Hu Hv) as (Hnu & Hnv & ->).
      by apply float_leb_total.
    + intros u v w _ _ _ Huv Hvw. by eapply float_leb_trans.
  - intros v. apply Array_sort_stable.
    intros u w Hu Hw Hcu Hcw. destruct (Hcmp u w Hu Hw) as (_ & _ & ->).
    by eapply float_eqb_not_ltb.
  - intros query_reply q s Hq Hreply Hindex Hitems Hne.
    unfold rankSnippets, embedQuery. rewrite Hitems, Hq, Hreply.
    destruct items as [|p items']; [done|].
    cbn [sendRuntimeMessage embeddingsIndex]. rewrite Hindex.
    unfold rank_with. by rewrite Hloop.
Qed.

End RankFacts.

Lemma rankSnippets_orders_by_score_witness :
  (Forall2 (fun p sc => has_text p.1 /\
              cached_score example_query example_vectors p.1 = Some sc)
     example_items example_scores /\
   no_NaN example_scores) /\
  exists ranked,
    Popup.rank_with (Ok example_query) example_vectors example_items
      = Ok ranked /\
    id <$> (Popup.snippet <$> ranked) = [Some "A"; Some "C"; Some "B"] /\
    ranked ≡ₚ scored_items example_items example_scores /\
    StronglySorted
      (fun u v => (Popup.score v <=? Popup.score u)%float = true) ranked.
Proof.
  assert (H1 : Forall2 (fun p sc => has_text p.1 /\
                 cached_score example_query example_vectors p.1 = Some sc)
                 example_items example_scores).
  { repeat constructor; try (eexists; split; reflexivity);
      vm_compute; reflexivity. }
  assert (H2 : no_NaN example_scores).
  { vm_compute. repeat constructor. }
  split; [by split|].
  destruct (rankSnippets_orders_by_score example_query example_vectors
              example_items example_scores H1 H2)
    as (ranked & Hrank & Hperm & _ & Hsorted & _).
  exists ranked. split; [exact Hrank|].
  split; [|by split].
  vm_compute in Hrank. injection Hrank as <-. reflexivity.
Defined.

(** The scores of that ranking: 1, a number between 127/128 and 1, 0. *)
Example example_ranking :
  match Popup.rank_with (Ok example_query) example_vectors example_items with
  | Ok [a; c; b] =>
      id (Popup.snippet a) = Some "A" /\ Popup.score a = 1%float /\
      id (Popup.snippet c) = Some "C" /\
      (0.9921875 <? Popup.score c)%float = true /\
      (Popup.score c <? 1)%float = true /\
      id (Popup.snippet b) = Some "B" /\ Popup.score b = 0%float
  | _ => False
  end.
Proof. vm_compute. split_and!; reflexivity. Qed.

(** Equal scores keep the order supplied (the sort is stable). *)
Example example_ties :
  Popup.snippet <$>
    Popup.Array_sort Popup.by_score_desc
      [Popup.mkScored (mkSnippet (Some "p") None) Popup.area_local 0.5;
       Popup.mkScored (mkSnippet (Some "q") None) Popup.area_local 1;
       Popup.mkScored (mkSnippet (Some "r") None) Popup.area_sync 0.5;
       Popup.mkScored (mkSnippet (Some "s") None) Popup.area_sync 1]
  = [mkSnippet (Some "q") None; mkSnippet (Some "s") None;
     mkSnippet (Some "p") None; mkSnippet (Some "r") None].
Proof. reflexivity. Qed.

(** * Further properties of the code *)

(** ** Vector math *)

Section VectorMathMore.
Import VectorMath.

Lemma SFmul_comm prec emax x y : SFmul prec emax x y = SFmul prec emax y x.
Proof.
  destruct x as [sx|sx| |sx mx ex], y as [sy|sy| |sy my ey]; simpl;
    rewrite ?(xorb_comm sx sy); try reflexivity.
  by rewrite (Pos.mul_comm mx my), (Z.add_comm ex ey).
Qed.

Lemma float_mul_comm (x y : float) : (x * y = y * x)%float.
Proof.
  apply FloatAxioms.Prim2SF_inj. rewrite !FloatAxioms.mul_spec.
  apply SFmul_comm.
Qed.

(** The loop over the two vectors exchanged accumulates the same three
    numbers, the two norms exchanged. *)
Lemma cosine_loop_swap (a b : list float) :
  length a = length b ->
  forall dot normA normB,
    cosine_loop b a dot normB normA =
    match cosine_loop a b dot normA normB with
    | Ok (d, nA, nB) => Ok (d, nB, nA)
    | Err e => Err e
    end.
Proof.
  revert b. induction a as [|ai a IH]; intros [|bi b] Hlen dot nA nB;
    simpl in *; try discriminate; [reflexivity|].
  rewrite (orb_comm (negb (Number_isFinite bi))).
  destruct (negb (Number_isFinite ai) || negb (Number_isFinite bi));
    [reflexivity|].
  rewrite (float_mul_comm bi ai). apply IH. congruence.
Qed.

(** X1. Cosine similarity is symmetric: exchanging the two vectors gives
    the same number, bit for bit, or the same error. *)
Theorem getCosineSimilarity_symmetric (a b : list float) :
  getCosineSimilarity a b = getCosineSimilarity b a.
Proof.
  unfold getCosineSimilarity.
  rewrite (Nat.eqb_sym (length b) (length a)).
  destruct (Nat.eqb_spec (length a) (length b)) as [Hlen | Hlen]; simpl;
    [|reflexivity].
  rewrite (cosine_loop_swap a b Hlen).
  destruct (cosine_loop a b 0 0 0) as [[[dot nA] nB]|e]; [|reflexivity].
  rewrite (orb_comm (nB =? 0)%float).
  by rewrite (float_mul_comm (PrimFloat.sqrt nB)).
Qed.

(** A loop that ends has seen finite components only, and as many in
    [b] as in [a]. *)
Lemma cosine_loop_ok_finite (a b : list float) :
  forall dot normA normB r,
    cosine_loop a b dot normA normB = Ok r ->
    Forall (fun x => Number_isFinite x = true) a /\
    Forall (fun x => Number_isFinite x = true) (take (length a) b).
Proof.
  revert b. induction a as [|ai a IH]; intros b dot nA nB r; simpl.
  - intros _. split; constructor.
  - destruct b as [|bi b]; [discriminate|].
    destruct (Number_isFinite ai) eqn:Ha, (Number_isFinite bi) eqn:Hb;
      simpl; try discriminate.
    intros [H1 H2]%IH. split; by constructor.
Qed.

(** X2. A score is returned for valid pairs only: vectors of the same
    length whose components are all finite, neither of them made of
    zeros only. *)
Theorem getCosineSimilarity_accepts_valid_only (a b : list float)
    (sc : float) :
  getCosineSimilarity a b = Ok sc ->
  length a = length b /\
  Forall (fun x => Number_isFinite x = true) a /\
  Forall (fun x => Number_isFinite x = true) b /\
  ~ zero_norm a /\ ~ zero_norm b.
Proof.
  unfold getCosineSimilarity.
  destruct (Nat.eqb_spec (length a) (length b)) as [Hlen | Hlen]; simpl;
    [|discriminate].
  destruct (cosine_loop a b 0 0 0) as [[[dot nA] nB]|e] eqn:Hloop;
    [|discriminate].
  destruct (nA =? 0)%float eqn:HA; [discriminate|].
  destruct (nB =? 0)%float eqn:HB; [discriminate|]. intros _.
  destruct (cosine_loop_ok_finite _ _ _ _ _ _ Hloop) as [Hfa Hfb].
  rewrite Hlen, firstn_all in Hfb.
  split_and!; try done.
  - intros Hz. apply (cosine_loop_zero_left _ _ Hz) in Hloop.
    simpl in Hloop. subst nA. discriminate HA.
  - intros Hz. apply (cosine_loop_zero_right _ _ Hz) in Hloop.
    simpl in Hloop. subst nB. discriminate HB.
Qed.

End VectorMathMore.

Lemma getCosineSimilarity_accepts_valid_only_witness :
  VectorMath.getCosineSimilarity [1; 0]%float [0; 1]%float = Ok 0%float /\
  length [1; 0]%float = length [0; 1]%float /\
  ~ VectorMath.zero_norm [1; 0]%float.
Proof.
  assert (H : VectorMath.getCosineSimilarity [1; 0]%float [0; 1]%float
              = Ok 0%float) by reflexivity.
  split; [exact H|].
  destruct (getCosineSimilarity_accepts_valid_only _ _ _ H)
    as (Hlen & _ & _ & Hza & _).
  by split.
Defined.

(** ** The background: persistence *)

Section BackgroundMore.
Import Background.

Variable embedder : nat -> Text -> result (list float).
Variable get_error : option string.
Variable set_error : Index -> option string.

Local Abbreviation ensure_loop := (Background.ensure_loop embedder).
Local Abbreviation ensureEmbeddings :=
  (Background.ensureEmbeddings embedder get_error set_error).
Local Abbreviation saveEmbedding :=
  (Background.saveEmbedding get_error set_error).

(** However it ends, the loop touches neither the store nor the log of
    writes. *)
Lemma ensure_loop_store items : forall index updated w r w',
  ensure_loop items index updated w = (r, w') ->
  local_store w' = local_store w /\ store_writes w' = store_writes w.
Proof.
  induction items as [|item items IH]; intros index updated w r w' Hrun;
    cbn [Background.ensure_loop] in Hrun.
  - by injection Hrun as <- <-.
  - destruct (id item) as [[|c i]|]; try (by injection Hrun as <- <-).
    destruct (text item) as [t|]; try (by injection Hrun as <- <-).
    destruct (blank t) eqn:Hb; try (by injection Hrun as <- <-).
    destruct (truthy (property index (String c i))); [by eapply IH|].
    unfold mbind, M_bind, embedText in Hrun. rewrite Hb in Hrun.
    destruct (embedder (length (embed_calls w)) t) as [v|].
    + by apply IH in Hrun.
    + by injection Hrun as <- <-.
Qed.

(** X3. A call of [ensureEmbeddings] persists all or nothing.  It writes
    the index at most once, after the loop and only when it added an
    entry; a call that throws (an invalid item, a rejected embedding, a
    failed write) leaves the store as it was, so that the vectors
    computed before the failure are dropped. *)
Theorem ensureEmbeddings_persists_all_or_nothing
    (items : list Snippet) (w w' : World) (r : result nat) :
  ensureEmbeddings items w = (r, w') ->
  (local_store w' = local_store w /\ store_writes w' = store_writes w /\
   (r = Ok 0 \/ exists e, r = Err e)) \/
  (exists n index,
     r = Ok n /\ 0 < n /\ local_store w' = StoredIndex index /\
     store_writes w' = store_writes w ++ [index]).
Proof.
  unfold Background.ensureEmbeddings, mbind, M_bind, loadEmbeddingsIndex.
  destruct get_error as [e|]; [intros [= <- <-]; left; eauto|].
  destruct (index_of_stored (local_store w)) as [cache|e];
    [|intros [= <- <-]; left; eauto].
  destruct (Background.ensure_loop embedder items cache 0 w)
    as [[[index updated]|e] w1] eqn:Hloop;
    apply ensure_loop_store in Hloop as [Hst Hwr];
    [|intros [= <- <-]; left; eauto].
  cbn [fst snd]. destruct (Nat.ltb_spec 0 updated) as [Hpos | Hzero].
  - unfold setStorage. destruct (set_error index) as [e|].
    + intros [= <- <-]. left. eauto.
    + unfold mret, M_ret. intros [= <- <-]. right.
      exists updated, index. simpl. rewrite Hwr. done.
  - unfold mret, M_ret. intros [= <- <-]. left.
    assert (updated = 0) as -> by lia. eauto.
Qed.

(** What a [saveEmbedding] that returned did. *)
Lemma saveEmbedding_inv (i : string) (vector : list float) (w w' : World) :
  saveEmbedding i vector w = (Ok tt, w') ->
  i <> "" /\ vector <> [] /\ get_error = None /\
  exists index,
    index_of_stored (local_store w) = Ok index /\
    w' = mkWorld (StoredIndex (assign index i vector)) (embed_calls w)
           (store_writes w ++ [assign index i vector]).
Proof.
  unfold Background.saveEmbedding.
  destruct (decide (i = "")) as [->|Hi]; [discriminate|].
  destruct vector as [|x vector]; [discriminate|].
  unfold mbind, M_bind, loadEmbeddingsIndex, setStorage.
  destruct get_error eqn:Hget; [discriminate|].
  destruct (index_of_stored (local_store w)) as [index|]; [|discriminate].
  destruct (set_error _); [discriminate|].
  intros [= <-]. split_and!; try done. by exists index.
Qed.

(** X4. [saveEmbedding] stores the vector under the id, replacing the
    entry the id had, and leaves every other entry alone; for the id
    ["__proto__"] without an entry of its own the write goes to the
    prototype and the stored entries stay as they were.  It asks the
    embedder nothing, and a later [ensureEmbeddings] skips an item of
    that id.  An empty id or an empty vector is refused. *)
Theorem saveEmbedding_stores_entry
    (i : string) (vector : list float) (w w' : World) :
  saveEmbedding i vector w = (Ok tt, w') ->
  i <> "" /\ vector <> [] /\
  exists index index',
    index_of_stored (local_store w) = Ok index /\
    index_of_stored (local_store w') = Ok index' /\
    (i <> "__proto__" \/ is_Some (index !! i) ->
     index' !! i = Some vector) /\
    (i = "__proto__" -> index !! i = None -> index' = index) /\
    (forall j, j <> i -> index' !! j = index !! j) /\
    store_writes w' = store_writes w ++ [index'] /\
    embed_calls w' = embed_calls w /\
    (forall item, valid_item item -> id_of item = i ->
       ensureEmbeddings [item] w' = (Ok 0, w')).
Proof.
  intros (Hi & Hv & Hget & index & Hload & ->)%saveEmbedding_inv.
  split; [done|]. split; [done|].
  exists index, (assign index i vector). simpl.
  assert (Hcases :
    (i <> "__proto__" \/ is_Some (index !! i)) /\
      assign index i vector = <[i := vector]> index \/
    (i = "__proto__" /\ index !! i = None) /\ assign index i vector = index).
  { unfold assign. destruct (decide (i = "__proto__")) as [-> | Hne].
    - destruct (index !! "__proto__") eqn:Hlook; [left | right]; eauto.
    - left. eauto. }
  split_and!; try done.
  - intros Hor. destruct Hcases as [[_ ->] | [[-> Hnone] _]].
    + apply lookup_insert_eq.
    + destruct Hor as [? | [? ?]]; congruence.
  - intros -> Hnone. destruct Hcases as [[[? | [? ?]] _] | [_ ->]];
      congruence.
  - intros j Hj. destruct Hcases as [[_ ->] | [_ ->]]; [|done].
    by apply lookup_insert_ne.
  - intros item Hitem Hid.
    unfold Background.ensureEmbeddings, mbind, M_bind, loadEmbeddingsIndex.
    rewrite Hget. cbn [local_store index_of_stored].
    rewrite (ensure_loop_all_present embedder [item]); [done|].
    constructor; [|done]. split; [done|].
    rewrite Hid. apply truthy_property.
    destruct Hcases as [[_ ->] | [[-> _] _]].
    + left. apply elem_of_dom. rewrite lookup_insert_eq. eauto.
    + by right.
Qed.

End BackgroundMore.

(** Two items, an embedder that answers once and then fails: the first
    vector is not kept. *)
Lemma ensureEmbeddings_persists_all_or_nothing_witness :
  let embedder := fun (k : nat) (_ : Text) =>
    if k is 0 then Ok [1; 0]%float else Err "Embedding failed." in
  let items := [mkSnippet (Some "a") (Some (utf16 "alpha"));
                mkSnippet (Some "b") (Some (utf16 "beta"))] in
  let w := Background.mkWorld Unset [] [] in
  exists w',
    Background.ensureEmbeddings embedder None (fun _ => None) items w
      = (Err "Embedding failed.", w') /\
    Background.embed_calls w' = [utf16 "alpha"; utf16 "beta"] /\
    Background.local_store w' = Unset /\
    Background.store_writes w' = [].
Proof.
  intros embedder items w. eexists. split; [reflexivity|].
  split; [reflexivity|].
  destruct (ensureEmbeddings_persists_all_or_nothing embedder None
              (fun _ => None) items w _ _ eq_refl)
    as [(Hst & Hwr & _) | (n & index & Hr & _)]; [by split | discriminate Hr].
Defined.

(** A vector saved over an older one. *)
Lemma saveEmbedding_stores_entry_witness :
  let w := Background.mkWorld
             (StoredIndex {["a" := [0; 1]%float; "b" := [1; 1]%float]})
             [] [] in
  exists w' index',
    Background.saveEmbedding None (fun _ => None) "a" [1; 0]%float w
      = (Ok tt, w') /\
    index_of_stored (Background.local_store w') = Ok index' /\
    index' !! "a" = Some [1; 0]%float /\
    index' !! "b" = Some [1; 1]%float.
Proof.
  intros w. eexists.
  destruct (saveEmbedding_stores_entry (fun _ _ => Err "unused") None
              (fun _ => None) "a" [1; 0]%float w _ eq_refl)
    as (_ & _ & index & index' & Hload & Hstore & Ha & _ & Hframe & _).
  exists index'. split; [reflexivity|]. split; [exact Hstore|].
  split; [apply Ha; by left|].
  rewrite (Hframe "b") by done. injection Hload as <-. reflexivity.
Defined.

(** ** The popup and the background together *)

Section Protocol.
Import Popup.

Variable embedder : nat -> Text -> result (list float).
Variable get_error : option string.
Variable set_error : Index -> option string.

Local Abbreviation ensure_loop := (Background.ensure_loop embedder).
Local Abbreviation ensureEmbeddings :=
  (Background.ensureEmbeddings embedder get_error set_error).

Lemma filter_none {A} (P : A -> Prop) `{!forall x, Decision (P x)} l :
  Forall (fun x => ~ P x) l -> filter P l = [].
Proof.
  induction 1 as [|x l Hx _ IH]; [done|].
  by rewrite filter_cons_False.
Qed.

Lemma truthy_id_Some x i : truthy_id x = Some i -> id x = Some i /\ i <> "".
Proof. unfold truthy_id. by destruct (id x) as [[|c j]|]; intros [= <-]. Qed.

Lemma has_entry_lookup (index : Index) x i :
  id x = Some i -> has_entry index x = truthy (property index i).
Proof. unfold has_entry. by intros ->. Qed.

(** The list collected: the snippets without an entry, all snippets
    having passed the checks. *)
Lemma collect_missing_filter (index : Index) (snippets missing : list Snippet) :
  collect_missing index snippets = Ok missing ->
  missing = filter (fun x => has_entry index x = false) snippets /\
  Forall Background.valid_item snippets.
Proof.
  revert missing.
  induction snippets as [|x l IH]; intros missing; simpl.
  - intros [= <-]. by split.
  - destruct (truthy_id x) as [i|] eqn:Hid; [|discriminate].
    destruct (text x) as [t|] eqn:Ht; [|discriminate].
    destruct (blank t) eqn:Hb; [discriminate|].
    destruct (collect_missing index l) as [rest|]; [|discriminate].
    destruct (IH rest eq_refl) as [-> Hvalid].
    apply truthy_id_Some in Hid as [Hid Hne].
    assert (Hx : x = mkSnippet (Some i) (Some t))
      by (destruct x; simpl in *; congruence).
    intros [= <-]. split.
    + rewrite filter_cons, (has_entry_lookup index x i Hid).
      destruct (truthy (property index i)) eqn:Hlook.
      * by rewrite decide_False.
      * by rewrite decide_True, Hx.
    + constructor; [|done]. split; eauto.
Qed.

(** X5. What the popup asks the background to embed, for a list of
    snippets whose ids are strings: the snippets of the list for which
    [embeddingsIndex[id]] is falsy, in the order of the list.  A snippet
    whose id names an inherited property is never among them.  Every
    snippet of the list has passed the checks the background makes of an
    item (an id that is not empty, a text that is not blank), so that on
    such a request the background's loop can only fail with an error of
    the embedder. *)
Theorem collect_missing_request (index : Index) (snippets missing : list Snippet) :
  Forall (fun x => is_Some (id x)) snippets ->
  collect_missing index snippets = Ok missing ->
  missing = filter (fun x => has_entry index x = false) snippets /\
  Forall (fun x => id_of_item_absent index x) missing /\
  Forall Background.valid_item snippets /\
  Forall Background.valid_item missing /\
  (forall cache updated w e w',
     ensure_loop missing cache updated w = (Err e, w') ->
     exists k t, embedder k t = Err e).
Proof.
  intros _ Hcollect.
  destruct (collect_missing_filter _ _ _ Hcollect) as [Hmissing Hvalid].
  assert (Hvm : Forall Background.valid_item missing).
  { rewrite Hmissing. apply Forall_forall.
    intros x [_ Hx]%list_elem_of_filter.
    by eapply Forall_forall in Hvalid. }
  split_and!; try done.
  - rewrite Hmissing. apply Forall_forall.
    intros x [Hentry Hx]%list_elem_of_filter.
    rewrite Forall_forall in Hvalid.
    destruct (Hvalid x Hx) as [(i & Hi & _) _].
    exists i. split; [done|].
    rewrite (has_entry_lookup index x i Hi) in Hentry.
    unfold property in Hentry.
    destruct (index !! i); [done|]. by destruct (inherited i).
  - clear Hcollect Hmissing. induction Hvm as [|item items Hitem _ IH];
      intros cache updated w e w'; cbn [Background.ensure_loop].
    + discriminate.
    + destruct Hitem as [(i & -> & Hi) (t & -> & Hb)].
      destruct i as [|c i]; [done|]. rewrite Hb.
      destruct (truthy (property cache (String c i))); [apply IH|].
      unfold mbind, M_bind, Background.embedText. rewrite Hb.
      destruct (embedder (length (Background.embed_calls w)) t)
        as [v|e0] eqn:Hv.
      * apply IH.
      * intros [= <- <-]. eauto.
Qed.

(** X6. After a pass of the background that returned, the popup, reading
    the store then, finds [embeddingsIndex[id]] truthy for every item of
    the request: nothing is still missing, it takes the stored index as
    its own and clears the status line.  The store holds an entry for
    every item whose id names no inherited property. *)
Theorem background_pass_satisfies_popup
    (items : list Snippet) (w w' : Background.World) (n : nat) (s : State) :
  ensureEmbeddings items w = (Ok n, w') ->
  exists index,
    index_of_stored (Background.local_store w') = Ok index /\
    Forall (fun item => has_entry index item = true) items /\
    Forall (fun item => inherited (Background.id_of item) = false ->
                        Background.id_of item ∈ dom index) items /\
    ensureMissing_loaded items (Read (Background.local_store w')) s
      = (Ok tt, setStatus "" "idle" (set_index index s)).
Proof.
  unfold Background.ensureEmbeddings, mbind, M_bind,
    Background.loadEmbeddingsIndex.
  destruct get_error; [discriminate|].
  destruct (index_of_stored (Background.local_store w)) as [cache|] eqn:Hload;
    [|discriminate].
  destruct (Background.ensure_loop embedder items cache 0 w)
    as [[[index updated]|] w1] eqn:Hloop; [|discriminate].
  cbn [fst snd].
  pose proof (ensure_loop_inv _ _ _ _ _ _ _ _ Hloop)
    as (Hsub & Hle & Hsame & Hall & Hst & Hwr).
  intros Hrun.
  assert (Hstore : index_of_stored (Background.local_store w') = Ok index).
  { destruct (Nat.ltb_spec 0 updated) as [Hpos | Hzero].
    - unfold Background.setStorage in Hrun.
      destruct (set_error index); [discriminate|].
      unfold mret, M_ret in Hrun. by injection Hrun as <- <-.
    - unfold mret, M_ret in Hrun. injection Hrun as <- <-.
      assert (updated = 0) as -> by lia.
      destruct (Hsame eq_refl) as [-> _]. by rewrite Hst. }
  assert (Hfound : Forall (fun item => has_entry index item = true) items).
  { eapply Forall_impl; [exact Hall|]. intros item [Hitem Hin].
    destruct Hitem as [(i & Hi & _) _].
    rewrite (has_entry_lookup index item i Hi).
    unfold Background.id_of in Hin. by rewrite Hi in Hin. }
  exists index. split_and!; try done.
  - eapply Forall_impl; [exact Hall|]. intros item [_ Hin] Hinh.
    apply truthy_property in Hin as [? | ?]; [done | congruence].
  - unfold ensureMissing_loaded, index_of_load. rewrite Hstore.
    rewrite filter_none; [done|].
    eapply Forall_impl; [exact Hfound|]. intros item Hitem. congruence.
Qed.

(** X7. A query embedded through the background: the popup gets the
    embedder's vector, rounded to single precision, or throws with the
    embedder's message (with its own message when that one is empty).
    The background asks the embedder once and writes nothing. *)
Theorem embedQuery_through_background
    (q : Text) (w : Background.World) (s : State) :
  blank q = false ->
  let answer := Background.handleEmbedQuery embedder (Some q) w in
  (embedQuery (fun _ => reply_of answer.1) q s).1 =
    match embedder (length (Background.embed_calls w)) q with
    | Ok vector => Ok (Float32Array_from vector)
    | Err e => Err (error_or (Some e) "Query embedding failed.")
    end /\
  Background.embed_calls answer.2 = Background.embed_calls w ++ [q] /\
  Background.local_store answer.2 = Background.local_store w /\
  Background.store_writes answer.2 = Background.store_writes w.
Proof.
  intros Hq. unfold Background.handleEmbedQuery, Background.embedText, embedQuery.
  rewrite Hq. cbn [fst snd].
  by destruct (embedder (length (Background.embed_calls w)) q).
Qed.

End Protocol.

(** Two snippets, the second of them embedded already. *)
Lemma collect_missing_request_witness :
  let index : Index := {["b" := [1; 0]%float]} in
  let snippets := [mkSnippet (Some "a") (Some (utf16 "alpha"));
                   mkSnippet (Some "b") (Some (utf16 "beta"))] in
  Forall (fun x => is_Some (id x)) snippets /\
  Popup.collect_missing index snippets
    = Ok [mkSnippet (Some "a") (Some (utf16 "alpha"))] /\
  Forall Background.valid_item snippets.
Proof.
  intros index snippets.
  assert (Hids : Forall (fun x => is_Some (id x)) snippets)
    by (repeat constructor; by eexists).
  assert (H : Popup.collect_missing index snippets
              = Ok [mkSnippet (Some "a") (Some (utf16 "alpha"))]) by reflexivity.
  split; [exact Hids|]. split; [exact H|].
  by destruct (collect_missing_request (fun _ _ => Err "unused") _ _ _ Hids H)
    as (_ & _ & Hvalid & _).
Defined.

(** The background embeds ["x"]; the popup then reads the store. *)
Lemma background_pass_satisfies_popup_witness :
  let embedder := fun (_ : nat) (_ : Text) => Ok [1; 0]%float in
  let items := [mkSnippet (Some "x") (Some (utf16 "cats and dogs"))] in
  let w := Background.mkWorld Unset [] [] in
  exists w',
    Background.ensureEmbeddings embedder None (fun _ => None) items w
      = (Ok 1, w') /\
    Popup.ensureMissing_loaded items
      (Popup.Read (Background.local_store w')) example_search
      = (Ok tt,
         Popup.setStatus "" "idle"
           (Popup.set_index example_index example_search)).
Proof.
  intros embedder items w. eexists. split; [reflexivity|].
  destruct (background_pass_satisfies_popup embedder None (fun _ => None)
              items w _ 1 example_search eq_refl)
    as (index & Hstore & _ & _ & Hload).
  injection Hstore as <-. exact Hload.
Defined.

(** A query that the embedder rejects. *)
Lemma embedQuery_through_background_witness :
  let embedder := fun (_ : nat) (_ : Text) =>
    @Err (list float) "Missing local model asset: config.json" in
  let w := Background.mkWorld Unset [] [] in
  blank (utf16 "cats") = false /\
  (Popup.embedQuery
     (fun _ => Popup.reply_of
                 (Background.handleEmbedQuery embedder (Some (utf16 "cats"))
                    w).1)
     (utf16 "cats") example_search).1
  = Err "Missing local model asset: config.json".
Proof.
  intros embedder w. split; [reflexivity|].
  by destruct (embedQuery_through_background embedder (utf16 "cats") w
                 example_search eq_refl) as (H & _).
Defined.

(** ** The background: saving a selection *)

Section SaveSnippet.
Import Background.

Variable embedder : nat -> Text -> result (list float).
Variable get_error : option string.
Variable set_error : Index -> option string.
Variable sync_get_error : option string.
Variable sync_set_error : list Snippet -> option string.
Variable randomUUID : option (nat -> string).

Local Abbreviation handleSaveSnippet :=
  (Background.handleSaveSnippet embedder get_error set_error
     sync_get_error sync_set_error randomUUID).
Local Abbreviation onInstalled :=
  (Background.onInstalled sync_get_error sync_set_error).

(** A failed [saveEmbedding] leaves the local store as it was. *)
Lemma saveEmbedding_failure i vector w e w' :
  saveEmbedding get_error set_error i vector w = (Err e, w') -> w' = w.
Proof.
  unfold saveEmbedding.
  destruct (decide (i = "")); [by intros [= _ <-]|].
  destruct vector as [|x vector]; [by intros [= _ <-]|].
  unfold mbind, M_bind, loadEmbeddingsIndex, setStorage.
  destruct get_error; [by intros [= _ <-]|].
  destruct (index_of_stored (local_store w)); [|by intros [= _ <-]].
  by destruct (set_error _); intros [= <-].
Qed.

(** X8. A selection that [handleSaveSnippet] saved: the text was not
    blank (it holds more than white space and line terminators) and the
    tab had a URL and an id; one id was drawn, the embedder answered, the
    snippet was pushed at the end of the synced snippets under that id,
    its vector was stored in the index under the same id (the other
    entries as they were), and one animation message went to the tab. *)
Theorem handleSaveSnippet_saves_snippet_with_vector
    (selectionText : option Text) (tab : option Tab) (b b' : Browser) :
  handleSaveSnippet selectionText tab b = (Ok tt, b') ->
  exists t tabId uuid snippets vector index index',
    selectionText = Some t /\ blank t = false /\
    is_Some (tab ≫= tab_url) /\ tab ≫= tab_id = Some tabId /\
    randomUUID = Some uuid /\ ids_drawn b' = S (ids_drawn b) /\
    embedder (length (embed_calls (local b))) t = Ok vector /\
    embed_calls (local b') = embed_calls (local b) ++ [t] /\
    sync_snippets b = SnippetsArray snippets /\
    sync_snippets b' =
      SnippetsArray
        (snippets ++ [mkSnippet (Some (uuid (ids_drawn b))) (Some t)]) /\
    index_of_stored (local_store (local b)) = Ok index /\
    index_of_stored (local_store (local b')) = Ok index' /\
    uuid (ids_drawn b) <> "" /\
    (uuid (ids_drawn b) <> "__proto__" ->
     index' !! uuid (ids_drawn b) = Some vector) /\
    (forall j, j <> uuid (ids_drawn b) -> index' !! j = index !! j) /\
    animations b' = animations b ++ [(tabId, t)].
Proof.
  unfold Background.handleSaveSnippet.
  destruct selectionText as [t|]; [|discriminate].
  destruct (blank t) eqn:Hb; [discriminate|].
  destruct (tab ≫= tab_url) as [url|] eqn:Hurl; [|discriminate].
  destruct (tab ≫= tab_id) as [tabId|] eqn:Htab; [|discriminate].
  unfold mbind at 1, M_bind at 1, generateSnippetId.
  destruct randomUUID as [uuid|]; [|discriminate].
  unfold mbind at 1, M_bind at 1, on_local at 1, embedText.
  rewrite Hb. cbn [local fst snd].
  destruct (embedder (length (embed_calls (local b))) t) as [vector|] eqn:Hv;
    [|discriminate].
  unfold mbind at 1, M_bind at 1, saveSnippet, setSyncSnippets.
  destruct sync_get_error; [discriminate|]. cbn [sync_snippets].
  destruct (sync_snippets b) as [|snippets|] eqn:Hsync; try discriminate.
  destruct (sync_set_error _); [discriminate|].
  unfold mbind at 1, M_bind at 1, on_local. cbn [local].
  set (i := uuid (ids_drawn b)).
  destruct (saveEmbedding get_error set_error i vector _)
    as [[[]|] w1] eqn:Hsave; [|discriminate].
  apply saveEmbedding_inv in Hsave as (Hi & _ & _ & index & Hload & ->).
  unfold sendAnimateMessage, modify. intros [= <-]. cbn.
  exists t, tabId, uuid, snippets, vector, index, (assign index i vector).
  split_and!; try done; eauto.
  - intros Hne. rewrite assign_other by done. apply lookup_insert_eq.
  - intros j Hj. unfold assign. destruct (decide (i = "__proto__"));
      [destruct (index !! i)|]; try done; by apply lookup_insert_ne.
Qed.

(** X9. A selection that [handleSaveSnippet] did not save.  No animation
    is sent and the embedding index is not written.  The synced snippets
    are as they were, unless the failure is that of [saveEmbedding],
    which runs after the snippet was pushed: then the snippet is stored
    without a vector.  In particular nothing at all is stored when the
    embedder rejects the text. *)
Theorem handleSaveSnippet_failure
    (selectionText : option Text) (tab : option Tab) (b b' : Browser)
    (e : string) :
  handleSaveSnippet selectionText tab b = (Err e, b') ->
  animations b' = animations b /\
  local_store (local b') = local_store (local b) /\
  store_writes (local b') = store_writes (local b) /\
  (sync_snippets b' = sync_snippets b \/
   exists t uuid snippets vector w,
     selectionText = Some t /\ randomUUID = Some uuid /\
     embedder (length (embed_calls (local b))) t = Ok vector /\
     sync_snippets b = SnippetsArray snippets /\
     sync_snippets b' =
       SnippetsArray
         (snippets ++ [mkSnippet (Some (uuid (ids_drawn b))) (Some t)]) /\
     saveEmbedding get_error set_error (uuid (ids_drawn b)) vector w
       = (Err e, w)).
Proof.
  unfold Background.handleSaveSnippet.
  destruct selectionText as [t|]; [|intros [= _ <-]; auto].
  destruct (blank t) eqn:Hb; [intros [= _ <-]; auto|].
  destruct (tab ≫= tab_url) as [url|]; [|intros [= _ <-]; auto].
  destruct (tab ≫= tab_id) as [tabId|]; [|intros [= _ <-]; auto].
  unfold mbind at 1, M_bind at 1, generateSnippetId.
  destruct randomUUID as [uuid|]; [|intros [= _ <-]; auto].
  unfold mbind at 1, M_bind at 1, on_local at 1, embedText.
  rewrite Hb. cbn [local fst snd].
  destruct (embedder (length (embed_calls (local b))) t) as [vector|] eqn:Hv;
    [|intros [= _ <-]; auto].
  unfold mbind at 1, M_bind at 1, saveSnippet, setSyncSnippets.
  destruct sync_get_error; [intros [= _ <-]; auto|]. cbn [sync_snippets].
  destruct (sync_snippets b) as [|snippets|] eqn:Hsync;
    try (intros [= _ <-]; cbn; auto).
  destruct (sync_set_error _); [intros [= _ <-]; cbn; auto|].
  unfold mbind at 1, M_bind at 1, on_local. cbn [local].
  set (i := uuid (ids_drawn b)).
  destruct (saveEmbedding get_error set_error i vector _)
    as [[[]|e'] w1] eqn:Hsave; [discriminate|].
  pose proof (saveEmbedding_failure _ _ _ _ _ Hsave) as ->.
  intros [= <- <-]. cbn. split_and!; try done.
  right. exists t, uuid, snippets, vector. eexists. split_and!; try done.
Qed.

(** X10. [onInstalled] never replaces snippets that are there: it
    creates the context menu entry, writes an empty array where the
    synced snippets have never been written, and touches nothing else.
    After it returned the synced snippets are an array. *)
Theorem onInstalled_keeps_snippets (b b' : Browser) (r : result unit) :
  onInstalled b = (r, b') ->
  context_menus b' = context_menus b ++ ["save-snippet"] /\
  local b' = local b /\ animations b' = animations b /\
  (sync_snippets b' = sync_snippets b \/
   sync_snippets b = SnippetsUnset /\ sync_snippets b' = SnippetsArray [] /\
   r = Ok tt) /\
  (r = Ok tt -> exists l, sync_snippets b' = SnippetsArray l) /\
  (forall l, sync_snippets b = SnippetsArray l ->
     sync_snippets b' = SnippetsArray l).
Proof.
  unfold Background.onInstalled.
  destruct sync_get_error; [intros [= <- <-]; cbn; split_and!; auto; try done;
    intros l ->; done|].
  cbn [sync_snippets].
  destruct (sync_snippets b) as [|l|] eqn:Hsync.
  - destruct (sync_set_error []); intros [= <- <-]; cbn;
      split_and!; auto; try done. eauto.
  - intros [= <- <-]; cbn. split_and!; auto. eauto.
  - intros [= <- <-]; cbn. split_and!; auto; done.
Qed.

End SaveSnippet.

(** The selection "cats" saved from tab 7. *)
Lemma handleSaveSnippet_saves_snippet_with_vector_witness :
  let b := Background.mkBrowser (Background.mkWorld Unset [] [])
             (SnippetsArray []) 0 [] [] in
  exists b',
    Background.handleSaveSnippet (fun _ _ => Ok [1; 0]%float) None
      (fun _ => None) None (fun _ => None) (Some (fun _ => "u0"))
      (Some (utf16 "cats"))
      (Some (Background.mkTab (Some "https://example.org/") (Some 7))) b
    = (Ok tt, b') /\
    Background.sync_snippets b'
      = SnippetsArray [mkSnippet (Some "u0") (Some (utf16 "cats"))] /\
    index_of_stored (Background.local_store (Background.local b'))
      = Ok {["u0" := [1; 0]%float]} /\
    Background.animations b' = [(7, utf16 "cats")].
Proof.
  intros b. eexists. split; [reflexivity|].
  destruct (handleSaveSnippet_saves_snippet_with_vector
              (fun _ _ => Ok [1; 0]%float) None (fun _ => None) None
              (fun _ => None) (Some (fun _ => "u0")) (Some (utf16 "cats"))
              (Some (Background.mkTab (Some "https://example.org/") (Some 7)))
              b _ eq_refl)
    as (t & tabId & uuid & snippets & vector & index & index' & Ht & _ & _
        & Htab & Hu & _ & _ & _ & Hs & Hs' & _ & _ & _ & _ & _ & Ha).
  injection Ht as <-. injection Htab as <-. injection Hu as <-.
  injection Hs as <-. split; [exact Hs'|]. split; [reflexivity | exact Ha].
Defined.

(** The embedder rejects the selection: nothing is stored. *)
Lemma handleSaveSnippet_failure_witness :
  let b := Background.mkBrowser (Background.mkWorld Unset [] [])
             (SnippetsArray []) 0 [] [] in
  exists b',
    Background.handleSaveSnippet (fun _ _ => Err "Embedding failed.") None
      (fun _ => None) None (fun _ => None) (Some (fun _ => "u0"))
      (Some (utf16 "cats"))
      (Some (Background.mkTab (Some "https://example.org/") (Some 7))) b
    = (Err "Embedding failed.", b') /\
    Background.sync_snippets b' = SnippetsArray [] /\
    Background.local_store (Background.local b') = Unset /\
    Background.animations b' = [].
Proof.
  intros b. eexists. split; [reflexivity|].
  destruct (handleSaveSnippet_failure
              (fun _ _ => Err "Embedding failed.") None (fun _ => None) None
              (fun _ => None) (Some (fun _ => "u0")) (Some (utf16 "cats"))
              (Some (Background.mkTab (Some "https://example.org/") (Some 7)))
              b _ _ eq_refl)
    as (Ha & Hst & _ & [Hs | (t & uuid & snippets & vector & w & _ & _ & Hv & _)]).
  - split; [exact Hs|]. split; [exact Hst | exact Ha].
  - discriminate Hv.
Defined.

(** Installing again, with two snippets saved. *)
Lemma onInstalled_keeps_snippets_witness :
  let l := [mkSnippet (Some "a") (Some (utf16 "alpha"));
            mkSnippet (Some "b") (Some (utf16 "beta"))] in
  let b := Background.mkBrowser (Background.mkWorld Unset [] [])
             (SnippetsArray l) 2 [] ["save-snippet"] in
  exists b',
    Background.onInstalled None (fun _ => None) b = (Ok tt, b') /\
    Background.sync_snippets b' = SnippetsArray l.
Proof.
  intros l b. eexists. split; [reflexivity|].
  destruct (onInstalled_keeps_snippets None (fun _ => None) b _ _ eq_refl)
    as (_ & _ & _ & _ & _ & Hkeep).
  by apply Hkeep.
Defined.

(** ** The popup: finding, moving, deleting and clearing snippets *)

Section SnippetLists.
Import Popup.

Variable snippets_set_error : Area -> list Snippet -> option string.
Variable index_set_error : Index -> option string.
Variable storage_info_error : Area -> option string.

Local Abbreviation updateDisplay :=
  (Popup.updateDisplay storage_info_error).
Local Abbreviation moveSnippet :=
  (Popup.moveSnippet snippets_set_error storage_info_error).
Local Abbreviation deleteSnippet :=
  (Popup.deleteSnippet snippets_set_error index_set_error
     storage_info_error).

Lemma findIndex_first i l n :
  findIndex i l = Some n ->
  forall m y, m < n -> l !! m = Some y -> id y <> Some i.
Proof.
  revert n. induction l as [|x l IH]; intros n; simpl; [done|].
  destruct (decide (id x = Some i)) as [Hx | Hx].
  - intros [= <-] m y Hm. lia.
  - destruct (findIndex i l) as [k|]; [|done].
    intros [= <-] [|m] y Hm; simpl.
    + by intros [= <-].
    + apply (IH k eq_refl). lia.
Qed.

Lemma findIndex_none i l :
  findIndex i l = None -> forall y, y ∈ l -> id y <> Some i.
Proof.
  intros Hnone y Hy Hid.
  destruct (findIndex_found i l y Hy Hid) as [n Hn]. congruence.
Qed.

Lemma getSnippetIndex_inv (s : State) (a : Area) (i : string) (n : nat) :
  getSnippetIndex s a i = Ok n ->
  i <> "" /\
  (exists x, snippetsByArea s a !! n = Some x /\ id x = Some i) /\
  (forall m y, m < n -> snippetsByArea s a !! m = Some y -> id y <> Some i).
Proof.
  unfold getSnippetIndex.
  destruct (decide (i = "")) as [->|Hi]; [discriminate|].
  destruct (findIndex i (snippetsByArea s a)) as [k|] eqn:Hfind;
    [|discriminate].
  intros [= <-]. split; [done|]. split.
  - by apply findIndex_lookup.
  - by apply findIndex_first.
Qed.

(** X11. [getSnippetIndex] returns the position of the first snippet of
    the area that has the id.  It throws for the empty id, and for an id
    that no snippet of the area has. *)
Theorem getSnippetIndex_first_match (s : State) (a : Area) (i : string) :
  match getSnippetIndex s a i with
  | Ok n =>
      i <> "" /\
      (exists x, snippetsByArea s a !! n = Some x /\ id x = Some i) /\
      (forall m y, m < n -> snippetsByArea s a !! m = Some y ->
                   id y <> Some i)
  | Err e =>
      (i = "" /\ e = "Snippet ID is required.") \/
      (i <> "" /\ e = "Snippet not found." /\
       forall y, y ∈ snippetsByArea s a -> id y <> Some i)
  end.
Proof.
  destruct (getSnippetIndex s a i) as [n|e] eqn:Hget.
  - by apply getSnippetIndex_inv.
  - revert Hget. unfold getSnippetIndex.
    destruct (decide (i = "")) as [->|Hi]; [intros [= <-]; by left|].
    destruct (findIndex i (snippetsByArea s a)) as [n|] eqn:Hfind;
      [discriminate|].
    intros [= <-]. right. split; [done|]. split; [done|].
    by apply findIndex_none.
Qed.

Lemma snippets_of_areas (s : State) (a : Area) :
  snippets_local s ++ snippets_sync s
    ≡ₚ snippetsByArea s a ++ snippetsByArea s (targetArea a).
Proof. destruct a; simpl; [done | apply Permutation_app_comm]. Qed.

Lemma set_snippets_same a l s : snippetsByArea (set_snippets a l s) a = l.
Proof. by destruct a. Qed.

Lemma set_snippets_other a a' l s :
  a' <> a -> snippetsByArea (set_snippets a l s) a' = snippetsByArea s a'.
Proof. by destruct a, a'. Qed.

Lemma updateDisplay_snippets s a :
  snippetsByArea (updateDisplay s).2 a = snippetsByArea s a.
Proof.
  destruct (updateDisplay_frame storage_info_error s) as (_ & Hl & Hs).
  destruct a; simpl; congruence.
Qed.

Lemma saveSnippetsForArea_snippets a l s a' :
  snippetsByArea (saveSnippetsForArea snippets_set_error a l s).2 a'
    = snippetsByArea s a'.
Proof.
  destruct (saveSnippetsForArea_frame snippets_set_error a l s)
    as (_ & Hl & Hs & _).
  destruct a'; simpl; congruence.
Qed.

Lemma saveSnippetsForArea_cases a l s :
  saveSnippetsForArea snippets_set_error a l s
    = (Ok tt, log_saved_snippets a l s) \/
  exists e, saveSnippetsForArea snippets_set_error a l s = (Err e, s).
Proof.
  unfold saveSnippetsForArea. destruct (snippets_set_error a l); eauto.
Qed.

Lemma updateDisplay_saved s :
  saved_snippets (updateDisplay s).2 = saved_snippets s.
Proof.
  unfold Popup.updateDisplay, mbind, M_bind, modify, get,
    updateStorageInfo, throw, mret, M_ret.
  cbn. destruct (storage_info_error (activeArea s)); cbn; [done|].
  unfold displaySnippets. by destruct (unranked (activeArea s) _).
Qed.

(** What a move does to the two lists and to the storage, whatever its
    outcome: nothing; or the first snippet with the id is taken out of
    the source list and put at the end of the target list in memory,
    and then the source list is written, and then the target list, the
    move stopping at the first write that fails. *)
Lemma moveSnippet_lists a i tgt s :
  ((forall a', snippetsByArea (moveSnippet a i tgt s).2 a'
               = snippetsByArea s a') /\
   saved_snippets (moveSnippet a i tgt s).2 = saved_snippets s /\
   is_ok (moveSnippet a i tgt s).1 = false) \/
  (tgt = targetArea a /\
   exists n x,
     snippetsByArea s a !! n = Some x /\ id x = Some i /\
     Forall (fun y => id y <> Some i) (snippetsByArea s tgt) /\
     snippetsByArea (moveSnippet a i tgt s).2 a
       = delete n (snippetsByArea s a) /\
     snippetsByArea (moveSnippet a i tgt s).2 tgt
       = snippetsByArea s tgt ++ [x] /\
     (is_ok (moveSnippet a i tgt s).1 = false /\
      saved_snippets (moveSnippet a i tgt s).2 = saved_snippets s \/
      is_ok (moveSnippet a i tgt s).1 = false /\
      saved_snippets (moveSnippet a i tgt s).2
        = saved_snippets s ++ [(a, delete n (snippetsByArea s a))] \/
      saved_snippets (moveSnippet a i tgt s).2
        = saved_snippets s ++ [(a, delete n (snippetsByArea s a));
                               (tgt, snippetsByArea s tgt ++ [x])])).
Proof.
  unfold Popup.moveSnippet.
  destruct (decide (tgt = a)) as [->|Hne]; [by left|].
  unfold mbind, M_bind, get, lift, throw, modify. cbn [fst snd].
  unfold getSnippetIndex. destruct (decide (i = "")) as [?|Hi]; [by left|].
  destruct (findIndex i (snippetsByArea s a)) as [n|] eqn:Hfind; [|by left].
  destruct (findIndex_lookup _ _ _ Hfind) as (x & Hlook & Hx).
  rewrite Hlook. destruct (bool_decide _) eqn:Hdup; [by left|].
  right. split; [by destruct a, tgt|]. exists n, x.
  split; [done|]. split; [done|]. split.
  { apply bool_decide_eq_false in Hdup. rewrite Hx in Hdup.
    by apply not_Exists_Forall in Hdup; [|intros y; apply _]. }
  set (s1 := set_snippets tgt _ (set_snippets a _ s)).
  assert (H1 : snippetsByArea s1 a = delete n (snippetsByArea s a)).
  { unfold s1. rewrite set_snippets_other by done.
    apply set_snippets_same. }
  assert (H2 : snippetsByArea s1 tgt = snippetsByArea s tgt ++ [x]).
  { unfold s1. apply set_snippets_same. }
  assert (H0 : saved_snippets s1 = saved_snippets s) by done.
  destruct (saveSnippetsForArea_cases a (delete n (snippetsByArea s a)) s1)
    as [Hw1 | [e1 Hw1]]; rewrite Hw1; cbn [fst snd];
    [|split_and!; auto].
  set (s2 := log_saved_snippets a _ s1).
  assert (H3 : forall a', snippetsByArea s2 a' = snippetsByArea s1 a')
    by (by intros []).
  assert (H5 : saved_snippets s2
               = saved_snippets s ++ [(a, delete n (snippetsByArea s a))])
    by done.
  destruct (saveSnippetsForArea_cases tgt (snippetsByArea s tgt ++ [x]) s2)
    as [Hw2 | [e2 Hw2]]; rewrite Hw2; cbn [fst snd].
  2:{ rewrite !H3. split_and!; auto. }
  set (s3 := log_saved_snippets tgt _ s2).
  assert (H4 : forall a', snippetsByArea s3 a' = snippetsByArea s1 a')
    by (by intros []).
  rewrite !updateDisplay_snippets, !H4, updateDisplay_saved.
  split_and!; try done. right. right. cbn.
  by rewrite <- app_assoc.
Qed.

(** X12. A move and its snippets.  In memory a move never loses or
    duplicates a snippet, whatever its outcome (a refused move, a failed
    write, a failed refresh): the two lists together hold the same
    snippets before and after, so the ids in use are the same, and the
    index is not touched.  In storage the source list is written first
    and the target list second.  A move that returned has written both
    lists as they are in memory.  A move that threw has written nothing,
    or both lists, or the source list alone: what was written is the
    source list with the snippet taken out, and the target list, which
    held no snippet of that id and holds the snippet in memory now, was
    not written. *)
Theorem moveSnippet_keeps_lists_not_storage
    (a tgt : Area) (i : string) (s : State) :
  let r := (moveSnippet a i tgt s).1 in
  let s' := (moveSnippet a i tgt s).2 in
  snippets_local s' ++ snippets_sync s'
    ≡ₚ snippets_local s ++ snippets_sync s /\
  live_ids s' = live_ids s /\
  embeddingsIndex s' = embeddingsIndex s /\
  (saved_snippets s' = saved_snippets s /\ is_ok r = false \/
   (saved_snippets s' = saved_snippets s ++ [(a, snippetsByArea s' a)] /\
    is_ok r = false /\
    exists n x, snippetsByArea s a !! n = Some x /\ id x = Some i /\
                snippetsByArea s' a = delete n (snippetsByArea s a) /\
                snippetsByArea s' tgt = snippetsByArea s tgt ++ [x] /\
                Forall (fun y => id y <> Some i) (snippetsByArea s tgt)) \/
   saved_snippets s' =
     saved_snippets s ++ [(a, snippetsByArea s' a);
                          (tgt, snippetsByArea s' tgt)]) /\
  (r = Ok tt ->
   saved_snippets s' =
     saved_snippets s ++ [(a, snippetsByArea s' a);
                          (tgt, snippetsByArea s' tgt)]).
Proof.
  intros r s'.
  assert (Hperm : snippets_local s' ++ snippets_sync s'
                    ≡ₚ snippets_local s ++ snippets_sync s).
  { subst s'.
    destruct (moveSnippet_lists a i tgt s)
      as [(Hsame & _) | (-> & n & x & Hlook & _ & _ & Hsrc & Hdst & _)].
    - pose proof (Hsame area_local) as Hl. pose proof (Hsame area_sync) as Hs.
      simpl in Hl, Hs. by rewrite Hl, Hs.
    - rewrite (snippets_of_areas _ a), (snippets_of_areas s a).
      rewrite Hsrc, Hdst.
      rewrite (delete_Permutation (snippetsByArea s a) n x Hlook) at 2.
      rewrite (Permutation_app_comm _ [x]). simpl.
      by rewrite Permutation_middle. }
  assert (Hwrites :
    saved_snippets s' = saved_snippets s /\ is_ok r = false \/
    (saved_snippets s' = saved_snippets s ++ [(a, snippetsByArea s' a)] /\
     is_ok r = false /\
     exists n x, snippetsByArea s a !! n = Some x /\ id x = Some i /\
                 snippetsByArea s' a = delete n (snippetsByArea s a) /\
                 snippetsByArea s' tgt = snippetsByArea s tgt ++ [x] /\
                 Forall (fun y => id y <> Some i) (snippetsByArea s tgt)) \/
    saved_snippets s' =
      saved_snippets s ++ [(a, snippetsByArea s' a);
                           (tgt, snippetsByArea s' tgt)]).
  { subst r s'.
    destruct (moveSnippet_lists a i tgt s)
      as [(_ & Hsaved & Hr)
         | (-> & n & x & Hlook & Hx & Hnew & Hsrc & Hdst & Hcases)];
      [by left|].
    rewrite Hsrc, Hdst.
    destruct Hcases as [[Hr Hs] | [[Hr Hs] | Hs]]; [by left | | by right; right].
    right. left. split; [done|]. split; [done|]. by exists n, x. }
  split; [exact Hperm|]. split; [|split; [|split; [exact Hwrites|]]].
  - unfold live_ids. by rewrite Hperm.
  - by destruct (moveSnippet_frame snippets_set_error storage_info_error
                   a i tgt s) as (H & _).
  - intros Hr. destruct Hwrites as [[_ Hno] | [(_ & Hno & _) | Hs]];
      [| |done]; rewrite Hr in Hno; discriminate Hno.
Qed.

(** The write of the target list fails: the snippet is in memory, and in
    neither of the lists last written or left in storage. *)
Example moveSnippet_failed_target_write :
  let y := mkSnippet (Some "y") (Some (utf16 "gone")) in
  let quota := fun (a : Area) (_ : list Snippet) =>
                 if a is area_local then Some "QUOTA_BYTES quota exceeded"
                 else None in
  let s' := (Popup.moveSnippet quota (fun _ => None) area_sync "y"
               area_local example_unembedded).2 in
  (Popup.moveSnippet quota (fun _ => None) area_sync "y" area_local
     example_unembedded).1
    = Err "Storage write failed: QUOTA_BYTES quota exceeded" /\
  snippets_local s' = [mkSnippet (Some "x") (Some (utf16 "kept")); y] /\
  snippets_sync s' = [] /\
  saved_snippets s' = [(area_sync, [])].
Proof. by vm_compute. Qed.

Lemma collect_ids_err l : forall ids0 e,
  collect_ids l ids0 = Err e -> e = "Snippet entry is invalid.".
Proof.
  induction l as [|x l IH]; intros ids0 e; simpl; [done|].
  destruct (truthy_id x); [apply IH | by intros [= <-]].
Qed.

(** A prune pass either returns, on snippets that all have ids, or
    throws and leaves the popup as it was. *)
Lemma pruneEmbeddingsIndex_inv (s s' : State) (r : result bool) :
  pruneEmbeddingsIndex s = (r, s') ->
  (r = Err "Snippet entry is invalid." /\ s' = s /\ ~ all_have_ids s) \/
  (all_have_ids s /\
   exists changed index',
     r = Ok changed /\ s' = set_index index' s /\
     (forall k, index' !! k =
        if decide (k ∈ live_ids s) then embeddingsIndex s !! k else None) /\
     (changed = true <->
      exists k, k ∈ dom (embeddingsIndex s) /\ k ∉ live_ids s)).
Proof.
  intros Hrun.
  destruct (decide (Forall (fun x => is_Some (truthy_id x))
                      (snippets_local s ++ snippets_sync s))) as [Hall | Hn].
  - right. split; [done|].
    destruct (pruneEmbeddingsIndex_spec s Hall)
      as (changed & index' & Hspec & Hlook & Hch).
    rewrite Hspec in Hrun. injection Hrun as <- <-.
    by exists changed, index'.
  - left. unfold pruneEmbeddingsIndex in Hrun.
    destruct (collect_ids (snippets_local s) ∅) as [ids1|e1] eqn:H1.
    + destruct (collect_ids (snippets_sync s) ids1) as [ids|e2] eqn:H2.
      * apply collect_ids_inv in H1 as [Hl _].
        apply collect_ids_inv in H2 as [Hs _].
        destruct Hn. by apply Forall_app.
      * apply collect_ids_err in H2 as ->. by injection Hrun as <- <-.
    + apply collect_ids_err in H1 as ->. by injection Hrun as <- <-.
Qed.

Lemma live_ids_same s s' : same_snippets s s' -> live_ids s' = live_ids s.
Proof. intros [Hl Hs]. unfold live_ids. by rewrite Hl, Hs. Qed.

Lemma all_have_ids_same s s' :
  same_snippets s s' -> all_have_ids s -> all_have_ids s'.
Proof. intros [Hl Hs]. unfold all_have_ids. by rewrite Hl, Hs. Qed.

Lemma same_snippets_by_area s s' :
  same_snippets s s' -> forall a, snippetsByArea s' a = snippetsByArea s a.
Proof. intros [Hl Hs] []; done. Qed.

(** [updateDisplay] that returned: the popup is refreshed; its
    snippets, area and index are as before. *)
Lemma updateDisplay_ok s s' :
  updateDisplay s = (Ok tt, s') ->
  refreshed s' /\ same_snippets s s' /\ activeArea s' = activeArea s /\
  embeddingsIndex s' = embeddingsIndex s /\
  searchToken s' = searchToken s /\
  saved_indexes s' = saved_indexes s /\
  saved_snippets s' = saved_snippets s /\ sent s' = sent s.
Proof.
  destruct s as [l1 l2 act index token input st ti li se ss si].
  unfold Popup.updateDisplay, mbind, M_bind, modify, get,
    updateStorageInfo, throw, mret, M_ret, refreshed, area_listing,
    same_snippets, displaySnippets, unranked, getActiveSnippets.
  cbn.
  destruct (storage_info_error act); cbn; [done|].
  intros [= <-]. by destruct act, l1, l2.
Qed.

(** The end of [deleteSnippet] and of [clearAllSnippets]: the prune
    pass, the write of the index if it changed, the refresh. *)
Lemma prune_and_refresh s s' :
  (pruned ← pruneEmbeddingsIndex;
   (if pruned : bool then saveEmbeddingsIndex index_set_error
    else mret tt) ;;
   updateDisplay) s = (Ok tt, s') ->
  same_snippets s s' /\ activeArea s' = activeArea s /\
  all_have_ids s' /\ refreshed s' /\
  (forall k, embeddingsIndex s' !! k =
     if decide (k ∈ live_ids s') then embeddingsIndex s !! k else None) /\
  (saved_indexes s' = saved_indexes s /\
     embeddingsIndex s' = embeddingsIndex s \/
   saved_indexes s' = saved_indexes s ++ [embeddingsIndex s'] /\
     exists k, k ∈ dom (embeddingsIndex s) /\
               k ∉ dom (embeddingsIndex s')) /\
  saved_snippets s' = saved_snippets s /\ sent s' = sent s.
Proof.
  unfold mbind at 1, M_bind at 1.
  destruct (pruneEmbeddingsIndex s) as [[changed|e] s1] eqn:Hprune;
    [|discriminate].
  apply pruneEmbeddingsIndex_inv in Hprune
    as [(? & _) | (Hall & ? & index' & [= <-] & -> & Hlook & Hch)];
    [discriminate|].
  unfold mbind, M_bind.
  destruct changed.
  - unfold saveEmbeddingsIndex. cbn [embeddingsIndex set_index].
    destruct (index_set_error index'); [discriminate|].
    intros (Href & Hsame & Hact & Hidx & _ & Hsaved & Hsn & Hsent)%updateDisplay_ok.
    cbn in Hsame, Hact, Hidx, Hsaved, Hsn, Hsent.
    assert (Hsame' : same_snippets s s') by exact Hsame.
    split_and!; try done.
    + by apply (all_have_ids_same s).
    + intros k. rewrite Hidx, (live_ids_same s s' Hsame'). apply Hlook.
    + right. split; [by rewrite Hsaved, Hidx|].
      destruct Hch as [Hch _]. destruct (Hch eq_refl) as (k & Hk & Hnot).
      exists k. split; [done|]. rewrite Hidx. apply not_elem_of_dom.
      rewrite Hlook. by rewrite decide_False.
  - unfold mret, M_ret.
    intros (Href & Hsame & Hact & Hidx & _ & Hsaved & Hsn & Hsent)%updateDisplay_ok.
    cbn in Hsame, Hact, Hidx, Hsaved, Hsn, Hsent.
    assert (Hsame' : same_snippets s s') by exact Hsame.
    split_and!; try done.
    + by apply (all_have_ids_same s).
    + intros k. rewrite Hidx, (live_ids_same s s' Hsame'). apply Hlook.
    + left. split; [done|]. rewrite Hidx. apply map_eq. intros k.
      rewrite Hlook. destruct (decide (k ∈ live_ids s)) as [|Hk]; [done|].
      destruct (embeddingsIndex s !! k) as [v|] eqn:Hv; [|done].
      assert (Hc : false = true); [|done].
      apply Hch. exists k. split; [|done]. apply elem_of_dom. eauto.
Qed.

(** X13. A delete that returned took the first snippet with the id out
    of its area, left the other area alone, and pruned the index: the
    entries of the ids still in use are kept with their vectors, every
    other entry is gone, and the index was written to the store exactly
    when an entry went (either the index is as it was and nothing was
    written, or an entry is gone and the pruned index was written once).
    The popup shows the active area afresh. *)
Theorem deleteSnippet_removes_snippet_and_orphans
    (a : Area) (i : string) (s s' : State) :
  deleteSnippet a i s = (Ok tt, s') ->
  exists n x,
    snippetsByArea s a !! n = Some x /\ id x = Some i /\
    (forall m y, m < n -> snippetsByArea s a !! m = Some y ->
                 id y <> Some i) /\
    snippetsByArea s' a = delete n (snippetsByArea s a) /\
    snippetsByArea s' (targetArea a) = snippetsByArea s (targetArea a) /\
    (forall k, embeddingsIndex s' !! k =
       if decide (k ∈ live_ids s') then embeddingsIndex s !! k else None) /\
    dom (embeddingsIndex s') ⊆ live_ids s' /\
    (saved_indexes s' = saved_indexes s /\
       embeddingsIndex s' = embeddingsIndex s \/
     saved_indexes s' = saved_indexes s ++ [embeddingsIndex s'] /\
       exists k, k ∈ dom (embeddingsIndex s) /\
                 k ∉ dom (embeddingsIndex s')) /\
    saved_snippets s' = saved_snippets s ++ [(a, snippetsByArea s' a)] /\
    sent s' = sent s /\ refreshed s'.
Proof.
  unfold Popup.deleteSnippet.
  unfold mbind at 1, M_bind at 1, get. 
  unfold mbind at 1, M_bind at 1, lift.
  destruct (getSnippetIndex s a i) as [n|] eqn:Hget; [|discriminate].
  destruct (getSnippetIndex_inv _ _ _ _ Hget)
    as (Hi & (x & Hlook & Hx) & Hbefore).
  unfold mbind at 1, M_bind at 1, modify.
  unfold mbind at 1, M_bind at 1, saveSnippetsForArea.
  destruct (snippets_set_error a _); [discriminate|].
  set (s2 := log_saved_snippets a _ _).
  intros (Hsame & Hact & Hall & Href & Hidx & Hsaved & Hsn & Hsent)%prune_and_refresh.
  pose proof (same_snippets_by_area _ _ Hsame) as Hby.
  exists n, x. split_and!; try done.
  - rewrite Hby. unfold s2. by destruct a.
  - rewrite Hby. unfold s2. by destruct a.
  - intros k [v Hk]%elem_of_dom. rewrite Hidx in Hk.
    by destruct (decide (k ∈ live_ids s')).
  - rewrite Hsn, Hby. unfold s2. by destruct a.
Qed.

(** X25. With the id of a snippet that is the only one of its area to
    have it, [copySnippet] copies the text of that very snippet; it
    throws if the snippet has no text. *)
Theorem copySnippet_copies_the_snippet
    (s : State) (a : Area) (i : string) (x : Snippet) :
  x ∈ snippetsByArea s a -> id x = Some i -> i <> "" ->
  (forall y, y ∈ snippetsByArea s a -> id y = Some i -> y = x) ->
  copySnippet s a i =
    match text x with
    | Some t => Ok t
    | None => Err "Snippet text is missing."
    end.
Proof.
  intros Hin Hx Hi Huniq. unfold copySnippet, getSnippetIndex.
  rewrite decide_False by done.
  destruct (findIndex_found i _ x Hin Hx) as [n Hfind]. rewrite Hfind.
  destruct (findIndex_lookup _ _ _ Hfind) as (y & Hlook & Hy).
  rewrite Hlook. cbn.
  rewrite (Huniq y); [|by eapply list_elem_of_lookup_2|done].
  by destruct (text x).
Qed.

(** X26. The moves that are refused: to the area the snippet is in, of
    the empty id, of an id that no snippet of the source area has, of an
    id that a snippet of the target area has.  A refused move throws and
    changes nothing, in memory or in storage. *)
Theorem moveSnippet_refusals
    (a tgt : Area) (i : string) (s : State) :
  tgt = a \/ i = "" \/
  (forall y, y ∈ snippetsByArea s a -> id y <> Some i) \/
  (exists y, y ∈ snippetsByArea s tgt /\ id y = Some i) ->
  exists e,
    moveSnippet a i tgt s = (Err e, s) /\
    e ∈ ["Target storage area must be different.";
         "Snippet ID is required."; "Snippet not found.";
         "Snippet already exists in target storage."].
Proof.
  intros Hcase. unfold Popup.moveSnippet.
  destruct (decide (tgt = a)) as [->|Hne].
  { eexists. split; [reflexivity|]. set_solver. }
  unfold mbind, M_bind, get, lift, throw, modify. cbn [fst snd].
  unfold getSnippetIndex.
  destruct (decide (i = "")) as [->|Hi].
  { eexists. split; [reflexivity|]. set_solver. }
  destruct (findIndex i (snippetsByArea s a)) as [n|] eqn:Hfind.
  2:{ eexists. split; [reflexivity|]. set_solver. }
  destruct (findIndex_lookup _ _ _ Hfind) as (x & Hlook & Hx).
  rewrite Hlook.
  destruct Hcase as [? | [? | [Hnone | (y & Hy & Hid)]]]; try done.
  { destruct (Hnone x); [by eapply list_elem_of_lookup_2 | done]. }
  rewrite bool_decide_eq_true_2.
  2:{ apply Exists_exists. exists y. split; [done | congruence]. }
  eexists. split; [reflexivity|]. set_solver.
Qed.

End SnippetLists.

(** ** The popup: opening, switching areas, clearing *)

Section PopupLifecycle.
Import Popup.

Variable snippets_set_error : Area -> list Snippet -> option string.
Variable index_set_error : Index -> option string.
Variable storage_info_error : Area -> option string.
Variable randomUUID : option (nat -> string).
Variable ensure_reply : list Snippet -> Reply.
Variable index_load : Load.
Variable snippets_load : Area -> SnippetsLoad.
Variable initial_index_load : Load.

Local Abbreviation updateDisplay :=
  (Popup.updateDisplay storage_info_error).
Local Abbreviation ensureMissingEmbeddings :=
  (Popup.ensureMissingEmbeddings ensure_reply index_load).
Local Abbreviation setActiveArea :=
  (Popup.setActiveArea storage_info_error ensure_reply index_load).
Local Abbreviation clearAllSnippets :=
  (Popup.clearAllSnippets snippets_set_error index_set_error
     storage_info_error).
Local Abbreviation ensureSnippetIds :=
  (Popup.ensureSnippetIds snippets_set_error randomUUID).

(** X14. [clearAllSnippets].  Declined, it changes nothing.  Confirmed
    and returned, it emptied the active area and stored the empty list,
    left the other area alone and pruned the index: entries of ids that
    the other area uses are kept, every other entry is gone.  The list
    shows the empty state. *)
Theorem clearAllSnippets_empties_active_area
    (confirmed : bool) (s s' : State) :
  clearAllSnippets confirmed s = (Ok tt, s') ->
  if confirmed then
    activeArea s' = activeArea s /\
    snippetsByArea s' (activeArea s) = [] /\
    snippetsByArea s' (targetArea (activeArea s))
      = snippetsByArea s (targetArea (activeArea s)) /\
    (forall k, embeddingsIndex s' !! k =
       if decide (k ∈ live_ids s') then embeddingsIndex s !! k else None) /\
    dom (embeddingsIndex s') ⊆ live_ids s' /\
    saved_snippets s' = saved_snippets s ++ [(activeArea s, [])] /\
    sent s' = sent s /\ refreshed s' /\
    listing s' =
      EmptyState
        ("No " ++ lowerAreaLabel (activeArea s) ++
         " snippets yet. Save a selection to start building your vault.")%string
  else s' = s.
Proof.
  unfold Popup.clearAllSnippets. destruct confirmed; [|by intros [= <-]].
  unfold mbind at 1, M_bind at 1, get.
  unfold mbind at 1, M_bind at 1, modify.
  unfold mbind at 1, M_bind at 1, saveSnippetsForArea.
  destruct (snippets_set_error (activeArea s) []); [discriminate|].
  set (s2 := log_saved_snippets _ _ _).
  intros (Hsame & Hact & Hall & Href & Hidx & Hsaved & Hsn & Hsent)%prune_and_refresh.
  pose proof (same_snippets_by_area _ _ Hsame) as Hby.
  assert (Hs2 : activeArea s2 = activeArea s) by reflexivity.
  assert (Hempty : snippetsByArea s' (activeArea s) = []).
  { rewrite Hby. unfold s2. by destruct (activeArea s). }
  split_and!; try done.
  - rewrite Hby. unfold s2. by destruct (activeArea s).
  - intros k [v Hk]%elem_of_dom. rewrite Hidx in Hk.
    by destruct (decide (k ∈ live_ids s')).
  - destruct Href as (Hlist & _). rewrite Hlist. unfold area_listing,
      getActiveSnippets. rewrite Hact, Hs2, Hempty. done.
Qed.

(** [ensureMissingEmbeddings] touches the index, the status line and
    the messages sent, nothing else. *)
Lemma ensureMissingEmbeddings_frame a s :
  same_results s (ensureMissingEmbeddings a s).2 /\
  activeArea (ensureMissingEmbeddings a s).2 = activeArea s /\
  search_input (ensureMissingEmbeddings a s).2 = search_input s /\
  saved_snippets (ensureMissingEmbeddings a s).2 = saved_snippets s /\
  saved_indexes (ensureMissingEmbeddings a s).2 = saved_indexes s.
Proof.
  unfold Popup.ensureMissingEmbeddings, ensureMissing_start, same_results.
  destruct (snippetsByArea s a) as [|x l]; [done|].
  destruct (collect_missing (embeddingsIndex s) (x :: l)) as [[|y m]|e];
    [done| |done].
  destruct (check_ensure_reply _); [|done].
  unfold ensureMissing_loaded.
  destruct (index_of_load index_load) as [index|]; [|done].
  by destruct (filter _ _).
Qed.

(** What [setActiveArea] did, whatever its outcome. *)
Lemma setActiveArea_inv (a : Area) (s s' : State) (r : result unit) :
  setActiveArea a s = (r, s') ->
  activeArea s' = a /\ searchToken s' = S (searchToken s) /\
  same_snippets s s' /\ (r = Ok tt -> refreshed s').
Proof.
  unfold Popup.setActiveArea.
  set (s1 := updateAreaChrome _).
  destruct (ensureMissingEmbeddings_frame a s1)
    as ((_ & _ & Htok & Hl & Hs) & Hact & _).
  change (activeArea s1) with a in Hact.
  change (searchToken s1) with (S (searchToken s)) in Htok.
  change (snippets_local s1) with (snippets_local s) in Hl.
  change (snippets_sync s1) with (snippets_sync s) in Hs.
  destruct (ensureMissingEmbeddings a s1) as [[[]|e] s2] eqn:Hensure;
    cbn [snd] in *.
  - intros Hup. destruct r as [[]|e].
    + apply updateDisplay_ok in Hup
        as (Href & [Hl' Hs'] & Hact' & _ & Htok' & _).
      split_and!; try done; try congruence.
      split; congruence.
    + pose proof (updateDisplay_frame storage_info_error s2)
        as (_ & Hl' & Hs').
      rewrite Hup in Hl', Hs'. cbn in Hl', Hs'.
      assert (s' = updateAreaChrome s2) as ->.
      { revert Hup. unfold Popup.updateDisplay, mbind, M_bind, modify,
          get, updateStorageInfo, throw, mret, M_ret. cbn.
        destruct (storage_info_error _); [by intros [= _ <-]|done]. }
      cbn. split_and!; try done; try congruence.
  - intros [= <- <-]. cbn. split_and!; try done.
Qed.

(** X15. Switching areas takes the search token: whatever the outcome
    of [setActiveArea], the area is the one asked for, the snippets are
    as before, and every search issued earlier is superseded, so that it
    displays nothing and reports nothing when it completes.  A switch
    that returned shows the area afresh. *)
Theorem setActiveArea_supersedes_searches
    (a : Area) (s s' : State) (r : result unit) :
  setActiveArea a s = (r, s') ->
  activeArea s' = a /\ searchToken s' = S (searchToken s) /\
  same_snippets s s' /\
  (forall t, requestId t <= searchToken s ->
     (forall ranked,
        show_ranked t ranked s' = (at_pc t (Settled Superseded), s')) /\
     (forall e, on_error t e s' = (at_pc t (Settled Superseded), s'))) /\
  (r = Ok tt -> refreshed s').
Proof.
  intros (H1 & H2 & H3 & H4)%setActiveArea_inv. split_and!; try done.
  intros t Ht. split; [intros ranked | intros e];
    unfold show_ranked, on_error; rewrite decide_True; try done; lia.
Qed.

(** The new array of [ensureSnippetIds]: snippets with an id are kept
    as they are, the others get the ids drawn, in order. *)
Lemma assign_ids_spec uuid l : forall k next k' updated,
  assign_ids uuid k l = (next, k', updated) ->
  Forall2 (fun x y =>
             same_but_id x y /\
             (truthy_id x = None ->
              exists j, k <= j < k' /\ id y = Some (uuid j))) l next /\
  k' = k + length (filter (fun x => truthy_id x = None) l) /\
  (updated = true <-> k < k').
Proof.
  induction l as [|x l IH]; intros k next k' updated; simpl.
  - intros [= <- <- <-]. split; [constructor|]. split; [lia|].
    split; [done | lia].
  - destruct (truthy_id x) as [i|] eqn:Hid.
    + destruct (assign_ids uuid k l) as [[next0 k0] updated0] eqn:Hrest.
      intros [= <- <- <-].
      destruct (IH _ _ _ _ Hrest) as (Hall & Hk & Hup).
      rewrite filter_cons_False by (by rewrite Hid).
      split_and!; try done. constructor; [|done].
      split; [by split|]. by rewrite Hid.
    + destruct (assign_ids uuid (S k) l) as [[next0 k0] updated0] eqn:Hrest.
      intros [= <- <- <-].
      destruct (IH _ _ _ _ Hrest) as (Hall & Hk & Hup).
      rewrite filter_cons_True by done. simpl.
      split_and!; try lia; try (split; [intros _; lia | done]).
      constructor.
      * split; [split; [done|]|].
        -- rewrite Hid. by intros [? ?].
        -- intros _. exists k. split; [lia | done].
      * eapply Forall2_impl; [exact Hall|].
        intros y z [Hsame Hnew]. split; [done|].
        intros Hy. destruct (Hnew Hy) as (j & Hj & Hz).
        exists j. split; [lia | done].
Qed.

Lemma Forall2_same_but_id_refl l : Forall2 same_but_id l l.
Proof. induction l; constructor; [by split | done]. Qed.

(** What [ensureSnippetIds] that returned did, with or without
    [crypto.randomUUID]. *)
Lemma ensureSnippetIds_inv k a s k' s' :
  ensureSnippetIds k a s = (Ok k', s') ->
  Forall2 same_but_id (snippetsByArea s a) (snippetsByArea s' a) /\
  snippetsByArea s' (targetArea a) = snippetsByArea s (targetArea a) /\
  activeArea s' = activeArea s /\ searchToken s' = searchToken s /\
  embeddingsIndex s' = embeddingsIndex s /\ sent s' = sent s /\
  saved_indexes s' = saved_indexes s /\
  (k' = k /\ saved_snippets s' = saved_snippets s \/
   k < k' /\
   saved_snippets s' = saved_snippets s ++ [(a, snippetsByArea s' a)]) /\
  (forall uuid, randomUUID = Some uuid ->
     assign_ids uuid k (snippetsByArea s a)
       = (snippetsByArea s' a, k', bool_decide (k < k'))).
Proof.
  unfold Popup.ensureSnippetIds.
  destruct randomUUID as [uuid|].
  - destruct (assign_ids uuid k (snippetsByArea s a))
      as [[next k0] updated] eqn:Hassign.
    destruct (assign_ids_spec _ _ _ _ _ _ Hassign) as (Hall & Hk & Hup).
    assert (Hsame : Forall2 same_but_id (snippetsByArea s a) next).
    { eapply Forall2_impl; [exact Hall|]. by intros x y [? _]. }
    destruct updated.
    + unfold mbind, M_bind, saveSnippetsForArea, mret, M_ret.
      destruct (snippets_set_error a next); [discriminate|].
      intros [= <- <-].
      assert (k < k0) by (by apply Hup).
      destruct a; cbn; split_and!; try done; try (right; by split);
        intros ? [= <-]; by rewrite bool_decide_eq_true_2.
    + intros [= <- <-].
      assert (~ k < k0) by (intros ?%Hup; done).
      assert (k0 = k) as -> by lia.
      destruct a; cbn; split_and!; try done; try (left; by split);
        intros ? [= <-]; by rewrite bool_decide_eq_false_2.
  - destruct (bool_decide _); [|discriminate].
    intros [= <- <-].
    destruct a; cbn; split_and!; try done;
      try apply Forall2_same_but_id_refl; try (left; by split).
Qed.

(** X19. [ensureSnippetIds] with [crypto.randomUUID] at hand, its ids
    not empty: afterwards every snippet of the area has an id.  A
    snippet that had one is kept as it is; one that had none keeps its
    text and gets one of the ids drawn by this call.  As many ids are
    drawn as snippets lacked one, and the list is written to storage
    exactly when one was drawn.  The other area and the index are not
    touched. *)
Theorem ensureSnippetIds_gives_every_snippet_an_id
    (uuid : nat -> string) (k k' : nat) (a : Area) (s s' : State) :
  randomUUID = Some uuid -> (forall n, uuid n <> "") ->
  ensureSnippetIds k a s = (Ok k', s') ->
  Forall (fun y => is_Some (truthy_id y)) (snippetsByArea s' a) /\
  Forall2 (fun x y =>
             same_but_id x y /\
             (truthy_id x = None ->
              exists j, k <= j < k' /\ id y = Some (uuid j)))
    (snippetsByArea s a) (snippetsByArea s' a) /\
  k' = k + length (filter (fun x => truthy_id x = None)
                     (snippetsByArea s a)) /\
  (k' = k /\ saved_snippets s' = saved_snippets s \/
   k < k' /\
   saved_snippets s' = saved_snippets s ++ [(a, snippetsByArea s' a)]) /\
  snippetsByArea s' (targetArea a) = snippetsByArea s (targetArea a) /\
  embeddingsIndex s' = embeddingsIndex s.
Proof.
  intros Huuid Hne Hrun.
  destruct (ensureSnippetIds_inv _ _ _ _ _ Hrun)
    as (_ & Hother & _ & _ & Hidx & _ & _ & Hsaved & Hassign).
  destruct (assign_ids_spec _ _ _ _ _ _ (Hassign uuid Huuid))
    as (Hall & Hk & _).
  split_and!; try done.
  apply Forall_forall. intros y Hy.
  apply list_elem_of_lookup_1 in Hy as [n Hn].
  destruct (Forall2_lookup_r _ _ _ _ _ Hall Hn) as (x & _ & Hsame & Hgen).
  destruct (truthy_id x) as [i|] eqn:Hx.
  - destruct Hsame as [_ Hsame]. rewrite Hsame by eauto. by rewrite Hx.
  - destruct (Hgen eq_refl) as (j & _ & Hj). unfold truthy_id. rewrite Hj.
    specialize (Hne j). destruct (uuid j); [done | eauto].
Qed.

(** X20. The popup that opened ([loadAndDisplaySnippets] returned) read
    an array of snippets from either storage area (a missing or
    malformed entry stops it), and holds these snippets, each with an
    id, those that had one unchanged.  It shows the active area afresh
    and has taken the search token once. *)
Theorem loadAndDisplaySnippets_opens_with_ids (s s' : State) :
  Popup.loadAndDisplaySnippets snippets_set_error index_set_error
    storage_info_error randomUUID ensure_reply index_load snippets_load
    initial_index_load s = (Ok tt, s') ->
  exists l1 l2,
    snippets_load area_local = SnippetsRead (SnippetsArray l1) /\
    snippets_load area_sync = SnippetsRead (SnippetsArray l2) /\
    Forall2 same_but_id l1 (snippets_local s') /\
    Forall2 same_but_id l2 (snippets_sync s') /\
    all_have_ids s' /\
    activeArea s' = activeArea s /\ searchToken s' = S (searchToken s) /\
    refreshed s'.
Proof.
  unfold Popup.loadAndDisplaySnippets.
  unfold mbind at 1, M_bind at 1, lift.
  destruct (snippets_load area_local) as [m1|[|l1|]]; try discriminate.
  cbn [loadSnippetsForArea].
  unfold mbind at 1, M_bind at 1, modify.
  unfold mbind at 1, M_bind at 1, lift.
  destruct (snippets_load area_sync) as [m2|[|l2|]]; try discriminate.
  cbn [loadSnippetsForArea].
  unfold mbind at 1, M_bind at 1, modify.
  set (s2 := set_snippets area_sync l2 (set_snippets area_local l1 s)).
  unfold mbind at 1, M_bind at 1.
  destruct (ensureSnippetIds 0 area_local s2) as [[k|] s3] eqn:Hids1;
    [|discriminate].
  apply ensureSnippetIds_inv in Hids1
    as (Hl3 & Hs3 & Hact3 & Htok3 & _).
  unfold mbind at 1, M_bind at 1.
  destruct (ensureSnippetIds k area_sync s3) as [[k'|] s4] eqn:Hids2;
    [|discriminate].
  apply ensureSnippetIds_inv in Hids2
    as (Hs4 & Hl4 & Hact4 & Htok4 & _).
  cbn [snippetsByArea targetArea] in *.
  unfold mbind at 1, M_bind at 1, lift.
  destruct (index_of_load initial_index_load) as [index|]; [|discriminate].
  unfold mbind at 1, M_bind at 1, modify.
  set (s5 := set_index index s4).
  unfold mbind at 1, M_bind at 1.
  destruct (pruneEmbeddingsIndex s5) as [[pruned|] s6] eqn:Hprune;
    [|discriminate].
  apply pruneEmbeddingsIndex_inv in Hprune
    as [(? & _) | (Hall & ? & index' & [= <-] & -> & _)]; [discriminate|].
  unfold mbind at 1, M_bind at 1.
  set (s6 := set_index index' s5).
  assert (Hsave : forall s7 r7,
    (if pruned then saveEmbeddingsIndex index_set_error else mret tt) s6
      = (Ok r7, s7) ->
    same_snippets s6 s7 /\ activeArea s7 = activeArea s6 /\
    searchToken s7 = searchToken s6).
  { intros s7 r7. destruct pruned.
    - unfold saveEmbeddingsIndex.
      destruct (index_set_error _); [discriminate|]. by intros [= _ <-].
    - by intros [= _ <-]. }
  destruct ((if pruned then saveEmbeddingsIndex index_set_error
             else mret tt) s6) as [[[]|] s7]; [|discriminate].
  destruct (Hsave s7 tt eq_refl) as ([Hl7 Hs7] & Hact7 & Htok7).
  unfold mbind at 1, M_bind at 1, get.
  intros (Hact & Htok & [Hl' Hs'] & Href)%setActiveArea_inv.
  exists l1, l2. split; [done|]. split; [done|].
  cbn [s6 s5 set_index snippets_local snippets_sync activeArea searchToken]
    in Hl7, Hs7, Hact7, Htok7, Hall.
  split_and!.
  - rewrite Hl', Hl7, Hl4. exact Hl3.
  - rewrite Hs', Hs7. by rewrite Hs3 in Hs4.
  - unfold all_have_ids in *. by rewrite Hl', Hs', Hl7, Hs7.
  - rewrite Hact, Hact7, Hact4, Hact3. reflexivity.
  - rewrite Htok, Htok7, Htok4, Htok3. reflexivity.
  - by apply Href.
Qed.

Lemma getSnippetVector_present (index : Index) (x : Snippet) :
  Background.valid_item x -> has_entry index x = true ->
  inherited (Background.id_of x) = false ->
  is_ok (getSnippetVector index x) = true.
Proof.
  intros [(i & Hi & Hne) (tx & Ht & Hb)] Hentry Hinh.
  unfold getSnippetVector, truthy_id. rewrite Ht, Hb, Hi.
  rewrite (has_entry_lookup index x i Hi) in Hentry.
  unfold Background.id_of in Hinh. rewrite Hi in Hinh. cbn in Hinh.
  rewrite (property_not_inherited _ _ Hinh) in Hentry.
  destruct i as [|c i]; [done|]. cbn [mbind option_bind].
  rewrite (property_not_inherited _ _ Hinh).
  by destruct (index !! _).
Qed.

(** X21. [ensureMissingEmbeddings] that returned.  Either
    [embeddingsIndex[id]] was truthy for every snippet of the area, and
    nothing was sent or changed; or the snippets for which it was falsy
    were sent to the background in one message and the index was
    replaced by the one read from the store afterwards, in which it is
    truthy for each of them.  If the index read extends the one
    replaced, the vector of every snippet of the area whose id names no
    inherited property can then be read. *)
Theorem ensureMissingEmbeddings_fills_what_was_missing
    (a : Area) (s s' : State) :
  ensureMissingEmbeddings a s = (Ok tt, s') ->
  Forall (fun x => has_entry (embeddingsIndex s) x = false ->
                   has_entry (embeddingsIndex s') x = true)
    (snippetsByArea s a) /\
  (embeddingsIndex s ⊆ embeddingsIndex s' ->
   Forall (fun x => inherited (Background.id_of x) = false ->
                    is_ok (getSnippetVector (embeddingsIndex s') x) = true)
     (snippetsByArea s a)) /\
  (s' = s \/
   exists missing,
     missing <> [] /\
     missing = filter (fun x => has_entry (embeddingsIndex s) x = false)
                 (snippetsByArea s a) /\
     sent s' = sent s ++ [EnsureEmbeddings missing] /\
     index_of_load index_load = Ok (embeddingsIndex s') /\
     status s' = ("", "idle")).
Proof.
  intros Hrun.
  assert (Hmain :
    Forall Background.valid_item (snippetsByArea s a) /\
    Forall (fun x => has_entry (embeddingsIndex s) x = false ->
                     has_entry (embeddingsIndex s') x = true)
      (snippetsByArea s a) /\
    (s' = s \/
     exists missing,
       missing <> [] /\
       missing = filter (fun x => has_entry (embeddingsIndex s) x = false)
                   (snippetsByArea s a) /\
       sent s' = sent s ++ [EnsureEmbeddings missing] /\
       index_of_load index_load = Ok (embeddingsIndex s') /\
       status s' = ("", "idle"))).
  { revert Hrun. unfold Popup.ensureMissingEmbeddings, ensureMissing_start.
    destruct (snippetsByArea s a) as [|x0 l0] eqn:Hlist.
    { intros [= <-]. split_and!; auto. }
    rewrite <- Hlist.
    destruct (collect_missing (embeddingsIndex s) (snippetsByArea s a))
      as [missing|] eqn:Hcollect; [|discriminate].
    destruct (collect_missing_filter _ _ _ Hcollect) as [Hmissing Hvalid].
    destruct missing as [|y m].
    - intros [= <-]. split_and!; auto.
      apply Forall_forall. intros x Hx Hno.
      assert (Hin : x ∈ filter (fun x => has_entry (embeddingsIndex s) x = false)
                         (snippetsByArea s a))
        by (by apply list_elem_of_filter).
      rewrite <- Hmissing in Hin. by apply elem_of_nil in Hin.
    - rewrite Hlist. rewrite <- Hlist.
      destruct (check_ensure_reply _); [|discriminate].
      unfold ensureMissing_loaded.
      destruct (index_of_load index_load) as [index|]; [|discriminate].
      destruct (filter _ (y :: m)) as [|z still] eqn:Hstill; [|discriminate].
      intros [= <-]. cbn [embeddingsIndex setStatus set_index sent
                           sendRuntimeMessage status].
      split_and!; try done.
      + apply Forall_forall. intros x Hx Hno.
        assert (Hin : x ∈ y :: m).
        { rewrite Hmissing. by apply list_elem_of_filter. }
        destruct (has_entry index x) eqn:Hentry; [done|].
        assert (Hbad : x ∈ filter (fun item => has_entry index item = false)
                            (y :: m)) by (by apply list_elem_of_filter).
        rewrite Hstill in Hbad. by apply elem_of_nil in Hbad.
      + right. exists (y :: m). split_and!; done. }
  destruct Hmain as (Hvalid & Hfilled & Hcases).
  split; [done|]. split; [|done].
  intros Hsub. apply Forall_forall. intros x Hx Hinh.
  apply getSnippetVector_present; [|  |done].
  { by eapply Forall_forall in Hvalid. }
  destruct (has_entry (embeddingsIndex s) x) eqn:Hold.
  - destruct (Forall_forall (Background.valid_item) (snippetsByArea s a))
      as [Hv _].
    destruct (Hv Hvalid x Hx) as [(i & Hi & _) _].
    rewrite (has_entry_lookup (embeddingsIndex s) x i Hi) in Hold.
    rewrite (has_entry_lookup (embeddingsIndex s') x i Hi).
    by eapply truthy_property_mono.
  - eapply Forall_forall in Hfilled; [|exact Hx]. by apply Hfilled.
Qed.

End PopupLifecycle.

(** ** The popup: pruning twice, ranking, an empty query *)

Section PopupMore.
Import Popup.

(** X16. Pruning is idempotent: right after a prune pass that returned,
    another one deletes nothing, returns false and leaves the popup as
    it is. *)
Theorem pruneEmbeddingsIndex_idempotent (s s1 : State) (changed : bool) :
  pruneEmbeddingsIndex s = (Ok changed, s1) ->
  pruneEmbeddingsIndex s1 = (Ok false, s1).
Proof.
  intros Hrun.
  apply pruneEmbeddingsIndex_inv in Hrun
    as [(? & _) | (Hall & ? & index' & _ & -> & Hlook & _)]; [discriminate|].
  set (s1 := set_index index' s).
  assert (Hall1 : all_have_ids s1) by exact Hall.
  destruct (pruneEmbeddingsIndex_spec s1 Hall1)
    as (changed' & index'' & Hrun' & Hlook' & Hch').
  assert (Hsame : index'' = index').
  { apply map_eq. intros k. rewrite Hlook'. cbn [s1 embeddingsIndex set_index].
    change (live_ids s1) with (live_ids s).
    rewrite Hlook. by destruct (decide (k ∈ live_ids s)). }
  assert (Hno : changed' = false).
  { destruct changed'; [|done]. destruct Hch' as [Hch' _].
    destruct (Hch' eq_refl) as (k & [v Hk]%elem_of_dom & Hnin).
    cbn [s1 embeddingsIndex set_index] in Hk. rewrite Hlook in Hk.
    change (live_ids s1) with (live_ids s) in Hnin.
    by rewrite decide_False in Hk. }
  rewrite Hrun', Hsame, Hno. reflexivity.
Qed.

Lemma score_loop_items queryVector index items scored :
  score_loop queryVector index items = Ok scored ->
  (fun u => (snippet u, area u)) <$> scored = items.
Proof.
  revert scored. induction items as [|[x a] items IH]; intros scored; simpl.
  - by intros [= <-].
  - destruct (getSnippetVector index x); [|discriminate].
    destruct (VectorMath.getCosineSimilarity _ _); [|discriminate].
    destruct (score_loop queryVector index items) as [rest|]; [|discriminate].
    intros [= <-]. by rewrite fmap_cons, (IH rest eq_refl).
Qed.

(** X17. Ranking reorders and never filters: a ranking that is returned
    holds every snippet of the list it was given, once each, whatever
    the scores.  So the ranking of a search is empty, and the list shows
    that there are no matches, only when there is no snippet at all. *)
Theorem rank_with_keeps_every_snippet
    (r : result (list float)) (index : Index)
    (items : list (Snippet * Area)) (ranked : list Scored) :
  rank_with r index items = Ok ranked ->
  (fun u => (snippet u, area u)) <$> ranked ≡ₚ items /\
  length ranked = length items /\
  (shown ranked = EmptyState "No matches in local or synced snippets."
   <-> items = []).
Proof.
  unfold rank_with. destruct r as [queryVector|]; [|discriminate].
  destruct (score_loop queryVector index items) as [scored|] eqn:Hloop;
    [|discriminate].
  intros [= <-]. apply score_loop_items in Hloop.
  assert (Hperm : (fun u => (snippet u, area u))
                    <$> Array_sort by_score_desc scored ≡ₚ items).
  { rewrite <- Hloop. apply fmap_Permutation, Array_sort_perm. }
  assert (Hlen : length (Array_sort by_score_desc scored) = length items).
  { rewrite <- (Permutation_length Hperm). by rewrite length_fmap. }
  split; [done|]. split; [done|].
  unfold shown.
  destruct (Array_sort by_score_desc scored) as [|u l];
    destruct items as [|p items']; simpl in Hlen; try done; try lia.
Qed.

(** X18. An empty or blank query (one that [trim] leaves empty: white
    space and line terminators only).  [filterSnippets] shows the active
    area's snippets and an idle status, starts no call and sends
    nothing; it does not take the search token, so that a search still
    in flight displays its ranking when it completes. *)
Theorem filterSnippets_blank_query (s : State) :
  blank (search_input s) = true ->
  let s1 := (filterSnippets s).2 in
  (filterSnippets s).1 = None /\
  searchToken s1 = searchToken s /\ sent s1 = sent s /\
  embeddingsIndex s1 = embeddingsIndex s /\ same_snippets s s1 /\
  listing s1 = area_listing s /\
  title s1 = (getAreaLabel (activeArea s) ++ " snippets")%string /\
  status s1 = ("", "idle") /\
  (forall t ranked, requestId t = searchToken s ->
     (show_ranked t ranked s1).1 = at_pc t (Settled (Done ranked)) /\
     listing (show_ranked t ranked s1).2 = shown ranked /\
     title (show_ranked t ranked s1).2 = "Search results").
Proof.
  intros Hq s1. subst s1. unfold blank in Hq. unfold filterSnippets.
  rewrite Hq. cbn [fst snd].
  destruct s as [l1 l2 act index token input st ti li se ss si].
  unfold displaySnippets, unranked, area_listing, getActiveSnippets,
    same_snippets. cbn.
  assert (Hshow : forall s' t ranked,
            requestId t = searchToken s' ->
            (show_ranked t ranked s').1 = at_pc t (Settled (Done ranked)) /\
            listing (show_ranked t ranked s').2 = shown ranked /\
            title (show_ranked t ranked s').2 = "Search results").
  { intros s' t ranked Ht. unfold show_ranked.
    rewrite decide_False by (intros Hn; by apply Hn). cbn [fst snd].
    unfold shown, displaySnippets, ranked_rows.
    by destruct ranked. }
  destruct act, l1, l2; cbn; split_and!; try done; intros t ranked Ht;
    by apply Hshow.
Qed.

End PopupMore.

(** The synced snippet of [example_unembedded] gone, its entry is an
    orphan. *)
Lemma pruneEmbeddingsIndex_idempotent_witness :
  let s := Popup.set_snippets Popup.area_sync [] example_unembedded in
  let s1 := (Popup.pruneEmbeddingsIndex s).2 in
  Popup.pruneEmbeddingsIndex s = (Ok true, s1) /\
  Popup.embeddingsIndex s1 = ∅ /\
  Popup.pruneEmbeddingsIndex s1 = (Ok false, s1).
Proof.
  intros s s1.
  assert (H : Popup.pruneEmbeddingsIndex s = (Ok true, s1))
    by (vm_compute; reflexivity).
  split; [exact H|]. split; [vm_compute; reflexivity|].
  exact (pruneEmbeddingsIndex_idempotent s s1 true H).
Defined.

Lemma rank_with_keeps_every_snippet_witness :
  let ranked := Popup.Array_sort Popup.by_score_desc
                  (scored_items example_items example_scores) in
  Popup.rank_with (Ok example_query) example_vectors example_items
    = Ok ranked /\
  length ranked = 3.
Proof.
  intros ranked.
  assert (H : Popup.rank_with (Ok example_query) example_vectors
                example_items = Ok ranked) by (vm_compute; reflexivity).
  split; [exact H|].
  by destruct (rank_with_keeps_every_snippet _ _ _ _ H) as (_ & Hlen & _).
Defined.

(** A no-break space and a space in the search box. *)
Lemma filterSnippets_blank_query_witness :
  let s := Popup.set_input [0xA0; 0x20]%N example_search in
  blank (Popup.search_input s) = true /\
  (Popup.filterSnippets s).1 = None /\
  Popup.searchToken (Popup.filterSnippets s).2 = 0.
Proof.
  intros s. split; [reflexivity|].
  destruct (filterSnippets_blank_query s eq_refl) as (H1 & H2 & _).
  by split.
Defined.

(** Snippet ["y"] of [example_unembedded] deleted: its entry goes, and
    the index is written. *)
Lemma deleteSnippet_removes_snippet_and_orphans_witness :
  let delete := Popup.deleteSnippet (fun _ _ => None) (fun _ => None)
                  (fun _ => None) Popup.area_sync "y" in
  let s' := (delete example_unembedded).2 in
  delete example_unembedded = (Ok tt, s') /\
  Popup.snippets_sync s' = [] /\
  Popup.embeddingsIndex s' !! "y" = None /\
  Popup.saved_indexes s' = [Popup.embeddingsIndex s'] /\
  refreshed s'.
Proof.
  intros delete s'.
  assert (H : delete example_unembedded = (Ok tt, s'))
    by (vm_compute; reflexivity).
  split; [exact H|].
  destruct (deleteSnippet_removes_snippet_and_orphans _ _ _ _ _ _ _ H)
    as (n & x & _ & _ & _ & Hsrc & _ & Hidx & _ & _ & _ & _ & Href).
  split; [vm_compute; reflexivity|]. split.
  - rewrite Hidx. rewrite decide_False; [done|]. vm_compute.
    set_solver.
  - split; [vm_compute; reflexivity | exact Href].
Defined.

(** The synced area of [example_unembedded] cleared. *)
Lemma clearAllSnippets_empties_active_area_witness :
  let clear := Popup.clearAllSnippets (fun _ _ => None) (fun _ => None)
                 (fun _ => None) true in
  let s' := (clear example_unembedded).2 in
  clear example_unembedded = (Ok tt, s') /\
  Popup.snippets_sync s' = [] /\
  Popup.snippets_local s' = [mkSnippet (Some "x") (Some (utf16 "kept"))] /\
  dom (Popup.embeddingsIndex s') ⊆ live_ids s' /\
  Popup.saved_snippets s' = [(Popup.area_sync, [])].
Proof.
  intros clear s'.
  assert (H : clear example_unembedded = (Ok tt, s'))
    by (vm_compute; reflexivity).
  split; [exact H|].
  pose proof (clearAllSnippets_empties_active_area _ _ _ true _ _ H)
    as (_ & Hempty & Hother & _ & Hdom & Hsaved & _).
  split; [exact Hempty|]. split; [exact Hother|].
  split; [exact Hdom | exact Hsaved].
Defined.

(** A search for "cats" is in flight when the synced tab is chosen: the
    search is superseded. *)
Lemma setActiveArea_supersedes_searches_witness :
  let sys := after [Popup.Input (utf16 "cats")] (example_search, []) in
  let switch := Popup.setActiveArea (fun _ => None)
                  (fun _ => Popup.OkUpdated 0)
                  (Popup.Read (StoredIndex example_index))
                  Popup.area_sync in
  let s' := (switch sys.1).2 in
  exists t,
    sys.2 = [t] /\ Popup.requestId t = 1 /\
    switch sys.1 = (Ok tt, s') /\
    Popup.searchToken s' = 2 /\
    Popup.show_ranked t [] s'
      = (Popup.at_pc t (Popup.Settled Popup.Superseded), s').
Proof.
  intros sys switch s'.
  assert (H : switch sys.1 = (Ok tt, s')) by (vm_compute; reflexivity).
  destruct (setActiveArea_supersedes_searches _ _ _ _ _ _ _ H)
    as (_ & Htok & _ & Hstale & _).
  eexists. split; [vm_compute; reflexivity|]. split; [reflexivity|].
  split; [exact H|]. split; [exact Htok|].
  apply Hstale. vm_compute. lia.
Defined.

(** A snippet saved before ids existed gets the first id drawn. *)
Lemma ensureSnippetIds_gives_every_snippet_an_id_witness :
  let uuid := fun _ : nat => "u0" in
  let s := Popup.set_snippets Popup.area_local
             [mkSnippet None (Some (utf16 "old")); mkSnippet (Some "a") (Some (utf16 "alpha"))]
             example_search in
  let s' := (Popup.ensureSnippetIds (fun _ _ => None) (Some uuid) 0
               Popup.area_local s).2 in
  Popup.ensureSnippetIds (fun _ _ => None) (Some uuid) 0 Popup.area_local s
    = (Ok 1, s') /\
  Popup.snippets_local s'
    = [mkSnippet (Some "u0") (Some (utf16 "old")); mkSnippet (Some "a") (Some (utf16 "alpha"))]
  /\ Forall (fun y => is_Some (Popup.truthy_id y)) (Popup.snippets_local s').
Proof.
  intros uuid s s'.
  assert (H : Popup.ensureSnippetIds (fun _ _ => None) (Some uuid) 0
                Popup.area_local s = (Ok 1, s')) by reflexivity.
  split; [exact H|]. split; [reflexivity|].
  assert (Hne : forall n, uuid n <> "") by (intros n; discriminate).
  by destruct (ensureSnippetIds_gives_every_snippet_an_id
                 (fun _ _ => None) (Some uuid) uuid 0 1 Popup.area_local
                 s s' eq_refl Hne H) as (Hall & _).
Defined.

(** The popup opens on one local snippet that has its vector. *)
Lemma loadAndDisplaySnippets_opens_with_ids_witness :
  let load := fun a : Popup.Area =>
    Popup.SnippetsRead
      (SnippetsArray
         (if a is Popup.area_local
          then [mkSnippet (Some "x") (Some (utf16 "cats and dogs"))] else [])) in
  let open := Popup.loadAndDisplaySnippets (fun _ _ => None) (fun _ => None)
                (fun _ => None) None (fun _ => Popup.OkUpdated 0)
                (Popup.Read (StoredIndex example_index)) load
                (Popup.Read (StoredIndex example_index)) in
  let s' := (open example_search).2 in
  open example_search = (Ok tt, s') /\
  all_have_ids s' /\ Popup.searchToken s' = 1 /\ refreshed s'.
Proof.
  intros load open s'.
  assert (H : open example_search = (Ok tt, s')) by (vm_compute; reflexivity).
  split; [exact H|].
  destruct (loadAndDisplaySnippets_opens_with_ids _ _ _ _ _ _ _ _ _ _ H)
    as (l1 & l2 & _ & _ & _ & _ & Hall & _ & Htok & Href).
  by split_and!.
Defined.

(** The local snippet of [example_search] gets its vector. *)
Lemma ensureMissingEmbeddings_fills_what_was_missing_witness :
  let ensure := Popup.ensureMissingEmbeddings (fun _ => Popup.OkUpdated 1)
                  (Popup.Read (StoredIndex example_index))
                  Popup.area_local in
  let s' := (ensure example_search).2 in
  ensure example_search = (Ok tt, s') /\
  Popup.sent s'
    = [Popup.EnsureEmbeddings [mkSnippet (Some "x") (Some (utf16 "cats and dogs"))]]
  /\ Forall (fun x => is_ok (Popup.getSnippetVector
                              (Popup.embeddingsIndex s') x) = true)
       (Popup.snippets_local example_search).
Proof.
  intros ensure s'.
  assert (H : ensure example_search = (Ok tt, s')) by (vm_compute; reflexivity).
  split; [exact H|]. split; [vm_compute; reflexivity|].
  destruct (ensureMissingEmbeddings_fills_what_was_missing _ _ _ _ _ H)
    as (_ & Hread & _).
  pose proof (Hread (map_empty_subseteq _)) as Hall.
  apply Forall_forall. intros x Hx. rewrite Forall_forall in Hall.
  apply (Hall x Hx). cbn in Hx.
  by apply list_elem_of_singleton in Hx as ->.
Defined.

(** ** The offscreen document: answering requests *)

Section OffscreenMore.
Import Offscreen.

Variable runtime_error : option string.

Local Abbreviation step := (Offscreen.step runtime_error).
Local Abbreviation run := (Offscreen.run runtime_error).

Lemma not_settled_pending s :
  embedderPromise s = Some AwaitingAssets \/
  embedderPromise s = Some AwaitingPipeline \/
  embedderPromise s = None ->
  ~ settled_promise s.
Proof.
  unfold settled_promise, failed.
  intros [Hp | [Hp | Hp]]; rewrite Hp; by intros [[=] | (e & [=])].
Qed.

Lemma settle_answers_inv texts r s :
  pending s -> answers_inv texts s -> answers_inv texts (settle r s).
Proof.
  intros Hpend (Hperm & Hset & Hnone & Hinf & Hex & Hblank & Hwait).
  assert (Hsome : is_Some (embedderPromise s))
    by (destruct Hpend as [-> | ->]; eauto).
  assert (Hno : inferring s = []).
  { apply Hinf. destruct Hpend as [-> | ->]; done. }
  rewrite Hno in *. cbn [app] in *.
  unfold answers_inv, settle. destruct r as [[]|e]; cbn; rewrite Hno;
    rewrite ?app_nil_r; split_and!; try done.
  - by intros _; apply Hex.
  - rewrite fmap_app, <- list_fmap_compose.
    rewrite <- Hperm. f_equiv. by rewrite list_fmap_id.
  - by intros _; apply Hex.
  - apply Forall_app. split; [done|]. apply Forall_fmap.
    eapply Forall_impl; [exact Hwait|]. intros t Ht Hb.
    change (blank t = true) in Hb. cbv beta in Ht. congruence.
Qed.

Lemma request_answers_inv texts s t :
  answers_inv texts s ->
  answers_inv (texts ++ [t]) (handleEmbedText runtime_error t s).
Proof.
  intros (Hperm & Hset & Hnone & Hinf & Hex & Hblank & Hwait).
  unfold handleEmbedText.
  assert (Hanswer : forall r,
    (answered s ++ [(t, r)]).*1 ++ inferring s ++ waiting s
      ≡ₚ texts ++ [t]).
  { intros r. rewrite fmap_app. cbn. rewrite <- Hperm.
    rewrite <- !app_assoc. f_equiv. cbn. rewrite !app_assoc.
    by rewrite <- Permutation_cons_append. }
  assert (Hwaits :
    (answered s).*1 ++ inferring s ++ waiting s ++ [t] ≡ₚ texts ++ [t]).
  { by rewrite <- Hperm, <- !app_assoc. }
  assert (Hinfers :
    (answered s).*1 ++ (inferring s ++ [t]) ++ waiting s ≡ₚ texts ++ [t]).
  { rewrite <- Hperm, <- !app_assoc. do 2 f_equiv. cbn.
    by rewrite <- Permutation_cons_append. }
  assert (Hold : is_Some (embedderPromise s) ->
                 Exists (fun t => blank t = false) (texts ++ [t])).
  { intros Hp. apply Exists_app. left. by apply Hex. }
  destruct (blank t) eqn:Hb.
  { unfold answers_inv, respond. cbn. split_and!; try done.
    apply Forall_app. split; [done|]. by constructor. }
  assert (Hnew : Exists (fun t => blank t = false) (texts ++ [t])).
  { apply Exists_app. right. by constructor. }
  assert (Hans : forall r,
            Forall (fun a => blank a.1 = true ->
                      a.2 = Err "Embedding requires non-empty text.")
              (answered s ++ [(t, r)])).
  { intros r. apply Forall_app. split; [done|]. constructor; [|done].
    intros Hb'. cbn [fst] in Hb'. congruence. }
  assert (Hwt : Forall (fun t => blank t = false)
                  (inferring s ++ waiting s ++ [t])).
  { rewrite app_assoc. apply Forall_app. split; [done|]. by constructor. }
  assert (Hit : Forall (fun t => blank t = false)
                  ((inferring s ++ [t]) ++ waiting s)).
  { apply Forall_app in Hwait as [H1 H2].
    apply Forall_app. split; [|done].
    apply Forall_app. split; [done|]. by constructor. }
  unfold getEmbedder.
  destruct (embedderPromise s) as [p|] eqn:Hp.
  - assert (Hsettled : p = Fulfilled \/ (exists e, p = Rejected e) ->
                       waiting s = []).
    { intros Hs. apply Hset. unfold settled_promise, failed. rewrite Hp.
      destruct Hs as [-> | [e ->]]; eauto. }
    destruct p as [| | |e]; unfold answers_inv, respond; cbn; rewrite ?Hp;
      split_and!; try done;
      first [ by (intros _; apply Hsettled; eauto)
            | intros Hs; apply not_settled_pending in Hs;
              [done | cbn; by auto] ].
  - pose proof (Hnone eq_refl) as Hw.
    assert (Hi : inferring s = []) by (by apply Hinf).
    destruct runtime_error as [e|]; unfold answers_inv, respond; cbn;
      rewrite ?Hw, ?Hi in *; split_and!; try done.
    intros Hs. by apply not_settled_pending in Hs; [|cbn; auto].
Qed.

Lemma inferred_answers_inv texts s k r :
  answers_inv texts s -> answers_inv texts (step s (Inferred k r)).
Proof.
  intros Hinv. cbn [Offscreen.step].
  destruct (inferring s !! k) as [t|] eqn:Hk; [|done].
  destruct Hinv as (Hperm & Hset & Hnone & Hinf & Hex & Hblank & Hwait).
  pose proof (delete_Permutation _ _ _ Hk) as Hdel.
  unfold answers_inv. cbn. split_and!; try done.
  - rewrite fmap_app. cbn. rewrite <- Hperm.
    trans ((answered s).*1 ++ (t :: delete k (inferring s)) ++ waiting s).
    + by rewrite <- !app_assoc.
    + do 2 f_equiv. by symmetry.
  - intros Hp. rewrite (Hinf Hp) in Hk. done.
  - apply Forall_app. split; [done|]. constructor; [|done].
    cbn [fst snd]. intros Hb.
    apply Forall_app in Hwait as [Hi _].
    eapply Forall_lookup_1 in Hi; [|exact Hk]. cbv beta in Hi. congruence.
  - apply Forall_app in Hwait as [Hi Hw]. apply Forall_app. split; [|done].
    rewrite Hdel in Hi. by apply Forall_cons_1 in Hi as [_ ?].
Qed.

Lemma step_answers_inv texts s ev :
  answers_inv texts s ->
  answers_inv (texts ++ requests [ev]) (step s ev).
Proof.
  intros Hinv. destruct ev as [t|missing|r|k r]; cbn [requests omap].
  - by apply request_answers_inv.
  - (* the assets were checked *)
    rewrite app_nil_r. cbn [Offscreen.step].
    destruct (embedderPromise s) as [[| | |e]|] eqn:Hp; try done.
    destruct missing as [file|].
    + apply settle_answers_inv; [by left | done].
    + destruct Hinv as (Hperm & Hset & Hnone & Hinf & Hex & Hblank & Hwait).
      unfold answers_inv. cbn. split_and!; try done.
      * intros Hs. apply not_settled_pending in Hs; try done. cbn. auto.
      * intros _. apply Hinf. by rewrite Hp.
      * intros _. apply Hex. by rewrite Hp.
  - (* the pipeline settled *)
    rewrite app_nil_r. cbn [Offscreen.step].
    destruct (embedderPromise s) as [[| | |e]|] eqn:Hp; try done.
    apply settle_answers_inv; [by right | done].
  - rewrite app_nil_r. by apply inferred_answers_inv.
Qed.

Lemma requests_app evs1 evs2 :
  requests (evs1 ++ evs2) = requests evs1 ++ requests evs2.
Proof. apply omap_app. Qed.

Lemma run_answers_inv evs : answers_inv (requests evs) (run evs initial).
Proof.
  induction evs as [|ev evs IH] using rev_ind.
  - unfold answers_inv. cbn. split_and!; try done;
      first [ by intros [? ?]
            | intros Hs; apply not_settled_pending in Hs; try done; cbn;
              by auto ].
  - rewrite requests_app, run_app. by apply step_answers_inv.
Qed.

(** While no promise exists or the initialisation is in flight, only
    blank texts have been answered. *)
Lemma sources_unsettled evs s :
  sources_inv evs s -> ~ settled_promise s ->
  Forall (fun a => blank a.1 = true) (answered s).
Proof.
  intros Hsrc Hns. eapply Forall_impl; [exact Hsrc|].
  intros a Ha. cbv beta in Ha. destruct (blank a.1); [done|].
  destruct (Ha eq_refl) as [(e & He & _) | (Hf & _)].
  - destruct Hns. right. by exists e.
  - destruct Hns. by left.
Qed.

Lemma sources_blank evs s :
  Forall (fun a => blank a.1 = true) (answered s) -> sources_inv evs s.
Proof.
  intros Hall. eapply Forall_impl; [exact Hall|].
  intros a Ha Hb. cbv beta in Ha. congruence.
Qed.

Lemma sources_mono evs ev s s' :
  embedderPromise s' = embedderPromise s -> answered s' = answered s ->
  sources_inv evs s -> sources_inv (evs ++ [ev]) s'.
Proof.
  intros Hp Ha Hsrc. unfold sources_inv. rewrite Ha.
  eapply Forall_impl; [exact Hsrc|]. intros a Hsa Hb. cbv beta in Hsa.
  destruct (Hsa Hb) as [(e & He & Hr) | (Hf & k & r & Hin & Hr)].
  - left. exists e. by rewrite Hp.
  - right. rewrite Hp. split; [done|]. exists k, r.
    split; [|done]. apply elem_of_app. by left.
Qed.

Lemma settle_sources_inv texts evs ev r s :
  pending s -> answers_inv texts s -> sources_inv evs s ->
  sources_inv (evs ++ [ev]) (settle r s).
Proof.
  intros Hpend Hinv Hsrc.
  assert (Hblank : Forall (fun a => blank a.1 = true) (answered s)).
  { eapply sources_unsettled; [exact Hsrc|].
    apply not_settled_pending. destruct Hpend; auto. }
  destruct r as [[]|e]; unfold settle.
  - by apply sources_blank.
  - unfold sources_inv. cbn. apply Forall_app. split.
    + eapply Forall_impl; [exact Hblank|].
      intros a Ha Hb. cbv beta in Ha. congruence.
    + apply Forall_fmap, Forall_forall. intros t _ _.
      left. by exists e.
Qed.

Lemma step_sources_inv texts evs s ev :
  answers_inv texts s -> sources_inv evs s ->
  sources_inv (evs ++ [ev]) (step s ev).
Proof.
  intros Hinv Hsrc. destruct ev as [t|missing|r|k r]; cbn [Offscreen.step].
  - unfold handleEmbedText. destruct (blank t) eqn:Hb.
    { unfold sources_inv, respond. cbn. apply Forall_app. split.
      - by apply (sources_mono evs (Request t) s s).
      - constructor; [|done]. cbn [fst]. congruence. }
    unfold getEmbedder.
    destruct (embedderPromise s) as [p|] eqn:Hp.
    + destruct p as [| | |e];
        try (apply (sources_mono evs (Request t) s); [by cbn | done | done]).
      unfold sources_inv, respond. cbn. apply Forall_app. split.
      * by apply (sources_mono evs (Request t) s s).
      * constructor; [|done]. intros _. left. by exists e.
    + assert (Hblank : Forall (fun a => blank a.1 = true) (answered s)).
      { eapply sources_unsettled; [exact Hsrc|].
        apply not_settled_pending. auto. }
      destruct runtime_error as [e|]; [|by apply sources_blank].
      unfold sources_inv, respond. cbn. apply Forall_app. split.
      * eapply Forall_impl; [exact Hblank|].
        intros a Ha Hb'. cbv beta in Ha. congruence.
      * constructor; [|done]. intros _. left. by exists e.
  - destruct (embedderPromise s) as [[| | |e]|] eqn:Hp;
      try (by apply (sources_mono evs _ s s)).
    destruct missing as [file|].
    + eapply settle_sources_inv; [by left | exact Hinv | exact Hsrc].
    + apply sources_blank. cbn.
      eapply sources_unsettled; [exact Hsrc|].
      apply not_settled_pending. auto.
  - destruct (embedderPromise s) as [[| | |e]|] eqn:Hp;
      try (by apply (sources_mono evs _ s s)).
    eapply settle_sources_inv; [by right | exact Hinv | exact Hsrc].
  - destruct (inferring s !! k) as [t|] eqn:Hk;
      [|by apply (sources_mono evs _ s s)].
    destruct Hinv as (_ & _ & _ & Hinf & _).
    assert (Hf : embedderPromise s = Some Fulfilled).
    { destruct (embedderPromise s) as [[| | |e]|] eqn:Hp; try done;
        by rewrite Hinf in Hk. }
    unfold sources_inv. cbn. apply Forall_app. split.
    + by apply (sources_mono evs (Inferred k r) s s).
    + constructor; [|done]. intros _. right. split; [done|].
      exists k, r. split; [|done]. apply elem_of_app. right.
      by apply list_elem_of_singleton.
Qed.

Lemma run_sources_inv evs : sources_inv evs (run evs initial).
Proof.
  induction evs as [|ev evs IH] using rev_ind; [by constructor|].
  rewrite run_app. eapply step_sources_inv; [|exact IH].
  apply run_answers_inv.
Qed.

(** X22. Whatever the order of events, the offscreen document answers
    every [embedText] request at most once and loses none: the requests
    received are those answered, those whose call of the embedder has
    not ended yet, and those still waiting for the initialisation.  None
    waits for the initialisation once it has ended; the embedder is
    called only after the initialisation has succeeded, and once it has
    failed every request received has its answer.  A blank text is
    answered with the validation error, and no initialisation is started
    as long as only blank texts arrive; any other text is answered with
    the failure of the initialisation, or else with what [toVector]
    makes of the output of a call of the embedder that ended (the
    vector, or the error of that call or of [toVector]). *)
Theorem embedText_requests_answered_once (evs : list Event) :
  let s := run evs initial in
  (answered s).*1 ++ inferring s ++ waiting s ≡ₚ requests evs /\
  (settled_promise s -> waiting s = []) /\
  (embedderPromise s <> Some Fulfilled -> inferring s = []) /\
  (failed s -> (answered s).*1 ≡ₚ requests evs) /\
  Forall (fun a => blank a.1 = true ->
                   a.2 = Err "Embedding requires non-empty text.")
    (answered s) /\
  Forall (fun t => blank t = false) (inferring s ++ waiting s) /\
  (Forall (fun t => blank t = true) (requests evs) ->
   embedderPromise s = None /\ attempts s = 0) /\
  Forall (fun a => blank a.1 = false ->
            (exists e, embedderPromise s = Some (Rejected e) /\
                       a.2 = Err e) \/
            (embedderPromise s = Some Fulfilled /\
             exists k r, Inferred k r ∈ evs /\ a.2 = answer r))
    (answered s).
Proof.
  intros s. subst s.
  destruct (run_answers_inv evs)
    as (Hperm & Hset & Hnone & Hinf & Hex & Hblank & Hwait).
  split_and!; try done; [| |exact (run_sources_inv evs)].
  - intros Hf. rewrite <- Hperm, Hset by (by right).
    destruct Hf as [e He]. rewrite Hinf by (by rewrite He).
    by rewrite !app_nil_r.
  - intros Hall.
    destruct (run_memo_inv runtime_error evs initial) as [(Hp & Ha & _) | (Hp & Ha)].
    { left. by split_and!. }
    { by split. }
    apply Hex in Hp. apply Exists_exists in Hp as (t & Ht & Hb).
    eapply Forall_forall in Hall; [|exact Ht]. congruence.
Qed.

End OffscreenMore.

(** Three requests, one of them with a no-break space for text: it is
    refused at once; the other two wait for the model, and are answered
    when the embedder's calls end, here with the error of [toVector] and
    with the error of the call. *)
Example embedText_answers :
  let s := Offscreen.run None
             [Offscreen.Request (utf16 "first");
              Offscreen.Request [0xA0]%N;
              Offscreen.Request (utf16 "second");
              Offscreen.AssetsChecked None;
              Offscreen.PipelineSettled (Ok tt);
              Offscreen.Inferred 0 (Ok Offscreen.NoVector);
              Offscreen.Inferred 0 (Err "Session failed.")]
             Offscreen.initial in
  Offscreen.attempts s = 1 /\
  Offscreen.waiting s = [] /\ Offscreen.inferring s = [] /\
  Offscreen.answered s =
    [([0xA0]%N, Err "Embedding requires non-empty text.");
     (utf16 "first", Err "Embedding output is missing vector data.");
     (utf16 "second", Err "Session failed.")].
Proof. by vm_compute. Qed.

(** ** The content script: the flying label *)

Section ContentFacts.
Import Content.

Variable has_head has_body : bool.
Variable target_error : option string.

Local Abbreviation createAnimationElement :=
  (Content.createAnimationElement has_head has_body target_error).
Local Abbreviation step := (Content.step has_head has_body target_error).
Local Abbreviation run := (Content.run has_head has_body target_error).

(** The label is the text, cut to its first 20 code units and an
    ellipsis when it is longer. *)
Lemma animationLabel_length (t : Text) :
  length (animationLabel t) <= 23 /\
  (length t <= 20 -> animationLabel t = t) /\
  (20 < length t -> animationLabel t = take 20 t ++ utf16 "...").
Proof.
  unfold animationLabel.
  destruct (Nat.ltb_spec 20 (length t)) as [Hlong | Hshort].
  - rewrite length_app, length_take, Nat.min_l by lia.
    split_and!; [cbn; lia | intros; lia | done].
  - split_and!; [lia | done | intros; lia].
Qed.

(** Lengths and cuts count UTF-16 code units: fifteen letters with an
    accent are shown whole, thirty are cut after the twentieth, and a
    text of astral characters (two code units each) is cut after the
    tenth. *)
Example animationLabel_code_units :
  animationLabel (replicate 15 0xE9%N) = replicate 15 0xE9%N /\
  animationLabel (replicate 30 0xE9%N)
    = replicate 20 0xE9%N ++ utf16 "..." /\
  animationLabel (concat (replicate 11 [0xD83D; 0xDE00]%N))
    = concat (replicate 10 [0xD83D; 0xDE00]%N) ++ utf16 "...".
Proof. by vm_compute. Qed.

Lemma remove_element_inv p :
  page_inv p ->
  match animationElement p with
  | Some old => remove_element old (body p)
  | None => body p
  end = [].
Proof.
  intros ([Hb | (e & Hb & Ha)] & _).
  - rewrite Hb. by destruct (animationElement p).
  - rewrite Hb, Ha. unfold remove_element.
    by rewrite filter_cons_False, filter_nil by (by intros ?).
Qed.

Lemma step_page_inv p ev : page_inv p -> page_inv (step p ev).2.
Proof.
  intros Hinv. pose proof (remove_element_inv p Hinv) as Hrm.
  destruct Hinv as (Hone & Hlen & Hhead).
  destruct ev as [selection|t selection|style]; cbn [Content.step].
  - by destruct (getSelectionPosition selection).
  - destruct (match lastSelectionPosition p with
              | Some position => Some position
              | None => getSelectionPosition selection
              end) as [position|]; [|done].
    unfold Content.createAnimationElement.
    destruct (blank t); [done|].
    destruct (negb _ || negb _); [done|].
    destruct has_head; [|done]. destruct has_body; [|done]. cbn [negb].
    rewrite Hrm. destruct target_error as [e|]; cbn; unfold page_inv; cbn.
    + split_and!; auto.
    + split_and!.
      * right. eexists. by split.
      * constructor; [|done]. cbn. apply animationLabel_length.
      * by rewrite Hhead.
  - destruct (bool_decide _); [|done]. cbn. unfold page_inv. cbn.
    rewrite Hrm. split_and!; auto. by rewrite Hhead.
Qed.

(** X23. Whatever the events (context menus, animation messages,
    timeouts) and whichever of them throw, the page holds at most one
    animation element, the one the script's variable refers to, with a
    label of at most 23 UTF-16 code units; and every style element it
    added to the head has a pending timeout that removes it. *)
Theorem content_script_keeps_one_animation (evs : list Event) :
  let p := run evs empty_page in
  (body p = [] \/
   exists e, body p = [e] /\ animationElement p = Some (element_id e)) /\
  length (body p) <= 1 /\
  Forall (fun e => length (label e) <= 23) (body p) /\
  head p = timers p.
Proof.
  intros p. subst p.
  assert (Hinv : page_inv (run evs empty_page)).
  { unfold Content.run. induction evs as [|ev evs IH] using rev_ind.
    - unfold page_inv. cbn. auto.
    - rewrite foldl_app. cbn. by apply step_page_inv. }
  destruct Hinv as (Hone & Hlen & Hhead). split_and!; try done.
  destruct Hone as [-> | (e & -> & _)]; simpl; lia.
Qed.

Lemma createAnimationElement_ok t x y p p' :
  createAnimationElement t x y p = (Ok tt, p') ->
  blank t = false /\
  p' = mkPage (Some (created p)) (lastSelectionPosition p)
         (match animationElement p with
          | Some old => remove_element old (body p)
          | None => body p
          end ++ [mkElement (created p) (animationLabel t) x y])
         (head p ++ [S (created p)]) (timers p ++ [S (created p)])
         (S (S (created p))).
Proof.
  unfold Content.createAnimationElement.
  destruct (blank t) eqn:Hb; [discriminate|].
  destruct (negb _ || negb _); [discriminate|].
  destruct has_head; [|discriminate]. destruct has_body; [|discriminate].
  cbn [negb]. destruct target_error; [discriminate|].
  by intros [= <-].
Qed.

(** X24. An animation message that was handled.  The label starts at
    the position recorded at the last context menu, and at the current
    selection's when none is recorded; it shows the text, whole when it
    has at most 20 UTF-16 code units, and else its first 20 code units
    followed by three dots; it is the last element of the body and the
    one the variable holds.  The text is not blank.  The recorded
    position is forgotten, and one more timeout is pending. *)
Theorem animateSnippet_uses_recorded_position
    (p p' : Page) (t : Text) (selection : option Selection) :
  step p (AnimateSnippet t selection) = (Ok tt, p') ->
  exists position e,
    (lastSelectionPosition p = Some position \/
     lastSelectionPosition p = None /\
     getSelectionPosition selection = Some position) /\
    last (body p') = Some e /\
    animationElement p' = Some (element_id e) /\
    (length t <= 20 -> label e = t) /\
    (20 < length t -> label e = take 20 t ++ utf16 "...") /\
    left e = pos_x position /\ top e = pos_y position /\
    blank t = false /\
    lastSelectionPosition p' = None /\
    length (timers p') = S (length (timers p)).
Proof.
  cbn [Content.step].
  destruct (match lastSelectionPosition p with
            | Some position => Some position
            | None => getSelectionPosition selection
            end) as [position|] eqn:Hpos; [|discriminate].
  destruct (createAnimationElement t (pos_x position) (pos_y position) p)
    as [[[]|] p1] eqn:Hcreate; [|discriminate].
  apply createAnimationElement_ok in Hcreate as [Hb ->].
  intros [= <-]. cbn [body animationElement lastSelectionPosition timers].
  eexists position, _. split_and!.
  - destruct (lastSelectionPosition p); [left; congruence | by right].
  - by rewrite last_snoc.
  - done.
  - apply animationLabel_length.
  - apply animationLabel_length.
  - done.
  - done.
  - done.
  - done.
  - rewrite length_app. simpl. lia.
Qed.

End ContentFacts.

(** A long selection, animated from the position of the context menu. *)
Lemma animateSnippet_uses_recorded_position_witness :
  let selection := Content.mkSelection 1
                     (utf16 "a selection of more than twenty characters")
                     12 34 in
  let step := Content.step true true None in
  let p := (step Content.empty_page (Content.ContextMenu (Some selection))).2 in
  let t := utf16 "a selection of more than twenty characters" in
  let p' := (step p (Content.AnimateSnippet t None)).2 in
  step p (Content.AnimateSnippet t None) = (Ok tt, p') /\
  Content.label <$> Content.body p' = [utf16 "a selection of more ..."] /\
  Content.lastSelectionPosition p' = None.
Proof.
  intros selection step p t p'.
  assert (H : step p (Content.AnimateSnippet t None) = (Ok tt, p'))
    by reflexivity.
  split; [exact H|]. split; [reflexivity|].
  by destruct (animateSnippet_uses_recorded_position true true None
                 p p' t None H)
    as (position & e & _ & _ & _ & _ & _ & _ & _ & _ & Hlast & _).
Defined.

(** The local snippet of [example_search] copied. *)
Lemma copySnippet_copies_the_snippet_witness :
  let x := mkSnippet (Some "x") (Some (utf16 "cats and dogs")) in
  x ∈ Popup.snippetsByArea example_search Popup.area_local /\
  Popup.copySnippet example_search Popup.area_local "x"
    = Ok (utf16 "cats and dogs").
Proof.
  intros x.
  assert (Hin : x ∈ Popup.snippetsByArea example_search Popup.area_local)
    by (by apply list_elem_of_singleton).
  split; [exact Hin|].
  apply (copySnippet_copies_the_snippet example_search Popup.area_local
           "x" x Hin eq_refl); [done|].
  by intros y ->%list_elem_of_singleton _.
Defined.

(** In [example_unembedded] no synced snippet has the id ["x"]. *)
Lemma moveSnippet_refusals_witness :
  let move := Popup.moveSnippet (fun _ _ => None) (fun _ => None)
                Popup.area_sync "x" Popup.area_local in
  (forall y, y ∈ Popup.snippetsByArea example_unembedded Popup.area_sync ->
             id y <> Some "x") /\
  move example_unembedded = (Err "Snippet not found.", example_unembedded).
Proof.
  intros move.
  assert (Hnone : forall y,
            y ∈ Popup.snippetsByArea example_unembedded Popup.area_sync ->
            id y <> Some "x")
    by (by intros y ->%list_elem_of_singleton).
  split; [exact Hnone|].
  destruct (moveSnippet_refusals (fun _ _ => None) (fun _ => None)
              Popup.area_sync Popup.area_local "x" example_unembedded)
    as (e & Hrun & _); [auto|].
  unfold move. rewrite Hrun. f_equal.
  assert (Hrun' : move example_unembedded
                  = (Err "Snippet not found.", example_unembedded))
    by reflexivity.
  unfold move in Hrun'. congruence.
Defined.

(** ** Trimming *)

Section Trimming.

Lemma trimEnd_cons c s :
  trimEnd (c :: s) =
    match trimEnd s with
    | [] => if is_space c then [] else [c]
    | r => c :: r
    end.
Proof. reflexivity. Qed.

Lemma trimEnd_idempotent s : trimEnd (trimEnd s) = trimEnd s.
Proof.
  induction s as [|c s IH]; [done|]. rewrite trimEnd_cons.
  destruct (trimEnd s) as [|d r] eqn:Hr.
  - destruct (is_space c) eqn:Hc; [done|]. rewrite trimEnd_cons.
    cbn [trimEnd]. by rewrite Hc.
  - rewrite trimEnd_cons, IH. done.
Qed.

Lemma trimStart_clean s : starts_clean (trimStart s).
Proof.
  induction s as [|c s IH]; [done|]. cbn [trimStart].
  by destruct (is_space c) eqn:Hc.
Qed.

Lemma trimStart_of_clean s : starts_clean s -> trimStart s = s.
Proof. destruct s as [|c s]; [done|]. cbn. by intros ->. Qed.

Lemma trimEnd_clean s : starts_clean s -> starts_clean (trimEnd s).
Proof.
  destruct s as [|c s]; [done|]. rewrite trimEnd_cons.
  cbn [starts_clean]. intros Hc.
  destruct (trimEnd s); by rewrite ?Hc.
Qed.

(** [String.prototype.trim] is idempotent. *)
Lemma trim_idempotent s : trim (trim s) = trim s.
Proof.
  unfold trim.
  rewrite (trimStart_of_clean (trimEnd (trimStart s)))
    by apply trimEnd_clean, trimStart_clean.
  apply trimEnd_idempotent.
Qed.

Lemma blank_trim s : blank (trim s) = blank s.
Proof. unfold blank. by rewrite trim_idempotent. Qed.

End Trimming.

(** ** The popup: a search that runs alone *)

Section SearchAlone.
Import Popup.

Variable ensure_reply : list Snippet -> Reply.
Variable index_load : Load.
Variable query_reply : Text -> Reply.

Local Abbreviation next := (next_event ensure_reply index_load query_reply).
Local Abbreviation resumed := (drive ensure_reply index_load query_reply).
Local Abbreviation ended := (search_ended query_reply).

Variable s0 : State.

Lemma drive_step n t s ev ts :
  next t = Some ev -> resume t ev s = Some ts ->
  resumed (S n) t s = resumed n ts.1 ts.2.
Proof.
  intros Hev Hres. cbn [drive]. rewrite Hev, Hres. by destruct ts.
Qed.

Lemma drive_settled n t s o : pc t = Settled o -> resumed n t s = (t, s).
Proof.
  intros Hpc. destruct n; [done|]. cbn [drive]. unfold next_event.
  by rewrite Hpc.
Qed.

(** The last step: the ranking is shown, or the error reported. *)
Lemma ends_from_rank n t s r :
  search_running s0 t s -> pc t = AfterRank r ->
  (forall ranked, r = Ok ranked ->
     ranked = [] /\ getAllSnippetItems s0 = [] \/
     rank_with (query_vector_of_reply (query_reply (trim (search_input s0))))
       (embeddingsIndex s) (getAllSnippetItems s0) = Ok ranked) ->
  ended s0 (resumed (S n) t s).1 (resumed (S n) t s).2.
Proof.
  intros (Htok & Hq & Hlist & Htitle & Hl & Hs) Hpc Hr.
  destruct r as [ranked|e].
  - erewrite drive_step;
      [| unfold next_event; rewrite Hpc; reflexivity
       | unfold resume; rewrite Hpc; reflexivity].
    unfold show_ranked. rewrite decide_False by (intros Hn; by apply Hn).
    erewrite drive_settled by reflexivity.
    unfold search_ended. cbn [fst snd pc at_pc].
    specialize (Hr ranked eq_refl).
    destruct ranked as [|u ranked]; cbn; split_and!; try done.
  - erewrite drive_step;
      [| unfold next_event; rewrite Hpc; reflexivity
       | unfold resume; rewrite Hpc; reflexivity].
    unfold on_error. rewrite decide_False by (intros Hn; by apply Hn).
    erewrite drive_settled by reflexivity.
    unfold search_ended. cbn [fst snd pc at_pc]. cbn. by split_and!.
Qed.

Lemma getAllSnippetItems_same s :
  snippets_local s = snippets_local s0 ->
  snippets_sync s = snippets_sync s0 ->
  getAllSnippetItems s = getAllSnippetItems s0.
Proof. unfold getAllSnippetItems. cbn. by intros -> ->. Qed.

Lemma ends_from_query_result n t s all r :
  search_running s0 t s -> pc t = AfterEmbedQuery all r ->
  all = getAllSnippetItems s0 ->
  r = query_vector_of_reply (query_reply (trim (search_input s0))) ->
  ended s0 (resumed (S (S n)) t s).1 (resumed (S (S n)) t s).2.
Proof.
  intros Hrun Hpc -> ->.
  erewrite drive_step;
    [| unfold next_event; rewrite Hpc; reflexivity
     | unfold resume; rewrite Hpc; reflexivity].
  cbn [fst snd]. eapply ends_from_rank; [exact Hrun | reflexivity|].
  intros ranked Hr. by right.
Qed.

Lemma ends_from_query n t s all :
  search_running s0 t s -> pc t = InEmbedQuery all ->
  all = getAllSnippetItems s0 ->
  ended s0 (resumed (S (S (S n))) t s).1 (resumed (S (S (S n))) t s).2.
Proof.
  intros Hrun Hpc ->.
  erewrite drive_step;
    [| unfold next_event; rewrite Hpc; reflexivity
     | unfold resume; rewrite Hpc; reflexivity].
  cbn [fst snd].
  eapply ends_from_query_result; [exact Hrun | reflexivity | done|].
  destruct Hrun as (_ & -> & _). done.
Qed.

Lemma ends_from_failed_ensure n t s a e :
  search_running s0 t s -> pc t = AfterEnsure a (Err e) ->
  ended s0 (resumed (S n) t s).1 (resumed (S n) t s).2.
Proof.
  intros (Htok & Hq & Hlist & Htitle & Hl & Hs) Hpc.
  erewrite drive_step;
    [| unfold next_event; rewrite Hpc; reflexivity
     | unfold resume; rewrite Hpc; by destruct a].
  unfold on_error. rewrite decide_False by (intros Hn; by apply Hn).
  erewrite drive_settled by reflexivity.
  unfold search_ended. cbn. by split_and!.
Qed.

Lemma resume_load t s a missing ld :
  pc t = InEnsureLoad a missing ->
  resume t (Loaded ld) s =
    Some (at_pc t (AfterEnsure a (ensureMissing_loaded missing ld s).1),
          (ensureMissing_loaded missing ld s).2).
Proof.
  intros Hpc. unfold resume. rewrite Hpc.
  by destruct (ensureMissing_loaded missing ld s).
Qed.

Lemma ends_from_ensured_sync n t s r :
  blank (search_input s0) = false ->
  search_running s0 t s -> pc t = AfterEnsure area_sync r ->
  ended s0 (resumed (4 + n) t s).1 (resumed (4 + n) t s).2.
Proof.
  change (4 + n) with (S (3 + n)).
  intros Hq0 Hrun Hpc. destruct r as [[]|e];
    [|by eapply ends_from_failed_ensure].
  destruct Hrun as (Htok & Hq & Hlist & Htitle & Hl & Hs).
  erewrite drive_step;
    [| unfold next_event; rewrite Hpc; reflexivity
     | unfold resume; rewrite Hpc;
       rewrite decide_False by (intros Hn; by apply Hn); reflexivity].
  cbn [fst snd]. set (s1 := setStatus "Searching..." "loading" s).
  assert (Hall : getAllSnippetItems s1 = getAllSnippetItems s0)
    by (by apply getAllSnippetItems_same).
  unfold start_rank. rewrite Hall.
  destruct (getAllSnippetItems s0) as [|p all] eqn:Hitems.
  - cbn [fst snd]. eapply ends_from_rank; [by split_and! | reflexivity|].
    intros ranked [= <-]. by left.
  - rewrite Hq, blank_trim, Hq0. cbn [fst snd].
    eapply ends_from_query; [by split_and! | reflexivity | done].
Qed.

Lemma ends_from_load_sync n t s missing :
  blank (search_input s0) = false ->
  search_running s0 t s -> pc t = InEnsureLoad area_sync missing ->
  ended s0 (resumed (5 + n) t s).1 (resumed (5 + n) t s).2.
Proof.
  change (5 + n) with (S (4 + n)).
  intros Hq0 (Htok & Hq & Hlist & Htitle & Hl & Hs) Hpc.
  destruct (ensureMissing_loaded_spec missing index_load s)
    as ((H1 & H2 & H3 & H4 & H5) & _).
  erewrite drive_step;
    [| unfold next_event; rewrite Hpc; reflexivity
     | by apply resume_load].
  destruct (ensureMissing_loaded missing index_load s) as [r s1].
  cbn [fst snd] in *.
  eapply ends_from_ensured_sync; [done | | reflexivity].
  split_and!; cbn; congruence.
Qed.

Lemma ends_from_reply_sync n t s missing :
  blank (search_input s0) = false ->
  search_running s0 t s -> pc t = InEnsureReply area_sync missing ->
  ended s0 (resumed (6 + n) t s).1 (resumed (6 + n) t s).2.
Proof.
  change (6 + n) with (S (5 + n)).
  intros Hq0 Hrun Hpc.
  destruct (check_ensure_reply (ensure_reply missing)) as [[]|e] eqn:Hreply.
  - erewrite drive_step;
      [| unfold next_event; rewrite Hpc; reflexivity
       | unfold resume; rewrite Hpc, Hreply; reflexivity].
    cbn [fst snd]. eapply ends_from_load_sync; [done | | reflexivity].
    exact Hrun.
  - erewrite drive_step;
      [| unfold next_event; rewrite Hpc; reflexivity
       | unfold resume; rewrite Hpc, Hreply; reflexivity].
    cbn [fst snd]. eapply ends_from_failed_ensure; [|reflexivity].
    exact Hrun.
Qed.

Lemma start_ensure_cases a t s :
  (exists r, (start_ensure a t s).1 = at_pc t (AfterEnsure a r)) \/
  (exists missing,
     (start_ensure a t s).1 = at_pc t (InEnsureReply a missing)).
Proof.
  unfold start_ensure.
  destruct (ensureMissing_start a s) as [[r|missing] s']; eauto.
Qed.

Lemma ends_from_ensured_local n t s r :
  blank (search_input s0) = false ->
  search_running s0 t s -> pc t = AfterEnsure area_local r ->
  ended s0 (resumed (7 + n) t s).1 (resumed (7 + n) t s).2.
Proof.
  change (7 + n) with (S (6 + n)).
  intros Hq0 Hrun Hpc. destruct r as [[]|e];
    [|by eapply ends_from_failed_ensure].
  destruct Hrun as (Htok & Hq & Hlist & Htitle & Hl & Hs).
  erewrite drive_step;
    [| unfold next_event; rewrite Hpc; reflexivity
     | unfold resume; rewrite Hpc; reflexivity].
  destruct (start_ensure_spec area_sync t s)
    as ((H1 & H2 & H3 & H4 & H5) & H6 & _).
  assert (Hrun' : forall p, search_running s0 (at_pc t p)
                              (start_ensure area_sync t s).2).
  { intros p. split_and!; cbn; congruence. }
  destruct (start_ensure_cases area_sync t s)
    as [(r & Ht) | (missing & Ht)]; rewrite Ht.
  - eapply (ends_from_ensured_sync (2 + n)); [done | apply Hrun' | done].
  - eapply (ends_from_reply_sync n); [done | apply Hrun' | done].
Qed.

Lemma ends_from_load_local n t s missing :
  blank (search_input s0) = false ->
  search_running s0 t s -> pc t = InEnsureLoad area_local missing ->
  ended s0 (resumed (8 + n) t s).1 (resumed (8 + n) t s).2.
Proof.
  change (8 + n) with (S (7 + n)).
  intros Hq0 (Htok & Hq & Hlist & Htitle & Hl & Hs) Hpc.
  destruct (ensureMissing_loaded_spec missing index_load s)
    as ((H1 & H2 & H3 & H4 & H5) & _).
  erewrite drive_step;
    [| unfold next_event; rewrite Hpc; reflexivity
     | by apply resume_load].
  destruct (ensureMissing_loaded missing index_load s) as [r s1].
  cbn [fst snd] in *.
  eapply ends_from_ensured_local; [done | | reflexivity].
  split_and!; cbn; congruence.
Qed.

Lemma ends_from_reply_local n t s missing :
  blank (search_input s0) = false ->
  search_running s0 t s -> pc t = InEnsureReply area_local missing ->
  ended s0 (resumed (9 + n) t s).1 (resumed (9 + n) t s).2.
Proof.
  change (9 + n) with (S (8 + n)).
  intros Hq0 Hrun Hpc.
  destruct (check_ensure_reply (ensure_reply missing)) as [[]|e] eqn:Hreply.
  - erewrite drive_step;
      [| unfold next_event; rewrite Hpc; reflexivity
       | unfold resume; rewrite Hpc, Hreply; reflexivity].
    cbn [fst snd]. eapply ends_from_load_local; [done | | reflexivity].
    exact Hrun.
  - erewrite drive_step;
      [| unfold next_event; rewrite Hpc; reflexivity
       | unfold resume; rewrite Hpc, Hreply; reflexivity].
    cbn [fst snd]. eapply ends_from_failed_ensure; [|reflexivity].
    exact Hrun.
Qed.


End SearchAlone.

